(* ===================================================================== *)
(* flux: release engine, cluster adapter, RPC bus and daemon facade.    *)
(* A shallow embedding of the Go sources and the properties checked on  *)
(* it.                                                                  *)
(* ===================================================================== *)

From stdpp Require Import gmap strings list fin_maps pretty.

Local Open Scope string_scope.
Local Open Scope list_scope.

(* --------------------------------------------------------------------- *)
(* Go runtime notions shared by every package                            *)
(* --------------------------------------------------------------------- *)

Module Go.

(** Go [error] values that the sources build:
    [errors.New]/[fmt.Errorf] (a message), [errors.Wrap] (a cause with a
    message in front) and [platform.FatalError{err}].  A Go [error] that
    may be nil is an [option error]. *)
Inductive error : Type :=
| errorString (s : string)
| withMessage (cause : error) (msg : string)
| FatalError (err : error).

(** The [Error()] method. *)
Fixpoint Error (e : error) : string :=
  match e with
  | errorString s => s
  | withMessage cause msg => msg +:+ ": " +:+ Error cause
  | FatalError err => Error err
  end.

(** [errors.New]. *)
Definition New (s : string) : error := errorString s.

(** [errors.Wrap(err, msg)] of github.com/pkg/errors: nil stays nil. *)
Definition Wrap (err : option error) (msg : string) : option error :=
  match err with
  | None => None
  | Some e => Some (withMessage e msg)
  end.

(** The type assertion [_, ok := err.(platform.FatalError)]. *)
Definition isFatalError (err : option error) : bool :=
  match err with
  | Some (FatalError _) => true
  | _ => false
  end.

#[global] Instance error_eq_dec : EqDecision error.
Proof. solve_decision. Defined.

(** What a call can do: return a value, return a non-nil error, or
    panic (nil pointer dereference). *)
Inductive outcome (A : Type) : Type :=
| Ok (a : A)
| Err (e : error)
| Panic.
Arguments Ok {A} a.
Arguments Err {A} e.
Arguments Panic {A}.

(** [strings.HasSuffix]. *)
Definition HasSuffix (s suffix : string) : bool :=
  let n := String.length s in
  let k := String.length suffix in
  (k <=? n)%nat && String.eqb (String.substring (n - k) k s) suffix.

Example HasSuffix_kick : HasSuffix "instance-1.Platform.Kick" ".Platform.Kick" = true.
Proof. reflexivity. Qed.

Example HasSuffix_longer : HasSuffix "Kick" ".Platform.Kick" = false.
Proof. reflexivity. Qed.

Example HasSuffix_other : HasSuffix "instance-1.Platform.Ping" ".Platform.Kick" = false.
Proof. reflexivity. Qed.

(** [strings.Join]. *)
Fixpoint Join (elems : list string) (sep : string) : string :=
  match elems with
  | [] => ""
  | [x] => x
  | x :: rest => x +:+ sep +:+ Join rest sep
  end.

(** A [for k, v := range m] over a Go map visits every entry once, in
    an order the runtime chooses.  The order is an oracle: any function
    that enumerates the entries of the map. *)
Definition rangeOracle : Type :=
  ∀ V : Type, gmap string V → list (string * V).

Definition rangeOracle_ok (range : rangeOracle) : Prop :=
  ∀ (V : Type) (m : gmap string V), range V m ≡ₚ map_to_list m.

(** One admissible order, used to run the model on examples. *)
Definition rangeSorted : rangeOracle := λ V m, map_to_list m.

End Go.

Export Go.

(* --------------------------------------------------------------------- *)
(* package flux: identifiers and release results                         *)
(* --------------------------------------------------------------------- *)

Module Flux.

(** [type ServiceID string], printed as namespace/name. *)
Definition ServiceID : Type := string.

(** [type ServiceIDSet map[ServiceID]struct{}]. *)
Abbreviation ServiceIDSet := (gset string).

(** Modelled from the spec: the declaration of [flux.ReleaseStatus] and
    its constants is not among the sources; the spec lists
    Status ∈ {pending, success, skipped, ignored, failed}. *)
Inductive ReleaseStatus : Type :=
| ReleaseStatusPending
| ReleaseStatusSuccess
| ReleaseStatusSkipped
| ReleaseStatusIgnored
| ReleaseStatusFailed.

#[global] Instance ReleaseStatus_eq_dec : EqDecision ReleaseStatus.
Proof. solve_decision. Defined.

(** Modelled from the spec: the declaration of [flux.ImageID] is not among
    the sources; the spec gives (registry, repository, tag). *)
Record ImageID : Type := mkImageID {
  Registry : string;
  Repository : string;
  Tag : string
}.

(** Modelled from the spec: the declaration of [flux.ContainerUpdate] is
    not among the sources; the spec gives { Container, From, To }. *)
Record ContainerUpdate : Type := mkContainerUpdate {
  Container : string;
  Current : ImageID;
  Target : ImageID
}.

(** Modelled from the spec: the declaration of [flux.ServiceResult] is
    not among the sources; the spec gives
    { Status, Error: string, PerContainerUpdates }. *)
Record ServiceResult : Type := mkServiceResult {
  Status : ReleaseStatus;
  Error_ : string;
  PerContainer : list ContainerUpdate
}.

(** [type ReleaseResult map[ServiceID]ServiceResult]. *)
Abbreviation ReleaseResult := (gmap string ServiceResult).

(** [flux.LogLevelInfo], [flux.LogLevelError]. *)
Inductive LogLevel : Type := LogLevelInfo | LogLevelError.

End Flux.

Export Flux.

(* --------------------------------------------------------------------- *)
(* package daemon: the facade that runs a release and logs the event     *)
(* --------------------------------------------------------------------- *)

Module Daemon.

Section Facade.

(** Types of package flux whose declarations the daemon only passes on. *)
Variable ReleaseSpec : Type.
Variable Result : Type.
Variable Time : Type.

(** [flux.Release]. *)
Record Release : Type := mkRelease {
  StartedAt : Time;
  EndedAt : Time;
  Done : bool;
  RStatus : ReleaseStatus;
  Spec : ReleaseSpec;
  RResult : Result
}.

(** [flux.ReleaseEventMetadata]. *)
Record ReleaseEventMetadata : Type := mkReleaseEventMetadata {
  MRelease : Release;
  MError : string
}.

(** The event types of package flux; the facade writes this one. *)
Inductive EventType : Type := EventRelease.

(** [flux.Event]. *)
Record Event : Type := mkEvent {
  EServiceIDs : list ServiceID;
  EType : EventType;
  EStartedAt : Time;
  EEndedAt : Time;
  ELogLevel : LogLevel;
  EMetadata : ReleaseEventMetadata
}.

(** [flux.ReleaseResult.ServiceIDs()], declared outside the sources. *)
Variable ServiceIDs : Result → list string.

(** [release.Release(rc, spec)], the release engine the facade drives. *)
Variable releaseRelease : ReleaseSpec → Result * option error.

(** The two readings of the clock, [time.Now()] and [time.Now().UTC()]. *)
Variable started ended : Time.

(** [func (d *Daemon) LogEvent(ev flux.Event) error]: the method of the
    sources records nothing and returns nil. *)
Definition LogEvent (ev : Event) : option error := None.

(** The event [logRelease] hands to [LogEvent]. *)
Definition releaseEvent (executeErr : option error) (release : Release) : Event :=
  let errorMessage := match executeErr with Some e => Error e | None => "" end in
  let logLevel := match executeErr with Some _ => LogLevelError | None => LogLevelInfo end in
  let serviceIDs := foldl (λ acc id, acc ++ [id]) [] (ServiceIDs (RResult release)) in
  {| EServiceIDs := serviceIDs;
     EType := EventRelease;
     EStartedAt := StartedAt release;
     EEndedAt := EndedAt release;
     ELogLevel := logLevel;
     EMetadata := {| MRelease := release; MError := errorMessage |} |}.

(** [func (d *Daemon) logRelease(executeErr error, release flux.Release) error]. *)
Definition logRelease (executeErr : option error) (release : Release) : option error :=
  let err := LogEvent (releaseEvent executeErr release) in
  match err with
  | Some _ =>
      match executeErr with
      | None => Wrap err "logging event"
      | Some _ => executeErr
      end
  | None => executeErr
  end.

(** The [flux.Release] record [UpdateImages] builds. *)
Definition releaseRecord (spec : ReleaseSpec) (results : Result) (err : option error) : Release :=
  let status := match err with Some _ => ReleaseStatusFailed | None => ReleaseStatusSuccess end in
  {| StartedAt := started;
     EndedAt := ended;
     Done := true;
     RStatus := status;
     Spec := spec;
     RResult := results |}.

(** [func (d *Daemon) UpdateImages(spec flux.ReleaseSpec) (flux.ReleaseResult, error)]. *)
Definition UpdateImages (spec : ReleaseSpec) : Result * option error :=
  let '(results, err) := releaseRelease spec in
  let release := releaseRecord spec results err in
  let err := logRelease err release in
  (results, err).

(** The event written for a release carries the level and the message of
    the engine's error. *)
Lemma releaseEvent_level (executeErr : option error) (release : Release) :
  ELogLevel (releaseEvent executeErr release) =
    match executeErr with Some _ => LogLevelError | None => LogLevelInfo end ∧
  MError (EMetadata (releaseEvent executeErr release)) = from_option Error "" executeErr.
Proof. by destruct executeErr. Qed.



End Facade.

(** A release that succeeds and one that fails: the daemon returns what
    the engine returned. *)
Example UpdateImages_of_successful_release :
  UpdateImages unit (list string) nat id (λ _, (["default/web"], None)) 0%nat 1%nat tt =
  (["default/web"], None).
Proof. reflexivity. Qed.

Example UpdateImages_of_failed_release :
  UpdateImages unit (list string) nat id (λ _, ([], Some (New "pushing changes"))) 0%nat 1%nat tt =
  ([], Some (errorString "pushing changes")).
Proof. reflexivity. Qed.

End Daemon.

(* --------------------------------------------------------------------- *)
(* package platform: services as observed, and the platform Daemon       *)
(* --------------------------------------------------------------------- *)

Module Platform.

(** [platform.Container]. *)
Record Container : Type := mkContainer {
  Name : string;
  Image : string
}.

(** [platform.ContainersOrExcuse]: the containers, or why there are none. *)
Record ContainersOrExcuse : Type := mkContainersOrExcuse {
  Excuse : string;
  Containers : list Container
}.

(** [platform.Service]. *)
Record Service : Type := mkService {
  ID : ServiceID;
  IP : string;
  Metadata : gmap string string;
  SStatus : string;
  SContainers : ContainersOrExcuse
}.

(** The zero value of [platform.Service]. *)
Definition zeroService : Service :=
  {| ID := ""; IP := ""; Metadata := ∅; SStatus := "";
     SContainers := {| Excuse := ""; Containers := [] |} |}.

(** Modelled from the spec: [Service.ContainersOrNil] is declared outside
    the sources; the spec's Containers-or-Excuse variant gives the
    container list, nil when there is an excuse instead. *)
Definition ContainersOrNil (s : Service) : list Container :=
  Containers (SContainers s).

(** [flux.ImageDescription]; the creation time is left at its zero value
    by the code below and is not carried. *)
Record ImageDescription : Type := mkImageDescription {
  DID : ImageID
}.

(** [flux.Container]. *)
Record FluxContainer : Type := mkFluxContainer {
  CName : string;
  CCurrent : ImageDescription;
  CAvailable : list ImageDescription
}.

(** [flux.ServiceStatus]. *)
Record ServiceStatus : Type := mkServiceStatus {
  StID : ServiceID;
  StContainers : list FluxContainer;
  StStatus : string
}.

Section PlatformDaemon.

(** [flux.ParseImageID], declared outside the sources. *)
Variable ParseImageID : string → ImageID * option error.

(** [d.Cluster.AllServices(maybeNamespace, ignored)]: a Go call returns
    both values, so the model keeps both. *)
Variable AllServices : string → ServiceIDSet → list Service * option error.

(** [func containers2containers(cs []Container) []flux.Container]. *)
Definition containers2containers (cs : list Container) : list FluxContainer :=
  (λ c, let '(id, _) := ParseImageID (Image c) in
        {| CName := Name c; CCurrent := {| DID := id |}; CAvailable := [] |}) <$> cs.

(** [func (d *Daemon) getAllServicesExcept]. *)
Definition getAllServicesExcept (maybeNamespace : string) (ignored : ServiceIDSet)
    : list Service * option error :=
  AllServices maybeNamespace ignored.

(** [func (d *Daemon) getAllServices]. *)
Definition getAllServices (maybeNamespace : string) : list Service * option error :=
  getAllServicesExcept maybeNamespace ∅.

(** The element [ListServices] appends for one service. *)
Definition serviceStatus (service : Service) : ServiceStatus :=
  {| StID := ID service;
     StContainers := containers2containers (ContainersOrNil service);
     StStatus := SStatus service |}.

(** [func (d *Daemon) ListServices(namespace string) ([]flux.ServiceStatus, error)]:
    [err] is bound and never read. *)
Definition ListServices (namespace : string) : list ServiceStatus * option error :=
  let '(services, err) := getAllServices namespace in
  let res := foldl (λ res service, res ++ [serviceStatus service]) [] services in
  (res, None).

Lemma foldl_snoc_fmap {A B : Type} (f : A → B) (l : list A) (acc : list B) :
  foldl (λ res x, res ++ [f x]) acc l = acc ++ (f <$> l).
Proof.
  revert acc. induction l as [|x l IH]; intros acc; cbn.
  - by rewrite app_nil_r.
  - rewrite IH. by rewrite <- app_assoc.
Qed.

(** C10: whatever the namespace, and whatever error the cluster
    enumeration reports, [ListServices] returns a nil error together with
    the statuses of exactly the services the enumeration handed back
    (none when it handed back none). *)
Theorem ListServices_discards_enumeration_error (namespace : string) :
  (ListServices namespace).2 = None ∧
  (ListServices namespace).1 =
    serviceStatus <$> (AllServices namespace ∅).1.
Proof.
  unfold ListServices, getAllServices, getAllServicesExcept.
  destruct (AllServices namespace ∅) as [services err]; cbn [fst snd].
  split; [done|]. by rewrite foldl_snoc_fmap.
Qed.

End PlatformDaemon.

(** A cluster whose enumeration fails after producing nothing, and one
    that fails after producing a service: both give a nil error. *)
Example ListServices_failed_enumeration :
  ListServices (λ _, (mkImageID "" "" "", None))
    (λ _ _, ([], Some (New "getting namespaces"))) "default" = ([], None).
Proof. reflexivity. Qed.

Example ListServices_partial_enumeration :
  ListServices (λ _, (mkImageID "" "r/i" "1", None))
    (λ _ _, ([ {| ID := "default/web"; IP := "10.0.0.20"; Metadata := ∅;
                  SStatus := "ready";
                  SContainers := {| Excuse := "";
                                    Containers := [ {| Name := "web"; Image := "r/i:1" |} ] |} |} ],
             Some (New "getting services for namespace kube-system"))) "" =
  ([ {| StID := "default/web";
        StContainers := [ {| CName := "web";
                             CCurrent := {| DID := mkImageID "" "r/i" "1" |};
                             CAvailable := [] |} ];
        StStatus := "ready" |} ], None).
Proof. reflexivity. Qed.

End Platform.

(* --------------------------------------------------------------------- *)
(* package platform: the images of the running services                  *)
(* --------------------------------------------------------------------- *)

Module PlatformImages.

Section ImageListing.

(** [time.Time] and its zero value. *)
Variable Time : Type.
Variable zeroTime : Time.

(** [flux.ImageDescription] as the image listing fills it in: the image
    and when it was created. *)
Record DatedImage : Type := mkDatedImage {
  DatedID : ImageID;
  CreatedAt : Time
}.

(** [flux.Container] with the images available for it. *)
Record ImageContainer : Type := mkImageContainer {
  ICName : string;
  ICCurrent : DatedImage;
  ICAvailable : list DatedImage
}.

(** [flux.ImageStatus]. *)
Record ImageStatus : Type := mkImageStatus {
  ISID : ServiceID;
  ISContainers : list ImageContainer
}.

(** [type ImageMap map[string][]flux.ImageDescription]. *)
Abbreviation ImageMap := (gmap string (list DatedImage)).

(** [flux.ServiceSpec], [flux.ServiceSpecAll] and [ServiceSpec.AsID],
    declared outside the sources. *)
Variable ServiceSpec : Type.
Context `{EqDecision ServiceSpec}.
Variable ServiceSpecAll : ServiceSpec.
Variable AsID : ServiceSpec → ServiceID * option error.

(** [flux.ParseImageID], [ImageID.Repository] and [ImageID.Components],
    declared outside the sources. *)
Variable ParseImageID : string → ImageID * option error.
Variable ImageRepository : ImageID → string.
Variable ImageComponents : ImageID → string * string * string.

(** Package registry: [registry.Repository], [registry.Image] with its
    [String] method and [CreatedAt] field, [registry.ParseRepository] and
    [d.Registry.GetRepository]. *)
Variable RegistryRepository : Type.
Variable RegistryImage : Type.
Variable ImageString : RegistryImage → string.
Variable ImageCreatedAt : RegistryImage → Time.
Variable ParseRepository : string → RegistryRepository * option error.
Variable GetRepository : RegistryRepository → list RegistryImage * option error.

(** [strings.EqualFold]. *)
Variable EqualFold : string → string → bool.

(** [d.Cluster.AllServices] and [d.Cluster.SomeServices]. *)
Variable AllServices : string → ServiceIDSet → list Platform.Service * option error.
Variable SomeServices : list ServiceID → list Platform.Service * option error.

(** The order in which the runtime ranges over maps. *)
Variable range : rangeOracle.

(** [func (d *Daemon) getServices(ids []flux.ServiceID) ([]Service, error)]. *)
Definition getServices (ids : list ServiceID) : list Platform.Service * option error :=
  SomeServices ids.

(** The first loop of [collectAvailableImages], over the containers of
    one service: [images[id.Repository()] = nil]. *)
Fixpoint mentionContainers (containers : list Platform.Container) (images : ImageMap)
    : ImageMap * option error :=
  match containers with
  | [] => (images, None)
  | container :: rest =>
      match ParseImageID (Platform.Image container) with
      | (_, Some err) => (images, Some err)
      | (id, None) => mentionContainers rest (<[ImageRepository id := []]> images)
      end
  end.

(** The first loop, over the services. *)
Fixpoint mentionServices (services : list Platform.Service) (images : ImageMap)
    : ImageMap * option error :=
  match services with
  | [] => (images, None)
  | service :: rest =>
      match mentionContainers (Platform.ContainersOrNil service) images with
      | (images', Some err) => (images', Some err)
      | (images', None) => mentionServices rest images'
      end
  end.

(** The loop that fills [res] from what the registry returned. *)
Fixpoint describeLoop (imageRepo : list RegistryImage) (res : list DatedImage)
    : list DatedImage * option error :=
  match imageRepo with
  | [] => (res, None)
  | im :: rest =>
      match ParseImageID (ImageString im) with
      | (_, Some err) => ([], Some err)
      | (id, None) =>
          describeLoop rest (res ++ [ {| DatedID := id; CreatedAt := ImageCreatedAt im |} ])
      end
  end.

(** The second loop of [collectAvailableImages], over the repositories in
    range order.  [asked] logs the repositories the registry has been
    asked for. *)
Fixpoint fetchLoop (repos : list string) (images : ImageMap) (asked : list string)
    : ImageMap * list string * option error :=
  match repos with
  | [] => (images, asked, None)
  | repo :: rest =>
      match ParseRepository repo with
      | (_, Some err) => (∅, asked, Wrap (Some err) ("parsing repository " +:+ repo))
      | (r, None) =>
          match GetRepository r with
          | (_, Some err) =>
              (∅, asked ++ [repo],
               Wrap (Some err) ("fetching image metadata for " +:+ repo))
          | (imageRepo, None) =>
              match describeLoop imageRepo [] with
              | (_, Some err) => (∅, asked ++ [repo], Some err)
              | (res, None) => fetchLoop rest (<[repo := res]> images) (asked ++ [repo])
              end
          end
      end
  end.

(** [func (d *Daemon) collectAvailableImages(services []Service) (ImageMap, error)],
    with the log of the registry next to the result; a nil map is the
    empty map. *)
Definition collectAvailableImages (services : list Platform.Service)
    : ImageMap * list string * option error :=
  match mentionServices services ∅ with
  | (_, Some err) => (∅, [], Some err)
  | (images, None) => fetchLoop (range _ images).*1 images []
  end.

(** [func (m ImageMap) latestImage(repo string) *flux.ImageDescription]. *)
Fixpoint latestAmong (images : list DatedImage) : option DatedImage :=
  match images with
  | [] => None
  | image :: rest =>
      let tag := (ImageComponents (DatedID image)).2 in
      if EqualFold tag "latest" then latestAmong rest else Some image
  end.

Definition latestImage (m : ImageMap) (repo : string) : option DatedImage :=
  latestAmong (default [] (m !! repo)).

(** [func containersWithAvailable(service Service, images ImageMap) []flux.Container]. *)
Definition containersWithAvailable (service : Platform.Service) (images : ImageMap)
    : list ImageContainer :=
  foldl (λ res c,
           let '(id, _) := ParseImageID (Platform.Image c) in
           let repo := ImageRepository id in
           let available := default [] (images !! repo) in
           res ++ [ {| ICName := Platform.Name c;
                       ICCurrent := {| DatedID := id; CreatedAt := zeroTime |};
                       ICAvailable := available |} ])
        [] (Platform.ContainersOrNil service).

(** [func (d *Daemon) ListImages(spec flux.ServiceSpec) ([]flux.ImageStatus, error)].
    The error of the cluster is assigned in both branches and read in
    neither: in the first it is overwritten by the error of
    [collectAvailableImages], in the second it belongs to the inner
    [err] that [id, err := spec.AsID()] declares. *)
Definition ListImages (spec : ServiceSpec) : list ImageStatus * option error :=
  let listFor (services : list Platform.Service) : list ImageStatus * option error :=
    match collectAvailableImages services with
    | (_, _, Some err) => ([], Wrap (Some err) "getting images for services")
    | (images, _, None) =>
        (foldl (λ res service,
                  res ++ [ {| ISID := Platform.ID service;
                              ISContainers := containersWithAvailable service images |} ])
               [] services, None)
    end in
  if decide (spec = ServiceSpecAll) then
    let '(services, _) := Platform.getAllServices AllServices "" in
    listFor services
  else
    match AsID spec with
    | (_, Some err) => ([], Wrap (Some err) "treating service spec as ID")
    | (id, None) =>
        let '(services, _) := getServices [id] in
        listFor services
    end.

(** ** Facts about the loops *)

Hypothesis range_ok : rangeOracle_ok range.

(** What the second loop makes of one image of the registry. *)
Definition describeOf (im : RegistryImage) : DatedImage :=
  {| DatedID := (ParseImageID (ImageString im)).1; CreatedAt := ImageCreatedAt im |}.

(** The repository of the image a container runs. *)
Definition repositoryOf (c : Platform.Container) : string :=
  ImageRepository (ParseImageID (Platform.Image c)).1.

(** The image of the container parses. *)
Definition wellFormed (c : Platform.Container) : Prop :=
  (ParseImageID (Platform.Image c)).2 = None.

(** [descs] is what the registry lists for [repo]. *)
Definition listing (repo : string) (descs : list DatedImage) : Prop :=
  ∃ r imageRepo,
    ParseRepository repo = (r, None) ∧ GetRepository r = (imageRepo, None) ∧
    descs = describeOf <$> imageRepo.

Lemma describeLoop_Ok imageRepo res res' :
  describeLoop imageRepo res = (res', None) → res' = res ++ (describeOf <$> imageRepo).
Proof.
  revert res. induction imageRepo as [|im rest IH]; intros res; cbn.
  - intros [= <-]. by rewrite app_nil_r.
  - unfold describeOf at 1.
    destruct (ParseImageID (ImageString im)) as [id [err|]]; [done|].
    intros Hrest. rewrite (IH _ Hrest), <- app_assoc. done.
Qed.

Lemma mentionContainers_Ok cs images images' :
  mentionContainers cs images = (images', None) →
  dom images' = dom images ∪ list_to_set (repositoryOf <$> cs) ∧ Forall wellFormed cs.
Proof.
  revert images. induction cs as [|c rest IH]; intros images; cbn [mentionContainers fmap list_fmap list_to_set].
  - intros [= <-]. split; [by rewrite union_empty_r_L|constructor].
  - unfold repositoryOf at 1, wellFormed.
    destruct (ParseImageID (Platform.Image c)) as [id [err|]] eqn:Hp; [done|].
    intros Hrest. destruct (IH _ Hrest) as [Hdom Hwf]. split.
    + rewrite Hdom, dom_insert_L. cbn [fst].
      rewrite (comm_L (∪) {[ImageRepository id]} (dom images)).
      by rewrite <- (assoc_L (∪)).
    + constructor; [by rewrite Hp|done].
Qed.

Lemma mentionServices_Ok services images images' :
  mentionServices services images = (images', None) →
  dom images' =
    dom images ∪ list_to_set (repositoryOf <$> (services ≫= Platform.ContainersOrNil)) ∧
  Forall wellFormed (services ≫= Platform.ContainersOrNil).
Proof.
  revert images. induction services as [|service rest IH]; intros images.
  - cbn. intros [= <-]. split; [by rewrite union_empty_r_L|constructor].
  - cbn [mentionServices]. rewrite bind_cons.
    destruct (mentionContainers (Platform.ContainersOrNil service) images)
      as [images1 [err|]] eqn:Hc; [done|].
    intros Hrest. destruct (mentionContainers_Ok _ _ _ Hc) as [Hdom1 Hwf1].
    destruct (IH _ Hrest) as [Hdom Hwf]. split.
    + rewrite Hdom, Hdom1, fmap_app, list_to_set_app_L. by rewrite (assoc_L (∪)).
    + by apply Forall_app.
Qed.

Lemma fetchLoop_asked repos images asked :
  ∃ k, (fetchLoop repos images asked).1.2 = asked ++ take k repos.
Proof.
  revert images asked. induction repos as [|repo rest IH]; intros images asked; cbn.
  - exists 0. by rewrite app_nil_r.
  - destruct (ParseRepository repo) as [r [err|]]; cbn.
    { exists 0. by rewrite app_nil_r. }
    destruct (GetRepository r) as [imageRepo [err|]]; cbn.
    { by exists 1. }
    destruct (describeLoop imageRepo []) as [res [err|]]; cbn.
    { by exists 1. }
    destruct (IH (<[repo := res]> images) (asked ++ [repo])) as [k Hk].
    exists (S k). rewrite Hk, <- app_assoc. done.
Qed.

Lemma fetchLoop_Ok repos images asked images' asked' :
  fetchLoop repos images asked = (images', asked', None) →
  asked' = asked ++ repos ∧
  (∀ repo, repo ∈ repos → ∃ descs, images' !! repo = Some descs ∧ listing repo descs) ∧
  (∀ repo, repo ∉ repos → images' !! repo = images !! repo).
Proof.
  revert images asked. induction repos as [|repo rest IH]; intros images asked; cbn.
  - intros [= <- <-]. split; [by rewrite app_nil_r|]. split; [|done].
    intros repo Hin. by apply elem_of_nil in Hin.
  - destruct (ParseRepository repo) as [r [err|]] eqn:Hr; [done|].
    destruct (GetRepository r) as [imageRepo [err|]] eqn:Hg; [done|].
    destruct (describeLoop imageRepo []) as [res [err|]] eqn:Hd; [done|].
    intros Hrest. destruct (IH _ _ Hrest) as (Hasked & Hin & Hout).
    apply describeLoop_Ok in Hd. cbn [app] in Hd.
    split; [by rewrite Hasked, <- app_assoc|]. split.
    + intros repo' Hrepo. destruct (decide (repo' ∈ rest)) as [Hr'|Hr']; [by apply Hin|].
      apply elem_of_cons in Hrepo as [->|?]; [|done].
      exists res. split; [by rewrite (Hout _ Hr'), lookup_insert_eq|].
      by exists r, imageRepo.
    + intros repo' Hrepo. apply not_elem_of_cons in Hrepo as [Hne Hrepo].
      by rewrite (Hout _ Hrepo), lookup_insert_ne.
Qed.

Lemma ranged_keys (images : ImageMap) (repo : string) :
  repo ∈ (range _ images).*1 ↔ is_Some (images !! repo).
Proof.
  rewrite (range_ok _ images), list_elem_of_fmap. split.
  - intros [[k v] [-> Hkv]]. apply elem_of_map_to_list in Hkv. by eexists.
  - intros [v Hv]. exists (repo, v). split; [done|]. by apply elem_of_map_to_list.
Qed.

Lemma mentioned_keys services images repo :
  mentionServices services ∅ = (images, None) →
  repo ∈ (range _ images).*1 ↔
  repo ∈ repositoryOf <$> (services ≫= Platform.ContainersOrNil).
Proof.
  intros Hm. destruct (mentionServices_Ok _ _ _ Hm) as [Hdom _].
  rewrite dom_empty_L, (left_id_L ∅ (∪)) in Hdom.
  rewrite ranged_keys, <- elem_of_dom, Hdom. apply elem_of_list_to_set.
Qed.

Lemma collectAvailableImages_Ok services images asked :
  collectAvailableImages services = (images, asked, None) →
  Forall wellFormed (services ≫= Platform.ContainersOrNil) ∧
  (∀ repo, repo ∈ asked ↔ repo ∈ repositoryOf <$> (services ≫= Platform.ContainersOrNil)) ∧
  (∀ repo, is_Some (images !! repo) ↔ repo ∈ asked) ∧
  (∀ repo descs, images !! repo = Some descs → listing repo descs).
Proof.
  unfold collectAvailableImages.
  destruct (mentionServices services ∅) as [images0 [err|]] eqn:Hm; [done|].
  intros Hf. destruct (mentionServices_Ok _ _ _ Hm) as [_ Hwf].
  destruct (fetchLoop_Ok _ _ _ _ _ Hf) as (-> & Hin & Hout). cbn [app].
  split; [done|]. split; [intros repo; by apply mentioned_keys|]. split.
  - intros repo. split.
    + intros [descs Hd]. destruct (decide (repo ∈ (range _ images0).*1)); [done|].
      rewrite Hout in Hd by done. apply ranged_keys. by eexists.
    + intros Hrepo. destruct (Hin _ Hrepo) as (descs & Hd & _). by eexists.
  - intros repo descs Hd.
    destruct (decide (repo ∈ (range _ images0).*1)) as [Hrepo|Hrepo].
    + destruct (Hin _ Hrepo) as (descs' & Hd' & Hl). rewrite Hd in Hd'.
      by injection Hd' as <-.
    + rewrite Hout in Hd by done. destruct Hrepo. apply ranged_keys. by eexists.
Qed.

(** The comment of [collectAvailableImages] holds: the registry is asked
    for a repository at most once, however many containers run images of
    it, and only for repositories of containers of the given services.
    When the call succeeds, every container's image parsed, the registry
    was asked for exactly the repositories of the containers, and the map
    holds, for exactly these, what the registry lists. *)
Theorem collectAvailableImages_asks_each_repository_once
    (services : list Platform.Service) :
  let out := collectAvailableImages services in
  let containers := services ≫= Platform.ContainersOrNil in
  NoDup out.1.2 ∧
  (∀ repo, repo ∈ out.1.2 → repo ∈ repositoryOf <$> containers) ∧
  (out.2 = None →
     Forall wellFormed containers ∧
     (∀ repo, repo ∈ out.1.2 ↔ repo ∈ repositoryOf <$> containers) ∧
     (∀ repo, is_Some (out.1.1 !! repo) ↔ repo ∈ out.1.2) ∧
     (∀ repo descs, out.1.1 !! repo = Some descs → listing repo descs)).
Proof.
  cbn zeta. split; [|split].
  - unfold collectAvailableImages.
    destruct (mentionServices services ∅) as [images [err|]] eqn:Hm; [constructor|].
    destruct (fetchLoop_asked (range _ images).*1 images []) as [k ->]. cbn [app].
    eapply sublist_NoDup; [|apply sublist_take].
    rewrite (range_ok _ images). apply NoDup_fst_map_to_list.
  - unfold collectAvailableImages.
    destruct (mentionServices services ∅) as [images [err|]] eqn:Hm.
    { intros repo Hin. by apply elem_of_nil in Hin. }
    intros repo. destruct (fetchLoop_asked (range _ images).*1 images []) as [k ->].
    cbn [app]. intros Hin. apply (mentioned_keys _ _ _ Hm).
    eapply elem_of_sublist; [exact Hin|]. apply sublist_take.
  - destruct (collectAvailableImages services) as [[images asked] err] eqn:Hc.
    cbn [fst snd]. intros ->. by apply collectAvailableImages_Ok.
Qed.

(** ** The latest image *)

(** The tag of an image. *)
Definition tagOf (image : DatedImage) : string := (ImageComponents (DatedID image)).2.

(** [latestImage] returns the first image listed for the repository whose
    tag is not "latest" in any letter case: every image listed before it
    is tagged latest.  It returns nil exactly when every image listed is
    tagged latest, which includes a repository that is not in the map. *)
Theorem latestImage_first_not_tagged_latest (m : ImageMap) (repo : string) :
  let images := default [] (m !! repo) in
  match latestImage m repo with
  | Some image =>
      ∃ pre post, images = pre ++ image :: post ∧
        Forall (λ i, EqualFold (tagOf i) "latest" = true) pre ∧
        EqualFold (tagOf image) "latest" = false
  | None => Forall (λ i, EqualFold (tagOf i) "latest" = true) images
  end.
Proof.
  cbn zeta. unfold latestImage.
  induction (default [] (m !! repo)) as [|image rest IH]; cbn [latestAmong]; [constructor|].
  fold (tagOf image). destruct (EqualFold (tagOf image) "latest") eqn:Htag.
  - destruct (latestAmong rest) as [found|].
    + destruct IH as (pre & post & -> & Hpre & Hfound).
      exists (image :: pre), post. split; [done|]. split; [by constructor|done].
    + by constructor.
  - exists [], rest. split; [done|]. split; [constructor|done].
Qed.

(** ** The image listing *)

(** The services the cluster hands to [ListImages]. *)
Definition answer (spec : ServiceSpec) : list Platform.Service :=
  if decide (spec = ServiceSpecAll) then (AllServices "" ∅).1
  else (SomeServices [(AsID spec).1]).1.

(** The element [containersWithAvailable] appends for one container. *)
Definition containerOf (images : ImageMap) (c : Platform.Container) : ImageContainer :=
  {| ICName := Platform.Name c;
     ICCurrent := {| DatedID := (ParseImageID (Platform.Image c)).1; CreatedAt := zeroTime |};
     ICAvailable := default [] (images !! repositoryOf c) |}.

Lemma containersWithAvailable_fmap service images :
  containersWithAvailable service images =
    containerOf images <$> Platform.ContainersOrNil service.
Proof.
  unfold containersWithAvailable.
  assert (Hloop : ∀ cs acc,
    foldl (λ res c,
             let '(id, _) := ParseImageID (Platform.Image c) in
             let repo := ImageRepository id in
             let available := default [] (images !! repo) in
             res ++ [ {| ICName := Platform.Name c;
                         ICCurrent := {| DatedID := id; CreatedAt := zeroTime |};
                         ICAvailable := available |} ])
          acc cs = acc ++ (containerOf images <$> cs)).
  { induction cs as [|c rest IH]; intros acc; cbn [foldl].
    - by rewrite app_nil_r.
    - rewrite IH, fmap_cons. unfold containerOf at 2, repositoryOf.
      destruct (ParseImageID (Platform.Image c)) as [id err]. cbn [fst].
      by rewrite <- app_assoc. }
  by rewrite Hloop.
Qed.

(** What [ListImages] does with the services of the cluster. *)
Definition listFor (services : list Platform.Service) : list ImageStatus * option error :=
  match collectAvailableImages services with
  | (_, _, Some err) => ([], Wrap (Some err) "getting images for services")
  | (images, _, None) =>
      ((λ service, {| ISID := Platform.ID service;
                      ISContainers := containerOf images <$> Platform.ContainersOrNil service |})
         <$> services, None)
  end.

Lemma ListImages_answer spec :
  ListImages spec =
    if decide (spec = ServiceSpecAll) then listFor (answer spec)
    else match (AsID spec).2 with
         | Some err => ([], Wrap (Some err) "treating service spec as ID")
         | None => listFor (answer spec)
         end.
Proof.
  assert (Hlist : ∀ services,
    match collectAvailableImages services with
    | (_, _, Some err) => ([], Wrap (Some err) "getting images for services")
    | (images, _, None) =>
        (foldl (λ res service,
                  res ++ [ {| ISID := Platform.ID service;
                              ISContainers := containersWithAvailable service images |} ])
               [] services, None)
    end = listFor services).
  { intros services. unfold listFor.
    destruct (collectAvailableImages services) as [[images asked] [err|]]; [done|].
    rewrite Platform.foldl_snoc_fmap. cbn [app]. f_equal.
    apply list_fmap_ext. intros i service _. by rewrite containersWithAvailable_fmap. }
  unfold ListImages, answer, Platform.getAllServices, Platform.getAllServicesExcept,
    getServices.
  destruct (decide (spec = ServiceSpecAll)) as [Hall|Hone].
  - destruct (AllServices "" ∅) as [services err]. apply Hlist.
  - destruct (AsID spec) as [id [err|]]; cbn [fst snd]; [done|].
    destruct (SomeServices [id]) as [services err]. apply Hlist.
Qed.

(** When [ListImages] returns a nil error, it returns one status for each
    service the cluster handed over, in that order and under its
    ServiceID, with one container for each container of the service, in
    that order and under its name.  The image of each container parsed,
    the current image is that image with a zero creation time, and the
    available images are what the registry lists for the repository of
    the current image. *)
Theorem ListImages_lists_registry_images
    (spec : ServiceSpec) (statuses : list ImageStatus) :
  ListImages spec = (statuses, None) →
  Forall2 (λ status service,
             ISID status = Platform.ID service ∧
             Forall2 (λ ic c,
                        ICName ic = Platform.Name c ∧ wellFormed c ∧
                        ICCurrent ic =
                          {| DatedID := (ParseImageID (Platform.Image c)).1;
                             CreatedAt := zeroTime |} ∧
                        listing (repositoryOf c) (ICAvailable ic))
                     (ISContainers status) (Platform.ContainersOrNil service))
          statuses (answer spec).
Proof.
  intros Hrun. assert (Hlist : listFor (answer spec) = (statuses, None)).
  { rewrite ListImages_answer in Hrun.
    destruct (decide (spec = ServiceSpecAll)); [done|]. by destruct (AsID spec).2. }
  clear Hrun. revert Hlist. unfold listFor.
  destruct (collectAvailableImages (answer spec)) as [[images asked] [err|]] eqn:Hc; [done|].
  intros [= <-].
  destruct (collectAvailableImages_Ok _ _ _ Hc) as (Hwf & Hasked & Hkeys & Hlisting).
  apply Forall2_fmap_l, Forall_Forall2_diag, Forall_forall. intros service Hservice.
  cbn [ISID ISContainers]. split; [done|].
  apply Forall2_fmap_l, Forall_Forall2_diag, Forall_forall. intros c Hc'.
  assert (Hin : c ∈ answer spec ≫= Platform.ContainersOrNil).
  { apply list_elem_of_bind. by exists service. }
  split; [done|].
  split; [by apply (proj1 (Forall_forall _ _) Hwf)|]. split; [done|].
  destruct (proj2 (Hkeys (repositoryOf c))) as [descs Hd].
  { apply Hasked, list_elem_of_fmap. by exists c. }
  unfold containerOf. cbn [ICAvailable]. rewrite Hd. cbn [default]. by eapply Hlisting.
Qed.

End ImageListing.

(** [ListImages] never reads the error of the cluster.  Two clusters that
    hand over the same services, whatever errors they report with them,
    get the same answer: a failed query is answered like a successful
    one, with the images of the services that were handed over. *)
Theorem ListImages_ignores_cluster_error
    (Time : Type) (zeroTime : Time) (ServiceSpec : Type) `{EqDecision ServiceSpec}
    (ServiceSpecAll : ServiceSpec) (AsID : ServiceSpec → ServiceID * option error)
    (ParseImageID : string → ImageID * option error) (ImageRepository : ImageID → string)
    (RegistryRepository RegistryImage : Type)
    (ImageString : RegistryImage → string) (ImageCreatedAt : RegistryImage → Time)
    (ParseRepository : string → RegistryRepository * option error)
    (GetRepository : RegistryRepository → list RegistryImage * option error)
    (range : rangeOracle)
    (AllServices AllServices' : string → ServiceIDSet → list Platform.Service * option error)
    (SomeServices SomeServices' : list ServiceID → list Platform.Service * option error)
    (spec : ServiceSpec) :
  (∀ namespace ignored, (AllServices namespace ignored).1 = (AllServices' namespace ignored).1) →
  (∀ ids, (SomeServices ids).1 = (SomeServices' ids).1) →
  ListImages Time zeroTime ServiceSpec ServiceSpecAll AsID ParseImageID ImageRepository
    RegistryRepository RegistryImage ImageString ImageCreatedAt ParseRepository GetRepository
    AllServices SomeServices range spec =
  ListImages Time zeroTime ServiceSpec ServiceSpecAll AsID ParseImageID ImageRepository
    RegistryRepository RegistryImage ImageString ImageCreatedAt ParseRepository GetRepository
    AllServices' SomeServices' range spec.
Proof.
  intros Hall Hsome.
  unfold ListImages, Platform.getAllServices, Platform.getAllServicesExcept, getServices.
  destruct (decide (spec = ServiceSpecAll)).
  - specialize (Hall "" ∅).
    destruct (AllServices "" ∅) as [services err], (AllServices' "" ∅) as [services' err'].
    cbn [fst] in Hall. by subst services'.
  - destruct (AsID spec) as [id [err|]]; [done|].
    specialize (Hsome [id]).
    destruct (SomeServices [id]) as [services err], (SomeServices' [id]) as [services' err'].
    cbn [fst] in Hsome. by subst services'.
Qed.

(** ** A cluster and a registry for the examples *)

(** Image names of the form repository:tag. *)
Fixpoint splitColon (s : string) : option (string * string) :=
  match s with
  | EmptyString => None
  | String c rest =>
      if Ascii.eqb c (Ascii.ascii_of_nat 58) then Some ("", rest)
      else match splitColon rest with
           | Some (repo, tag) => Some (String c repo, tag)
           | None => None
           end
  end.

Definition exampleParseImageID (s : string) : ImageID * option error :=
  match splitColon s with
  | Some (repo, tag) => (mkImageID "" repo tag, None)
  | None => (mkImageID "" "" "", Some (New ("invalid image ID: " +:+ s)))
  end.

Definition exampleImageComponents (id : ImageID) : string * string * string :=
  (Registry id, Repository id, Tag id).

(** Letters of the ASCII range compared without their case. *)
Definition lowerAscii (c : Ascii.ascii) : Ascii.ascii :=
  let n := Ascii.nat_of_ascii c in
  if (65 <=? n)%nat && (n <=? 90)%nat then Ascii.ascii_of_nat (n + 32) else c.

Fixpoint lower (s : string) : string :=
  match s with
  | EmptyString => EmptyString
  | String c rest => String (lowerAscii c) (lower rest)
  end.

Definition exampleEqualFold (s t : string) : bool := String.eqb (lower s) (lower t).

(** The registry: images with the second they were created at, newest
    first. *)
Definition exampleRegistry (repo : string) : list (string * nat) * option error :=
  if String.eqb repo "r/web" then
    ([("r/web:Latest", 30); ("r/web:2", 20); ("r/web:1", 10)], None)
  else ([], Some (New ("repository not found: " +:+ repo))).

(** A service whose two containers run images of one repository. *)
Definition webService : Platform.Service :=
  {| Platform.ID := "default/web"; Platform.IP := "10.0.0.20"; Platform.Metadata := ∅;
     Platform.SStatus := "ready";
     Platform.SContainers :=
       {| Platform.Excuse := "";
          Platform.Containers := [ {| Platform.Name := "web"; Platform.Image := "r/web:1" |};
                                   {| Platform.Name := "canary"; Platform.Image := "r/web:2" |} ] |} |}.

Definition healthyCluster : string → ServiceIDSet → list Platform.Service * option error :=
  λ _ _, ([webService], None).

(** A cluster whose enumeration reports a failure after the first
    namespace. *)
Definition failingCluster : string → ServiceIDSet → list Platform.Service * option error :=
  λ _ _, ([webService], Some (New "getting services for namespace kube-system")).

Definition exampleListImages
    (AllServices : string → ServiceIDSet → list Platform.Service * option error)
    (spec : string) : list (ImageStatus nat) * option error :=
  ListImages nat 0 string "<all>" (λ spec, (spec, None)) exampleParseImageID Repository
    string (string * nat) fst snd (λ repo, (repo, None)) exampleRegistry
    AllServices (λ _, ([], None)) rangeSorted spec.

Lemma ListImages_ignores_cluster_error_witness :
  exampleListImages failingCluster "<all>" = exampleListImages healthyCluster "<all>".
Proof.
  apply ListImages_ignores_cluster_error; reflexivity.
Defined.

(** The answer to both: the two containers with the three images of
    their repository, and a nil error. *)
Example ListImages_of_failing_cluster :
  exampleListImages failingCluster "<all>" =
  (let available := [ mkDatedImage nat (mkImageID "" "r/web" "Latest") 30;
                      mkDatedImage nat (mkImageID "" "r/web" "2") 20;
                      mkDatedImage nat (mkImageID "" "r/web" "1") 10 ] in
   [ {| ISID := "default/web";
        ISContainers :=
          [ {| ICName := "web";
               ICCurrent := mkDatedImage nat (mkImageID "" "r/web" "1") 0;
               ICAvailable := available |};
            {| ICName := "canary";
               ICCurrent := mkDatedImage nat (mkImageID "" "r/web" "2") 0;
               ICAvailable := available |} ] |} ], None).
Proof. vm_compute. reflexivity. Qed.

Lemma rangeSorted_enumerates : rangeOracle_ok rangeSorted.
Proof. intros V m. reflexivity. Qed.

(** The registry is asked for r/web once, for the two containers. *)
Lemma collectAvailableImages_asks_each_repository_once_witness :
  let out := collectAvailableImages nat exampleParseImageID Repository string (string * nat)
               fst snd (λ repo, (repo, None)) exampleRegistry rangeSorted [webService] in
  NoDup out.1.2 ∧ out.1.2 = ["r/web"].
Proof.
  cbn zeta. split; [|vm_compute; reflexivity].
  exact (proj1 (collectAvailableImages_asks_each_repository_once nat exampleParseImageID
                  Repository string (string * nat) fst snd (λ repo, (repo, None))
                  exampleRegistry rangeSorted rangeSorted_enumerates [webService])).
Defined.

Lemma ListImages_lists_registry_images_witness :
  length (exampleListImages healthyCluster "<all>").1 = 1%nat.
Proof.
  assert (Hrun : exampleListImages healthyCluster "<all>" =
                 ((exampleListImages healthyCluster "<all>").1, None))
    by (vm_compute; reflexivity).
  exact (Forall2_length _ _ _
           (ListImages_lists_registry_images nat 0 string "<all>" (λ spec, (spec, None))
              exampleParseImageID Repository string (string * nat) fst snd
              (λ repo, (repo, None)) exampleRegistry healthyCluster (λ _, ([], None))
              rangeSorted rangeSorted_enumerates "<all>" _ Hrun)).
Defined.

(** The image tagged Latest is passed over: r/web:2 is the latest. *)
Example latestImage_skips_latest :
  latestImage nat exampleImageComponents exampleEqualFold
    (<["r/web" := [ mkDatedImage nat (mkImageID "" "r/web" "Latest") 30;
                    mkDatedImage nat (mkImageID "" "r/web" "2") 20;
                    mkDatedImage nat (mkImageID "" "r/web" "1") 10 ]]> ∅) "r/web" =
  Some (mkDatedImage nat (mkImageID "" "r/web" "2") 20).
Proof. vm_compute. reflexivity. Qed.

End PlatformImages.

(* --------------------------------------------------------------------- *)
(* package daemon: the queries of the standalone daemon                  *)
(* --------------------------------------------------------------------- *)

Module DaemonQueries.

Section Queries.

(** [time.Time] and its zero value; [flux.ServiceSpec], [flux.ServiceSpecAll]
    and [ServiceSpec.AsID]; [flux.ParseImageID] and [ImageID.Repository]:
    all declared outside the sources. *)
Variable Time : Type.
Variable zeroTime : Time.
Variable ServiceSpec : Type.
Context `{EqDecision ServiceSpec}.
Variable ServiceSpecAll : ServiceSpec.
Variable AsID : ServiceSpec → ServiceID * option error.
Variable ParseImageID : string → ImageID * option error.
Variable ImageRepository : ImageID → string.

(** [d.Cluster.AllServices(namespace)] and [d.Cluster.SomeServices(ids)]. *)
Variable ClusterAllServices : string → list Platform.Service * option error.
Variable ClusterSomeServices : list ServiceID → list Platform.Service * option error.

(** [release.CollectAvailableImages(d.Registry, services)], declared
    outside the sources. *)
Variable CollectAvailableImages :
  list Platform.Service → gmap string (list (PlatformImages.DatedImage Time)) * option error.

(** [func (d *Daemon) ListServices(namespace string) ([]flux.ServiceStatus, error)]. *)
Definition ListServices (namespace : string) : list Platform.ServiceStatus * option error :=
  match ClusterAllServices namespace with
  | (_, Some err) => ([], Wrap (Some err) "getting services from cluster")
  | (services, None) =>
      (foldl (λ res service,
                res ++ [ {| Platform.StID := Platform.ID service;
                            Platform.StContainers :=
                              Platform.containers2containers ParseImageID
                                (Platform.ContainersOrNil service);
                            Platform.StStatus := Platform.SStatus service |} ])
             [] services, None)
  end.

(** [func containersWithAvailable(service platform.Service, images release.ImageMap)]. *)
Definition containersWithAvailable (service : Platform.Service)
    (images : gmap string (list (PlatformImages.DatedImage Time)))
    : list (PlatformImages.ImageContainer Time) :=
  foldl (λ res c,
           let '(id, _) := ParseImageID (Platform.Image c) in
           let repo := ImageRepository id in
           let available := default [] (images !! repo) in
           res ++ [ {| PlatformImages.ICName := Platform.Name c;
                       PlatformImages.ICCurrent :=
                         {| PlatformImages.DatedID := id;
                            PlatformImages.CreatedAt := zeroTime |};
                       PlatformImages.ICAvailable := available |} ])
        [] (Platform.ContainersOrNil service).

(** [func (d *Daemon) ListImages(spec flux.ServiceSpec) ([]flux.ImageStatus, error)]:
    as in the platform daemon, the error of the cluster is assigned and
    never read. *)
Definition ListImages (spec : ServiceSpec)
    : list (PlatformImages.ImageStatus Time) * option error :=
  let listFor (services : list Platform.Service) :=
    match CollectAvailableImages services with
    | (_, Some err) => ([], Wrap (Some err) "getting images for services")
    | (images, None) =>
        (foldl (λ res service,
                  res ++ [ {| PlatformImages.ISID := Platform.ID service;
                              PlatformImages.ISContainers :=
                                containersWithAvailable service images |} ])
               [] services, None)
    end in
  if decide (spec = ServiceSpecAll) then
    let '(services, _) := ClusterAllServices "" in
    listFor services
  else
    match AsID spec with
    | (_, Some err) => ([], Wrap (Some err) "treating service spec as ID")
    | (id, None) =>
        let '(services, _) := ClusterSomeServices [id] in
        listFor services
    end.

(** The standalone daemon reports a failed enumeration, where the
    platform daemon over the same cluster returns a nil error: on a
    failure it returns no status and the cluster's error wrapped as
    "getting services from cluster: ...".  When the enumeration succeeds
    the two daemons return the same statuses. *)
Theorem ListServices_reports_enumeration_error (namespace : string) :
  let platformDaemon :=
    Platform.ListServices ParseImageID (λ ns _, ClusterAllServices ns) namespace in
  ((ClusterAllServices namespace).2 = None → ListServices namespace = platformDaemon) ∧
  (∀ err, (ClusterAllServices namespace).2 = Some err →
     ListServices namespace = ([], Some (withMessage err "getting services from cluster")) ∧
     platformDaemon.2 = None).
Proof.
  cbn zeta. unfold ListServices, Platform.ListServices, Platform.getAllServices,
    Platform.getAllServicesExcept.
  destruct (ClusterAllServices namespace) as [services [e|]]; cbn [snd].
  - split; [done|]. by intros err [= <-].
  - split; [done|]. by intros err [=].
Qed.

End Queries.

(** Like the platform daemon's, the standalone daemon's [ListImages]
    never reads the error of the cluster: two clusters that hand over the
    same services, whatever errors they report with them, get the same
    answer. *)
Theorem standalone_ListImages_ignores_cluster_error
    (Time : Type) (zeroTime : Time) (ServiceSpec : Type) `{EqDecision ServiceSpec}
    (ServiceSpecAll : ServiceSpec) (AsID : ServiceSpec → ServiceID * option error)
    (ParseImageID : string → ImageID * option error) (ImageRepository : ImageID → string)
    (CollectAvailableImages :
       list Platform.Service → gmap string (list (PlatformImages.DatedImage Time)) * option error)
    (AllServices AllServices' : string → list Platform.Service * option error)
    (SomeServices SomeServices' : list ServiceID → list Platform.Service * option error)
    (spec : ServiceSpec) :
  (∀ namespace, (AllServices namespace).1 = (AllServices' namespace).1) →
  (∀ ids, (SomeServices ids).1 = (SomeServices' ids).1) →
  ListImages Time zeroTime ServiceSpec ServiceSpecAll AsID ParseImageID ImageRepository
    AllServices SomeServices CollectAvailableImages spec =
  ListImages Time zeroTime ServiceSpec ServiceSpecAll AsID ParseImageID ImageRepository
    AllServices' SomeServices' CollectAvailableImages spec.
Proof.
  intros Hall Hsome. unfold ListImages.
  destruct (decide (spec = ServiceSpecAll)).
  - specialize (Hall "").
    destruct (AllServices "") as [services err], (AllServices' "") as [services' err'].
    cbn [fst] in Hall. by subst services'.
  - destruct (AsID spec) as [id [err|]]; [done|].
    specialize (Hsome [id]).
    destruct (SomeServices [id]) as [services err], (SomeServices' [id]) as [services' err'].
    cbn [fst] in Hsome. by subst services'.
Qed.

(** The cluster of the examples, as the standalone daemon sees it. *)
Definition failingAllServices : string → list Platform.Service * option error :=
  λ ns, PlatformImages.failingCluster ns ∅.

Definition healthyAllServices : string → list Platform.Service * option error :=
  λ ns, PlatformImages.healthyCluster ns ∅.

Example ListServices_of_failing_cluster :
  ListServices PlatformImages.exampleParseImageID failingAllServices "" =
  ([], Some (withMessage (errorString "getting services for namespace kube-system")
               "getting services from cluster")).
Proof. reflexivity. Qed.

Lemma standalone_ListImages_ignores_cluster_error_witness :
  let ask := λ cluster,
    ListImages nat 0 string "<all>" (λ spec, (spec, None))
      PlatformImages.exampleParseImageID Repository cluster (λ _, ([], None))
      (λ _, (∅, None)) "<all>" in
  ask failingAllServices = ask healthyAllServices.
Proof.
  cbn zeta. apply standalone_ListImages_ignores_cluster_error; reflexivity.
Defined.

End DaemonQueries.

(* --------------------------------------------------------------------- *)
(* package release: the release context                                  *)
(* --------------------------------------------------------------------- *)

Module Release.

Import Platform.

(** Modelled from the spec: the declaration of [ServiceUpdate] is not
    among the sources; the fields are the ones the code below sets. *)
Record ServiceUpdate : Type := mkServiceUpdate {
  USID : ServiceID;
  ManifestPath : string;
  ManifestBytes : string;
  UService : Service
}.

(** [flux.ServiceResult{Status: status, Error: msg}]. *)
Definition result (status : ReleaseStatus) (msg : string) : ServiceResult :=
  {| Status := status; Error_ := msg; PerContainer := [] |}.

(** What the first loop of [SelectServices] carries along. *)
Record selection : Type := mkSelection {
  updateMap : gmap string ServiceUpdate;
  ids : list ServiceID;
  results : ReleaseResult
}.

Section Context.

(** The order in which the runtime ranges over maps. *)
Variable range : rangeOracle.

(** [rc.Cluster.FindDefinedServices], [rc.Cluster.SomeServices]. *)
Variable ClusterFindDefinedServices : string → gmap string (list string) * option error.
Variable ClusterSomeServices : list ServiceID → list Service * option error.

(** [rc.RepoPath()]. *)
Variable RepoPath : string.

(** [ioutil.ReadFile]. *)
Variable ReadFile : string → string * option error.

(** The error of the [default] branch of [FindDefinedServices]. *)
Definition multipleFiles (id : ServiceID) (paths : list string) : error :=
  errorString ("multiple resource files found for service " +:+ id +:+ ": "
               +:+ Join paths ", ").

(** The loop of [FindDefinedServices] over the entries in range order. *)
Fixpoint findDefinedLoop (entries : list (string * list string))
    (defined : list ServiceUpdate) : outcome (list ServiceUpdate) :=
  match entries with
  | [] => Ok defined
  | (id, paths) :: rest =>
      match paths with
      | [p] =>
          match ReadFile p with
          | (_, Some err) => Err err
          | (def, None) =>
              findDefinedLoop rest
                (defined ++ [ {| USID := id; ManifestPath := p;
                                 ManifestBytes := def; UService := zeroService |} ])
          end
      | _ => Err (multipleFiles id paths)
      end
  end.

(** [func (rc *ReleaseContext) FindDefinedServices() ([]*ServiceUpdate, error)]. *)
Definition FindDefinedServices : outcome (list ServiceUpdate) :=
  match ClusterFindDefinedServices RepoPath with
  | (_, Some err) => Err err
  | (services, None) => findDefinedLoop (range _ services) []
  end.

(** [only == nil || only.Contains(id)]. *)
Definition admitted (only : option ServiceIDSet) (id : ServiceID) : bool :=
  match only with
  | None => true
  | Some o => bool_decide (id ∈ o)
  end.

(** The body of the first loop of [SelectServices]. *)
Definition selectStep (only : option ServiceIDSet) (locked excluded : ServiceIDSet)
    (st : selection) (s : ServiceUpdate) : selection :=
  if admitted only (USID s) then
    if bool_decide (USID s ∈ excluded) then
      {| updateMap := updateMap st; ids := ids st;
         results := <[USID s := result ReleaseStatusSkipped "excluded"]> (results st) |}
    else if bool_decide (USID s ∈ locked) then
      {| updateMap := updateMap st; ids := ids st;
         results := <[USID s := result ReleaseStatusSkipped "locked"]> (results st) |}
    else
      {| updateMap := <[USID s := s]> (updateMap st);
         ids := ids st ++ [USID s];
         results := <[USID s := result ReleaseStatusPending ""]> (results st) |}
  else st.

(** The second loop: attach the running service to its update.  A
    service the map does not hold yields a nil [*ServiceUpdate], and
    writing its field panics: [None]. *)
Fixpoint correlate (services : list Service) (um : gmap string ServiceUpdate)
    (updates : list ServiceUpdate)
    : option (gmap string ServiceUpdate * list ServiceUpdate) :=
  match services with
  | [] => Some (um, updates)
  | service :: rest =>
      match um !! ID service with
      | None => None
      | Some update =>
          let update := {| USID := USID update; ManifestPath := ManifestPath update;
                           ManifestBytes := ManifestBytes update; UService := service |} in
          correlate rest (delete (ID service) um) (updates ++ [update])
      end
  end.

(** The third loop: whatever is left in the map is not running. *)
Definition markMissing (included : option (list ServiceID))
    (left : list (string * ServiceUpdate)) (res : ReleaseResult) : ReleaseResult :=
  foldl (λ res entry,
           let status := match included with
                         | Some _ => ReleaseStatusSkipped
                         | None => ReleaseStatusIgnored
                         end in
           <[entry.1 := result status "not in running system"]> res)
        res left.

(** [func (rc *ReleaseContext) SelectServices(included, locked, excluded, results)].
    The caller's [results] map is written in place, so the model returns
    it next to the outcome. *)
Definition SelectServices (included : option (list ServiceID))
    (locked excluded : ServiceIDSet) (res : ReleaseResult)
    : ReleaseResult * outcome (list ServiceUpdate) :=
  match FindDefinedServices with
  | Err err => (res, Err err)
  | Panic => (res, Panic)
  | Ok defined =>
      let only : option ServiceIDSet := list_to_set <$> included in
      let st := foldl (selectStep only locked excluded)
                      {| updateMap := ∅; ids := []; results := res |} defined in
      match ClusterSomeServices (ids st) with
      | (_, Some err) => (results st, Err err)
      | (services, None) =>
          match correlate services (updateMap st) [] with
          | None => (results st, Panic)
          | Some (um, updates) =>
              (markMissing included (range _ um) (results st), Ok updates)
          end
      end
  end.


(** ** Facts about the loops *)

Hypothesis range_ok : rangeOracle_ok range.

Lemma range_lookup {V : Type} (m : gmap string V) (k : string) (v : V) :
  (k, v) ∈ range V m ↔ m !! k = Some v.
Proof. rewrite (range_ok V m). apply elem_of_map_to_list. Qed.

Lemma range_keys {V : Type} (m : gmap string V) (k : string) :
  k ∈ (range V m).*1 ↔ is_Some (m !! k).
Proof.
  rewrite list_elem_of_fmap. split.
  - intros [[k' v] [-> Hin]]. apply range_lookup in Hin. by exists v.
  - intros [v Hv]. exists (k, v). split; [done|]. by apply range_lookup.
Qed.

(** The update a singleton entry of the cluster's map turns into. *)
Definition definedOf (entry : string * list string) : ServiceUpdate :=
  let p := hd "" entry.2 in
  {| USID := entry.1; ManifestPath := p; ManifestBytes := (ReadFile p).1;
     UService := zeroService |}.

Lemma findDefinedLoop_single (entries : list (string * list string))
    (acc : list ServiceUpdate) :
  (∀ id paths, (id, paths) ∈ entries → ∃ p, paths = [p] ∧ (ReadFile p).2 = None) →
  findDefinedLoop entries acc = Ok (acc ++ (definedOf <$> entries)).
Proof.
  revert acc. induction entries as [|[id paths] rest IH]; intros acc Hall; cbn.
  - by rewrite app_nil_r.
  - destruct (Hall id paths) as (p & -> & Hread); [by left|].
    destruct (ReadFile p) as [def err] eqn:Hrf. cbn in Hread. subst err.
    rewrite IH.
    + rewrite <- app_assoc. cbn. unfold definedOf at 2; cbn. by rewrite Hrf.
    + intros id' paths' Hin. apply (Hall id' paths'). by right.
Qed.

Lemma findDefinedLoop_several (entries : list (string * list string))
    (acc : list ServiceUpdate) :
  (∀ id p, (id, [p]) ∈ entries → (ReadFile p).2 = None) →
  (∃ id paths, (id, paths) ∈ entries ∧ length paths ≠ 1) →
  ∃ id paths, (id, paths) ∈ entries ∧ length paths ≠ 1 ∧
    findDefinedLoop entries acc = Err (multipleFiles id paths).
Proof.
  revert acc. induction entries as [|[id paths] rest IH]; intros acc Hread Hex.
  - destruct Hex as (? & ? & Hin & _). by apply elem_of_nil in Hin.
  - destruct (decide (length paths = 1)) as [Hone|Hne].
    + destruct paths as [|p [|q paths]]; try discriminate Hone.
      cbn. pose proof (Hread id p (list_elem_of_here _ _)) as Hp.
      destruct (ReadFile p) as [def err]. cbn in Hp. subst err.
      destruct (IH (acc ++ [{| USID := id; ManifestPath := p; ManifestBytes := def;
                               UService := zeroService |}]))
        as (id' & paths' & Hin & Hlen & Heq).
      * intros i q Hin. apply (Hread i q). by right.
      * destruct Hex as (i & ps & Hin & Hlen).
        apply elem_of_cons in Hin as [Heq|Hin]; [|by eauto].
        inversion Heq; subst. done.
      * exists id', paths'. split; [by right|]. done.
    + exists id, paths. split; [by left|]. split; [done|].
      cbn. by destruct paths as [|p [|q paths]].
Qed.

(** C6: when the cluster adapter has located the manifests and every
    file that is the only manifest of its service can be read, then
    (1) if some ServiceID has more than one manifest file, the whole of
    FindDefinedServices fails, with the error "multiple resource files
    found for service <id>: <paths>" naming a service whose list of files
    is not a single one; and (2) if every ServiceID has exactly one file,
    it returns one ServiceUpdate per service, carrying the id, that file's
    path and that file's bytes. *)
Theorem FindDefinedServices_one_manifest_per_service
    (services : gmap string (list string)) :
  ClusterFindDefinedServices RepoPath = (services, None) →
  (∀ id p, services !! id = Some [p] → (ReadFile p).2 = None) →
  (∀ id paths, services !! id = Some paths → 1 < length paths →
     ∃ id' paths', services !! id' = Some paths' ∧ length paths' ≠ 1 ∧
       FindDefinedServices = Err (multipleFiles id' paths'))
  ∧
  ((∀ id paths, services !! id = Some paths → length paths = 1) →
     ∃ defined, FindDefinedServices = Ok defined ∧
       defined ≡ₚ definedOf <$> map_to_list services ∧
       length defined = size services ∧
       (∀ u, u ∈ defined ↔
          ∃ p, services !! USID u = Some [p] ∧
               u = {| USID := USID u; ManifestPath := p;
                      ManifestBytes := (ReadFile p).1; UService := zeroService |})).
Proof.
  intros Hcl Hread. unfold FindDefinedServices. rewrite Hcl. split.
  - intros id paths Hid Hlen.
    destruct (findDefinedLoop_several (range _ services) []) as (id' & paths' & Hin & Hne & Heq).
    + intros i p Hin. apply range_lookup in Hin. by eapply Hread.
    + exists id, paths. split; [by apply range_lookup|lia].
    + exists id', paths'. split; [by apply range_lookup|]. done.
  - intros Hone. exists (definedOf <$> range _ services).
    split; [|split; [|split]].
    + rewrite findDefinedLoop_single; [done|].
      intros id paths Hin. apply range_lookup in Hin.
      pose proof (Hone _ _ Hin) as Hlen.
      destruct paths as [|p [|q paths]]; try discriminate Hlen.
      exists p. split; [done|]. by eapply Hread.
    + by rewrite (range_ok _ services).
    + rewrite length_fmap, (range_ok _ services). apply length_map_to_list.
    + intros u. rewrite list_elem_of_fmap. split.
      * intros [[id paths] [-> Hin]]. apply range_lookup in Hin.
        pose proof (Hone _ _ Hin) as Hlen.
        destruct paths as [|p [|q paths]]; try discriminate Hlen.
        exists p. done.
      * intros [p [Hp Hu]]. exists (USID u, [p]). split; [|by apply range_lookup].
        rewrite Hu at 1. done.
Qed.


(** A defined service becomes a candidate (is marked pending) when the
    include list admits it and it is neither excluded nor locked. *)
Definition candidate (only : option ServiceIDSet) (locked excluded : ServiceIDSet)
    (s : ServiceUpdate) : bool :=
  admitted only (USID s) && negb (bool_decide (USID s ∈ excluded))
    && negb (bool_decide (USID s ∈ locked)).

Lemma selectStep_ids only locked excluded st s :
  ids (selectStep only locked excluded st s) =
    ids st ++ (if candidate only locked excluded s then [USID s] else []).
Proof.
  unfold selectStep, candidate.
  destruct (admitted only (USID s)); cbn; [|by rewrite app_nil_r].
  repeat case_bool_decide; cbn; by rewrite ?app_nil_r.
Qed.

Lemma selectStep_results_dom only locked excluded st s :
  dom (results (selectStep only locked excluded st s)) =
    dom (results st) ∪ (if admitted only (USID s) then {[USID s]} else ∅).
Proof.
  unfold selectStep.
  destruct (admitted only (USID s)); cbn; [|by rewrite union_empty_r_L].
  repeat case_bool_decide; cbn; rewrite dom_insert_L; by rewrite (comm_L (∪)).
Qed.

Lemma selectLoop_ids only locked excluded defined st :
  ids (foldl (selectStep only locked excluded) st defined) =
    ids st ++ (USID <$> filter (λ s, candidate only locked excluded s = true) defined).
Proof.
  revert st. induction defined as [|s l IH]; intros st; cbn [foldl].
  - by rewrite app_nil_r.
  - rewrite IH, selectStep_ids, filter_cons.
    destruct (candidate only locked excluded s) eqn:Hc.
    + rewrite decide_True by done. cbn. by rewrite <- app_assoc.
    + rewrite decide_False by done. by rewrite app_nil_r.
Qed.

Lemma selectLoop_results_dom only locked excluded defined st :
  dom (results (foldl (selectStep only locked excluded) st defined)) =
    dom (results st) ∪
    list_to_set (USID <$> filter (λ s, admitted only (USID s) = true) defined).
Proof.
  revert st. induction defined as [|s l IH]; intros st; cbn [foldl].
  - cbn. by rewrite union_empty_r_L.
  - rewrite IH, selectStep_results_dom, filter_cons.
    destruct (admitted only (USID s)) eqn:Ha.
    + rewrite decide_True by done. cbn. by rewrite (assoc_L (∪)).
    + rewrite decide_False by done. by rewrite union_empty_r_L.
Qed.

(** The map of updates holds exactly the candidates, each under its own
    ServiceID. *)
Definition updateMap_wf (st : selection) : Prop :=
  (∀ k, is_Some (updateMap st !! k) ↔ k ∈ ids st) ∧
  (∀ k u, updateMap st !! k = Some u → USID u = k).

Lemma selectStep_wf only locked excluded st s :
  updateMap_wf st → updateMap_wf (selectStep only locked excluded st s).
Proof.
  intros [Hdom Hkey]. unfold selectStep.
  destruct (admitted only (USID s)); [|done].
  repeat case_bool_decide; [done|done|].
  split; cbn.
  - intros k. rewrite elem_of_app, list_elem_of_singleton, <- Hdom.
    destruct (decide (USID s = k)) as [->|Hne].
    + rewrite lookup_insert_eq. split; [by right|by eauto].
    + rewrite lookup_insert_ne by done. split; [by left|]. by intros [?|?].
  - intros k u. destruct (decide (USID s = k)) as [<-|Hne].
    + rewrite lookup_insert_eq. by intros [= <-].
    + rewrite lookup_insert_ne by done. apply Hkey.
Qed.

Lemma selectLoop_wf only locked excluded defined st :
  updateMap_wf st → updateMap_wf (foldl (selectStep only locked excluded) st defined).
Proof.
  revert st. induction defined as [|s l IH]; intros st Hwf; cbn; [done|].
  apply IH. by apply selectStep_wf.
Qed.

Lemma correlate_lookup services um updates um' updates' :
  correlate services um updates = Some (um', updates') →
  ∀ k, um' !! k = if bool_decide (k ∈ ID <$> services) then None else um !! k.
Proof.
  revert um updates. induction services as [|service rest IH]; intros um updates; cbn.
  - intros [= <- <-] k. by rewrite bool_decide_eq_false_2 by apply not_elem_of_nil.
  - destruct (um !! ID service) as [update|] eqn:Hup; [|done].
    intros Hc k. rewrite (IH _ _ Hc k).
    destruct (decide (k = ID service)) as [->|Hne].
    + rewrite (bool_decide_eq_true_2 (_ ∈ _ :: _)) by left.
      case_bool_decide; [done|]. apply lookup_delete_eq.
    + rewrite lookup_delete_ne by done.
      case_bool_decide as Hin.
      * rewrite bool_decide_eq_true_2; [done|]. by right.
      * rewrite bool_decide_eq_false_2; [done|].
        intros [?|?]%elem_of_cons; done.
Qed.

Lemma correlate_updates services um updates um' updates' :
  correlate services um updates = Some (um', updates') →
  ∀ u, u ∈ updates' → u ∈ updates ∨ ∃ k u0, um !! k = Some u0 ∧ USID u = USID u0.
Proof.
  revert um updates. induction services as [|service rest IH]; intros um updates; cbn.
  - intros [= <- <-] u Hu. by left.
  - destruct (um !! ID service) as [update|] eqn:Hup; [|done].
    intros Hc u Hu. destruct (IH _ _ Hc u Hu) as [Hin|(k & u0 & Hk & Heq)].
    + apply elem_of_app in Hin as [Hin|Hin]; [by left|].
      apply list_elem_of_singleton in Hin. subst u. right.
      exists (ID service), update. done.
    + right. exists k, u0. split; [|done].
      apply lookup_delete_Some in Hk. by destruct Hk.
Qed.

Lemma markMissing_lookup included left res k :
  markMissing included left res !! k =
    if bool_decide (k ∈ left.*1)
    then Some (result (match included with
                       | Some _ => ReleaseStatusSkipped
                       | None => ReleaseStatusIgnored
                       end) "not in running system")
    else res !! k.
Proof.
  unfold markMissing. revert res.
  induction left as [|[k' u] l IH]; intros res; cbn.
  - by rewrite bool_decide_eq_false_2 by apply not_elem_of_nil.
  - rewrite IH. destruct (decide (k = k')) as [->|Hne].
    + rewrite (bool_decide_eq_true_2 (_ ∈ _ :: _)) by left.
      case_bool_decide; [done|]. by rewrite lookup_insert_eq.
    + rewrite lookup_insert_ne by done.
      case_bool_decide as Hin.
      * rewrite bool_decide_eq_true_2; [done|]. by right.
      * rewrite bool_decide_eq_false_2; [done|].
        intros [?|?]%elem_of_cons; done.
Qed.

Lemma markMissing_dom included left res :
  dom (markMissing included left res) = dom res ∪ list_to_set left.*1.
Proof.
  apply set_eq. intros k. rewrite elem_of_union, !elem_of_dom, elem_of_list_to_set.
  rewrite markMissing_lookup. case_bool_decide as Hk.
  - split; [by right|by eauto].
  - split; [by left|]. by intros [?|?].
Qed.


Lemma selectLoop_pending only locked excluded defined st s :
  candidate only locked excluded s = true →
  s ∈ defined ∨ results st !! USID s = Some (result ReleaseStatusPending "") →
  results (foldl (selectStep only locked excluded) st defined) !! USID s =
    Some (result ReleaseStatusPending "").
Proof.
  intros Hc. revert st. induction defined as [|s' l IH]; intros st Hin; cbn [foldl].
  - destruct Hin as [Hin|Hin]; [by apply elem_of_nil in Hin|done].
  - apply IH. destruct (decide (USID s' = USID s)) as [Heq|Hne].
    + right. unfold candidate in Hc. unfold selectStep. rewrite Heq.
      apply andb_prop in Hc as [Hc Hl]. apply andb_prop in Hc as [Ha He].
      rewrite Ha. apply negb_true_iff in He, Hl. rewrite He, Hl. cbn.
      by rewrite lookup_insert_eq.
    + destruct Hin as [Hin|Hin].
      * apply elem_of_cons in Hin as [->|Hin]; [done|by left].
      * right. unfold selectStep.
        destruct (admitted only (USID s')); [|done].
        repeat case_bool_decide; cbn; by rewrite lookup_insert_ne.
Qed.

Lemma selection_start_wf (res : ReleaseResult) :
  updateMap_wf {| updateMap := ∅; ids := []; results := res |}.
Proof.
  split; cbn.
  - intros k. rewrite lookup_empty. split; [by intros [? ?]|by intros ?%elem_of_nil].
  - intros k u. by rewrite lookup_empty.
Qed.

(** C4: when SelectServices returns its updates, every defined service
    that the first loop made a candidate (admitted by the include list,
    neither excluded nor locked, hence marked pending) and that is not
    among the services the cluster query returned ends with the result
    {skipped, "not in running system"} if an include list was given
    (included != nil) and {ignored, "not in running system"} otherwise. *)
Theorem SelectServices_not_in_running_system
    (included : option (list ServiceID)) (locked excluded : ServiceIDSet)
    (res res' : ReleaseResult) (defined updates : list ServiceUpdate)
    (services : list Service) (s : ServiceUpdate) :
  let only : option ServiceIDSet := list_to_set <$> included in
  let st := foldl (selectStep only locked excluded)
                  {| updateMap := ∅; ids := []; results := res |} defined in
  FindDefinedServices = Ok defined →
  ClusterSomeServices (ids st) = (services, None) →
  SelectServices included locked excluded res = (res', Ok updates) →
  s ∈ defined →
  candidate only locked excluded s = true →
  USID s ∉ ID <$> services →
  results st !! USID s = Some (result ReleaseStatusPending "") ∧
  res' !! USID s =
    Some (result (match included with
                  | Some _ => ReleaseStatusSkipped
                  | None => ReleaseStatusIgnored
                  end) "not in running system").
Proof.
  intros only st Hdef Hsome Hsel Hin Hcand Hnot.
  split; [apply selectLoop_pending; [done|by left]|].
  unfold SelectServices in Hsel. rewrite Hdef in Hsel.
  fold only in Hsel. fold st in Hsel. rewrite Hsome in Hsel.
  destruct (correlate services (updateMap st) []) as [[um ups]|] eqn:Hcor; [|done].
  injection Hsel as <- <-.
  rewrite markMissing_lookup, bool_decide_eq_true_2; [done|].
  apply range_keys. rewrite (correlate_lookup _ _ _ _ _ Hcor).
  rewrite bool_decide_eq_false_2 by done.
  destruct (selectLoop_wf only locked excluded defined _ (selection_start_wf res)) as [Hdom _].
  apply Hdom. fold st. unfold st. rewrite selectLoop_ids. cbn.
  apply list_elem_of_fmap. exists s. split; [done|].
  apply list_elem_of_filter. done.
Qed.

(** C5 (amended): the keys SelectServices adds to the ReleaseResult are
    the ServiceIDs of the defined services admitted by the include list
    (all of them when no list is given), the excluded and locked ones
    among them included; what is disjoint from excluded ∪ locked is the
    list of updates it returns. *)
Theorem SelectServices_result_keys
    (included : option (list ServiceID)) (locked excluded : ServiceIDSet)
    (res : ReleaseResult) :
  let only : option ServiceIDSet := list_to_set <$> included in
  let out := SelectServices included locked excluded res in
  dom out.1 =
    dom res ∪
    match FindDefinedServices with
    | Ok defined =>
        list_to_set (USID <$> filter (λ s, admitted only (USID s) = true) defined)
    | _ => ∅
    end
  ∧ match out.2 with
    | Ok updates => ∀ u, u ∈ updates → USID u ∉ excluded ∪ locked
    | _ => True
    end.
Proof.
  intros only out. unfold out, SelectServices.
  destruct FindDefinedServices as [defined|e|]; cbn [fst snd];
    [|by rewrite union_empty_r_L..].
  fold only.
  set (st := foldl (selectStep only locked excluded)
                   {| updateMap := ∅; ids := []; results := res |} defined).
  pose proof (selectLoop_wf only locked excluded defined _ (selection_start_wf res))
    as [Hdom Hkey]. fold st in Hdom, Hkey.
  pose proof (selectLoop_results_dom only locked excluded defined
                {| updateMap := ∅; ids := []; results := res |}) as Hres.
  fold st in Hres. cbn [results] in Hres.
  pose proof (selectLoop_ids only locked excluded defined
                {| updateMap := ∅; ids := []; results := res |}) as Hids.
  fold st in Hids. cbn [ids app] in Hids.
  assert (Hcand : ∀ k, k ∈ ids st →
            (k ∉ excluded ∪ locked) ∧
            k ∈ (list_to_set (USID <$> filter (λ s, admitted only (USID s) = true) defined)
                 : gset string)).
  { intros k. rewrite Hids. intros (s & -> & Hs)%list_elem_of_fmap.
    apply list_elem_of_filter in Hs as [Hc Hs].
    unfold candidate in Hc.
    apply andb_prop in Hc as [Hc Hl]. apply andb_prop in Hc as [Ha He].
    apply negb_true_iff in He, Hl.
    apply bool_decide_eq_false in He, Hl. split.
    - rewrite elem_of_union. by intros [?|?].
    - apply elem_of_list_to_set, list_elem_of_fmap. exists s. split; [done|].
      by apply list_elem_of_filter. }
  destruct (ClusterSomeServices (ids st)) as [services [err|]]; cbn [fst snd]; [done|].
  destruct (correlate services (updateMap st) []) as [[um ups]|] eqn:Hcor;
    cbn [fst snd]; [|done].
  split.
  - rewrite markMissing_dom, Hres.
    assert (Hsub : (list_to_set (range ServiceUpdate um).*1 : gset string) ⊆
              list_to_set (USID <$> filter (λ s, admitted only (USID s) = true) defined)).
    { intros k Hk. apply elem_of_list_to_set, range_keys in Hk.
      rewrite (correlate_lookup _ _ _ _ _ Hcor) in Hk.
      case_bool_decide; [by destruct Hk|].
      apply Hdom in Hk. by apply Hcand. }
    rewrite <- (assoc_L (∪)). f_equal.
    rewrite (comm_L (∪)). by apply subseteq_union_1_L.
  - intros u Hu.
    destruct (correlate_updates _ _ _ _ _ Hcor u Hu) as [Hnil|(k & u0 & Hk & Heq)].
    + by apply elem_of_nil in Hnil.
    + rewrite Heq, (Hkey _ _ Hk). apply Hcand, Hdom. by eexists.
Qed.


(** ** When the scan of the working copy succeeds *)

Lemma findDefinedLoop_no_panic (entries : list (string * list string))
    (acc : list ServiceUpdate) :
  findDefinedLoop entries acc ≠ Panic.
Proof.
  revert acc. induction entries as [|[id paths] rest IH]; intros acc; cbn; [done|].
  destruct paths as [|p [|q paths]]; [done| |done].
  destruct (ReadFile p) as [def [err|]]; [done|]. apply IH.
Qed.

Lemma findDefinedLoop_Err (entries : list (string * list string))
    (acc : list ServiceUpdate) (err : error) :
  findDefinedLoop entries acc = Err err →
  (∃ id paths, (id, paths) ∈ entries ∧ length paths ≠ 1 ∧ err = multipleFiles id paths) ∨
  (∃ id p, (id, [p]) ∈ entries ∧ (ReadFile p).2 = Some err).
Proof.
  revert acc. induction entries as [|[id paths] rest IH]; intros acc; cbn; [done|].
  destruct paths as [|p [|q paths]].
  - intros [= <-]. left. exists id, []. split; [by left|done].
  - destruct (ReadFile p) as [def [e|]] eqn:Hrf.
    + intros [= <-]. right. exists id, p. split; [by left|]. by rewrite Hrf.
    + intros Hrest. destruct (IH _ Hrest) as [(i & ps & Hin & H)|(i & q & Hin & H)].
      * left. exists i, ps. split; [by right|done].
      * right. exists i, q. split; [by right|done].
  - intros [= <-]. left. exists id, (p :: q :: paths). split; [by left|done].
Qed.

Lemma findDefinedLoop_Ok (entries : list (string * list string))
    (acc defined : list ServiceUpdate) :
  findDefinedLoop entries acc = Ok defined →
  ∀ id paths, (id, paths) ∈ entries → ∃ p, paths = [p] ∧ (ReadFile p).2 = None.
Proof.
  revert acc. induction entries as [|[id paths] rest IH]; intros acc; cbn.
  - intros _ id paths Hin. by apply elem_of_nil in Hin.
  - destruct paths as [|p [|q paths]]; [done| |done].
    destruct (ReadFile p) as [def [e|]] eqn:Hrf; [done|].
    intros Hrest i ps Hin. apply elem_of_cons in Hin as [Heq|Hin].
    + inversion Heq; subst. exists p. split; [done|]. by rewrite Hrf.
    + by eapply IH.
Qed.

(** The scan of the working copy is all or nothing, whatever the order
    in which the services are visited.  It never panics.  It returns the
    updates exactly when the cluster adapter located the manifests, every
    service has exactly one manifest file (none is as bad as several) and
    each of these files can be read.  An error it returns is the
    adapter's, or the "multiple resource files" error of a service whose
    list of files is not a single one, or the error of reading the one
    file of a service. *)
Theorem FindDefinedServices_all_or_nothing :
  let located := ClusterFindDefinedServices RepoPath in
  FindDefinedServices ≠ Panic ∧
  ((∃ defined, FindDefinedServices = Ok defined) ↔
     located.2 = None ∧
     ∀ id paths, located.1 !! id = Some paths → ∃ p, paths = [p] ∧ (ReadFile p).2 = None) ∧
  (∀ err, FindDefinedServices = Err err →
     located.2 = Some err ∨
     (∃ id paths, located.1 !! id = Some paths ∧ length paths ≠ 1 ∧
                  err = multipleFiles id paths) ∨
     (∃ id p, located.1 !! id = Some [p] ∧ (ReadFile p).2 = Some err)).
Proof.
  cbn zeta. unfold FindDefinedServices.
  destruct (ClusterFindDefinedServices RepoPath) as [services [e|]]; cbn [fst snd].
  - split; [done|]. split.
    + split; [by intros [? ?]|by intros [? _]].
    + intros err [= <-]. by left.
  - split; [apply findDefinedLoop_no_panic|]. split.
    + split.
      * intros [defined Hok]. split; [done|]. intros id paths Hin.
        apply (findDefinedLoop_Ok _ _ _ Hok id paths). by apply range_lookup.
      * intros [_ Hall]. eexists. apply findDefinedLoop_single.
        intros id paths Hin. apply (Hall id paths). by apply range_lookup.
    + intros err Herr. right.
      destruct (findDefinedLoop_Err _ _ _ Herr) as [(i & ps & Hin & H)|(i & q & Hin & H)].
      * left. exists i, ps. split; [by apply range_lookup|done].
      * right. exists i, q. split; [by apply range_lookup|done].
Qed.

(** ** What the selection hands on, and when it panics *)

Lemma selectLoop_updateMap only locked excluded defined st k u :
  updateMap (foldl (selectStep only locked excluded) st defined) !! k = Some u →
  updateMap st !! k = Some u ∨ (u ∈ defined ∧ candidate only locked excluded u = true).
Proof.
  revert st. induction defined as [|s l IH]; intros st; cbn [foldl]; [by left|].
  intros Hk. destruct (IH _ Hk) as [Hst|[Hin Hc]]; [|right; split; [by right|done]].
  unfold selectStep, candidate in *.
  destruct (admitted only (USID s)) eqn:Ha; [|by left].
  destruct (bool_decide (USID s ∈ excluded)) eqn:He; [by left|].
  destruct (bool_decide (USID s ∈ locked)) eqn:Hl; [by left|].
  cbn in Hst. destruct (decide (USID s = k)) as [<-|Hne].
  - rewrite lookup_insert_eq in Hst. injection Hst as <-. right.
    split; [by left|]. by rewrite Ha, He, Hl.
  - rewrite lookup_insert_ne in Hst by done. by left.
Qed.

(** The update of [service] as the second loop completes it. *)
Definition attach (update : ServiceUpdate) (service : Service) : ServiceUpdate :=
  {| USID := USID update; ManifestPath := ManifestPath update;
     ManifestBytes := ManifestBytes update; UService := service |}.

Lemma correlate_Some services um updates um' updates' :
  correlate services um updates = Some (um', updates') →
  ∃ new, updates' = updates ++ new ∧
    Forall2 (λ u service, ∃ u0, um !! ID service = Some u0 ∧ u = attach u0 service)
            new services.
Proof.
  revert um updates. induction services as [|service rest IH]; intros um updates; cbn.
  - intros [= <- <-]. exists []. split; [by rewrite app_nil_r|constructor].
  - destruct (um !! ID service) as [update|] eqn:Hup; [|done].
    intros Hc. destruct (IH _ _ Hc) as (new & -> & Hall).
    exists (attach update service :: new). split; [by rewrite <- app_assoc|].
    constructor; [by exists update|].
    eapply Forall2_impl; [exact Hall|]. cbn.
    intros u s (u0 & Hu0 & ->). exists u0. split; [|done].
    apply lookup_delete_Some in Hu0. by destruct Hu0.
Qed.

Lemma correlate_is_Some services um updates :
  is_Some (correlate services um updates) ↔
  NoDup (ID <$> services) ∧ ∀ s, s ∈ services → is_Some (um !! ID s).
Proof.
  revert um updates. induction services as [|service rest IH]; intros um updates; cbn.
  - split; [|by eauto]. intros _. split; [constructor|].
    intros s Hs. by apply elem_of_nil in Hs.
  - destruct (um !! ID service) as [update|] eqn:Hup.
    + rewrite IH, NoDup_cons. split.
      * intros [Hnd Hall]. split; [split; [|done]|].
        -- intros (s & Heq & Hs)%list_elem_of_fmap.
           destruct (Hall s Hs) as [u Hu]. rewrite <- Heq in Hu.
           by rewrite lookup_delete_eq in Hu.
        -- intros s [->|Hs]%elem_of_cons; [by eexists|].
           destruct (Hall s Hs) as [u Hu].
           apply lookup_delete_Some in Hu. destruct Hu as [_ Hu]. by eexists.
      * intros [[Hnew Hnd] Hall]. split; [done|]. intros s Hs.
        destruct (Hall s) as [u Hu]; [by right|]. exists u.
        apply lookup_delete_Some. split; [|done].
        intros Heq. apply Hnew, list_elem_of_fmap. by exists s.
    + split; [by intros [? ?]|]. intros [_ Hall].
      destruct (Hall service) as [u Hu]; [by left|]. by rewrite Hup in Hu.
Qed.

(** [SelectServices] trusts the cluster to answer with services it has
    asked for, each once.  When the working copy has been read and the
    cluster query has succeeded, the call panics (it writes the field of
    the nil update the map lookup gave) exactly when the answer names a
    service that was not asked for, or names a service twice. *)
Theorem SelectServices_panics_on_unexpected_answer
    (included : option (list ServiceID)) (locked excluded : ServiceIDSet)
    (res : ReleaseResult) (defined : list ServiceUpdate) (services : list Service) :
  let only : option ServiceIDSet := list_to_set <$> included in
  let st := foldl (selectStep only locked excluded)
                  {| updateMap := ∅; ids := []; results := res |} defined in
  FindDefinedServices = Ok defined →
  ClusterSomeServices (ids st) = (services, None) →
  (SelectServices included locked excluded res).2 = Panic ↔
  ¬ (NoDup (ID <$> services) ∧ ∀ s, s ∈ services → ID s ∈ ids st).
Proof.
  intros only st Hdef Hsome. unfold SelectServices. rewrite Hdef.
  fold only. fold st. rewrite Hsome.
  destruct (selectLoop_wf only locked excluded defined _ (selection_start_wf res))
    as [Hdom _]. fold st in Hdom.
  pose proof (correlate_is_Some services (updateMap st) []) as Hcor.
  assert (Hiff : (∀ s, s ∈ services → is_Some (updateMap st !! ID s)) ↔
                 (∀ s, s ∈ services → ID s ∈ ids st)).
  { split; intros Hall s Hs; apply Hdom; by apply Hall. }
  destruct (correlate services (updateMap st) []) as [[um ups]|]; cbn [snd].
  - split; [done|]. intros Hnot. destruct Hnot.
    destruct (proj1 Hcor) as [Hnd Hall]; [by eexists|].
    split; [done|]. by apply Hiff.
  - split; [|done]. intros _ [Hnd Hall].
    destruct (proj2 Hcor) as [? ?]; [|done].
    split; [done|]. by apply Hiff.
Qed.

(** What [SelectServices] hands on when it returns: one update for each
    service of the cluster's answer, in the order of the answer, carrying
    that service.  Each is the update of a defined service of the same
    ServiceID that passed the include list and is neither excluded nor
    locked, with its manifest path and bytes, and the result recorded for
    it is still pending. *)
Theorem SelectServices_updates_follow_the_answer
    (included : option (list ServiceID)) (locked excluded : ServiceIDSet)
    (res res' : ReleaseResult) (updates : list ServiceUpdate) :
  let only : option ServiceIDSet := list_to_set <$> included in
  SelectServices included locked excluded res = (res', Ok updates) →
  ∃ defined,
    FindDefinedServices = Ok defined ∧
    (ClusterSomeServices
       (USID <$> filter (λ s, candidate only locked excluded s = true) defined)) =
      (UService <$> updates, None) ∧
    Forall (λ u,
              USID u = ID (UService u) ∧
              res' !! USID u = Some (result ReleaseStatusPending "") ∧
              ∃ d, d ∈ defined ∧ candidate only locked excluded d = true ∧
                   u = attach d (UService u)) updates.
Proof.
  intros only. unfold SelectServices.
  destruct FindDefinedServices as [defined|e|]; [|done..].
  fold only.
  set (st := foldl (selectStep only locked excluded)
                   {| updateMap := ∅; ids := []; results := res |} defined).
  pose proof (selectLoop_ids only locked excluded defined
                {| updateMap := ∅; ids := []; results := res |}) as Hids.
  fold st in Hids. cbn [ids app] in Hids.
  destruct (selectLoop_wf only locked excluded defined _ (selection_start_wf res))
    as [Hdom Hkey]. fold st in Hdom, Hkey.
  destruct (ClusterSomeServices (ids st)) as [services [err|]] eqn:Hsome; [done|].
  destruct (correlate services (updateMap st) []) as [[um ups]|] eqn:Hcor; [|done].
  intros [= <- <-]. exists defined. split; [done|].
  destruct (correlate_Some _ _ _ _ _ Hcor) as (new & -> & Hall). cbn [app].
  rewrite <- Hids, Hsome.
  assert (Hserv : UService <$> new = services).
  { clear -Hall. induction Hall as [|u s new services (u0 & _ & ->) _ IH]; [done|].
    cbn. by rewrite IH. }
  split; [by rewrite Hserv|].
  apply Forall_forall. intros u Hu.
  apply list_elem_of_lookup in Hu as [i Hi].
  destruct (Forall2_lookup_l _ _ _ _ _ Hall Hi) as (s & Hs & (u0 & Hu0 & ->)).
  pose proof (Hkey _ _ Hu0) as Hid.
  destruct (selectLoop_updateMap only locked excluded defined _ _ _ Hu0)
    as [Hempty|[Hin Hc]]; [cbn in Hempty; by rewrite lookup_empty in Hempty|].
  cbn [attach USID UService]. split; [done|]. split.
  - rewrite markMissing_lookup, bool_decide_eq_false_2.
    + apply selectLoop_pending; [done|by left].
    + rewrite range_keys, (correlate_lookup _ _ _ _ _ Hcor), Hid.
      rewrite bool_decide_eq_true_2; [by intros [? ?]|].
      apply list_elem_of_fmap. exists s. split; [done|].
      by eapply list_elem_of_lookup_2.
  - exists u0. done.
Qed.

(** ** What the selection records *)

(** The result the first loop records for an admitted service. *)
Definition verdict (locked excluded : ServiceIDSet) (k : ServiceID) : ServiceResult :=
  if bool_decide (k ∈ excluded) then result ReleaseStatusSkipped "excluded"
  else if bool_decide (k ∈ locked) then result ReleaseStatusSkipped "locked"
  else result ReleaseStatusPending "".

Lemma selectStep_results_lookup only locked excluded st s k :
  results (selectStep only locked excluded st s) !! k =
    if bool_decide (USID s = k) && admitted only k
    then Some (verdict locked excluded k)
    else results st !! k.
Proof.
  unfold selectStep, verdict. destruct (decide (USID s = k)) as [<-|Hne].
  - rewrite (bool_decide_eq_true_2 (USID s = USID s)) by done. cbn [andb].
    destruct (admitted only (USID s)); [|done].
    repeat case_bool_decide; cbn; by rewrite lookup_insert_eq.
  - rewrite (bool_decide_eq_false_2 (USID s = k)) by done. cbn [andb].
    destruct (admitted only (USID s)); [|done].
    repeat case_bool_decide; cbn; by rewrite lookup_insert_ne.
Qed.

Lemma selectLoop_results_lookup only locked excluded defined st k :
  results (foldl (selectStep only locked excluded) st defined) !! k =
    if existsb (λ s, bool_decide (USID s = k) && admitted only k) defined
    then Some (verdict locked excluded k)
    else results st !! k.
Proof.
  revert st. induction defined as [|s l IH]; intros st; cbn [foldl existsb]; [done|].
  rewrite IH, selectStep_results_lookup.
  destruct (existsb _ l); [by rewrite orb_true_r|]. by rewrite orb_false_r.
Qed.

Lemma selectLoop_ids_candidates only locked excluded defined res k :
  k ∈ ids (foldl (selectStep only locked excluded)
             {| updateMap := ∅; ids := []; results := res |} defined) →
  (k ∉ excluded) ∧ (k ∉ locked) ∧
  existsb (λ s, bool_decide (USID s = k) && admitted only k) defined = true.
Proof.
  rewrite selectLoop_ids. cbn [ids app].
  intros (s & -> & Hs)%list_elem_of_fmap.
  apply list_elem_of_filter in Hs as [Hc Hs]. unfold candidate in Hc.
  apply andb_prop in Hc as [Hc Hl]. apply andb_prop in Hc as [Ha He].
  apply negb_true_iff in He, Hl. apply bool_decide_eq_false in He, Hl.
  split; [done|]. split; [done|].
  apply existsb_exists. exists s. split; [by apply list_elem_of_In|].
  by rewrite bool_decide_eq_true_2, Ha.
Qed.

(** What [SelectServices] writes into the caller's result map once the
    working copy has been read, whether it then returns updates, returns
    the cluster's error or panics.  An entry whose ServiceID is not that
    of a defined service admitted by the include list is left as the
    caller had it.  The entry of a defined, admitted service that is
    excluded is skipped as "excluded", also when the service is locked
    as well; one that is locked and not excluded is skipped as "locked";
    neither is overwritten by the later loops. *)
Theorem SelectServices_records_exclusion_before_lock
    (included : option (list ServiceID)) (locked excluded : ServiceIDSet)
    (res : ReleaseResult) (defined : list ServiceUpdate) (k : ServiceID) :
  let only : option ServiceIDSet := list_to_set <$> included in
  let out := SelectServices included locked excluded res in
  let named := existsb (λ s, bool_decide (USID s = k) && admitted only k) defined in
  FindDefinedServices = Ok defined →
  (named = false → out.1 !! k = res !! k) ∧
  (named = true → k ∈ excluded →
     out.1 !! k = Some (result ReleaseStatusSkipped "excluded")) ∧
  (named = true → k ∉ excluded → k ∈ locked →
     out.1 !! k = Some (result ReleaseStatusSkipped "locked")).
Proof.
  intros only out named Hdef. unfold out, SelectServices. rewrite Hdef. fold only.
  set (st := foldl (selectStep only locked excluded)
                   {| updateMap := ∅; ids := []; results := res |} defined).
  destruct (selectLoop_wf only locked excluded defined _ (selection_start_wf res))
    as [Hdom _]. fold st in Hdom.
  pose proof (selectLoop_results_lookup only locked excluded defined
                {| updateMap := ∅; ids := []; results := res |} k) as Hst.
  fold st in Hst. fold named in Hst. cbn [results] in Hst.
  pose proof (selectLoop_ids_candidates only locked excluded defined res k) as Hcand.
  fold st in Hcand. fold named in Hcand.
  assert (Hkeep : named = false ∨ k ∈ excluded ∨ k ∈ locked →
    (match ClusterSomeServices (ids st) with
     | (_, Some err) => (results st, Err err)
     | (services, None) =>
         match correlate services (updateMap st) [] with
         | Some (um, updates) =>
             (markMissing included (range ServiceUpdate um) (results st), Ok updates)
         | None => (results st, Panic)
         end
     end).1 !! k = results st !! k).
  { intros Hout.
    destruct (ClusterSomeServices (ids st)) as [services [err|]]; cbn [fst]; [done|].
    destruct (correlate services (updateMap st) []) as [[um ups]|] eqn:Hcor;
      cbn [fst]; [|done].
    rewrite markMissing_lookup, bool_decide_eq_false_2; [done|].
    rewrite range_keys, (correlate_lookup _ _ _ _ _ Hcor).
    case_bool_decide; [by intros [? ?]|].
    intros Hk. apply Hdom in Hk. destruct (Hcand Hk) as (He & Hl & Hn).
    destruct Hout as [Hf|[?|?]]; [|done..]. by rewrite Hf in Hn. }
  split; [|split].
  - intros Hn. rewrite Hkeep by (by left). by rewrite Hst, Hn.
  - intros Hn He. rewrite Hkeep by (right; by left). rewrite Hst, Hn.
    unfold verdict. by rewrite bool_decide_eq_true_2.
  - intros Hn He Hl. rewrite Hkeep by (right; by right). rewrite Hst, Hn.
    unfold verdict. by rewrite bool_decide_eq_false_2, bool_decide_eq_true_2.
Qed.

End Context.


Lemma rangeSorted_ok : rangeOracle_ok rangeSorted.
Proof. intros V m. reflexivity. Qed.

(** ** The two release scenarios of the specification *)

(** A working copy with one manifest for each of a/x and a/y. *)
Definition scenarioManifests : string → gmap string (list string) * option error :=
  λ _, (<["a/x" := ["a/x.yaml"]]> (<["a/y" := ["a/y.yaml"]]> ∅), None).

Definition scenarioReadFile : string → string * option error :=
  λ p, ("manifest " +:+ p, None).

(** A cluster in which exactly the services of [running] exist. *)
Definition scenarioCluster (running : list ServiceID)
    : list ServiceID → list Service * option error :=
  λ ids, ((λ id, {| ID := id; IP := "10.0.0.1"; Metadata := ∅; SStatus := "ready";
                   SContainers := {| Excuse := ""; Containers := [] |} |})
            <$> filter (λ id, id ∈ running) ids, None).

Definition scenarioUpdate (id path : string) : ServiceUpdate :=
  {| USID := id; ManifestPath := path; ManifestBytes := "manifest " +:+ path;
     UService := zeroService |}.

(** An all-services release with a/y defined but not running: a/y is
    ignored. *)
Lemma SelectServices_not_in_running_system_witness :
  (SelectServices rangeSorted scenarioManifests (scenarioCluster ["a/x"]) "/repo"
     scenarioReadFile None ∅ ∅ ∅).1 !! "a/y" =
    Some (result ReleaseStatusIgnored "not in running system").
Proof.
  refine (proj2 (SelectServices_not_in_running_system rangeSorted scenarioManifests
            (scenarioCluster ["a/x"]) "/repo" scenarioReadFile rangeSorted_ok
            None ∅ ∅ ∅ _ [scenarioUpdate "a/y" "a/y.yaml"; scenarioUpdate "a/x" "a/x.yaml"]
            [{| USID := "a/x"; ManifestPath := "a/x.yaml";
                ManifestBytes := "manifest a/x.yaml";
                UService := {| ID := "a/x"; IP := "10.0.0.1"; Metadata := ∅;
                               SStatus := "ready";
                               SContainers := {| Excuse := ""; Containers := [] |} |} |}]
            [{| ID := "a/x"; IP := "10.0.0.1"; Metadata := ∅; SStatus := "ready";
                SContainers := {| Excuse := ""; Containers := [] |} |}]
            (scenarioUpdate "a/y" "a/y.yaml") _ _ _ _ _ _)).
  - vm_compute. reflexivity.
  - vm_compute. reflexivity.
  - vm_compute. reflexivity.
  - left.
  - vm_compute. reflexivity.
  - vm_compute. intros H. inversion H; subst. inversion H2.
Defined.

(** The explicit release of a/x and a/y with a/x excluded: both ids are
    keys of the result. *)
Lemma SelectServices_result_keys_witness :
  dom (SelectServices rangeSorted scenarioManifests (scenarioCluster ["a/x"; "a/y"])
         "/repo" scenarioReadFile (Some ["a/x"; "a/y"]) ∅ {["a/x"]} ∅).1 =
    dom (∅ : ReleaseResult) ∪ list_to_set ["a/y"; "a/x"].
Proof.
  exact (proj1 (SelectServices_result_keys rangeSorted scenarioManifests
                  (scenarioCluster ["a/x"; "a/y"]) "/repo" scenarioReadFile
                  rangeSorted_ok (Some ["a/x"; "a/y"]) ∅ {["a/x"]} ∅)).
Defined.

(** C5 as the specification words it, on a fresh result map: the keys of
    the result avoid the excluded and the locked services. *)
Definition result_keys_avoid_excluded_and_locked : Prop :=
  ∀ (range : rangeOracle)
    (ClusterFindDefinedServices : string → gmap string (list string) * option error)
    (ClusterSomeServices : list ServiceID → list Service * option error)
    (RepoPath : string) (ReadFile : string → string * option error)
    (included : option (list ServiceID)) (locked excluded : ServiceIDSet)
    (res' : ReleaseResult) (updates : list ServiceUpdate),
    rangeOracle_ok range →
    SelectServices range ClusterFindDefinedServices ClusterSomeServices RepoPath ReadFile
      included locked excluded ∅ = (res', Ok updates) →
    dom res' ## excluded ∪ locked.

(** C5 (counterexample): the release names a/x and a/y, a/x is excluded,
    both are defined and running.  The result has the key a/x (skipped,
    "excluded") although a/x is in the excluded set; only a/y is handed
    on for update.  (Scenario 1 of the specification expects the same of
    a locked service: a/x -> skipped "locked".) *)
Lemma SelectServices_records_excluded_service :
  let out := SelectServices rangeSorted scenarioManifests (scenarioCluster ["a/x"; "a/y"])
               "/repo" scenarioReadFile (Some ["a/x"; "a/y"]) ∅ {["a/x"]} ∅ in
  out.1 !! "a/x" = Some (result ReleaseStatusSkipped "excluded") ∧
  out.1 !! "a/y" = Some (result ReleaseStatusPending "") ∧
  (match out.2 with Ok updates => USID <$> updates | _ => [] end) = ["a/y"] ∧
  ¬ (dom out.1 ## ({["a/x"]} ∪ ∅ : gset string)) ∧
  ¬ result_keys_avoid_excluded_and_locked.
Proof.
  cbn zeta.
  assert (Hx : (SelectServices rangeSorted scenarioManifests (scenarioCluster ["a/x"; "a/y"])
                  "/repo" scenarioReadFile (Some ["a/x"; "a/y"]) ∅ {["a/x"]} ∅).1 !! "a/x" =
               Some (result ReleaseStatusSkipped "excluded")) by (vm_compute; reflexivity).
  split; [exact Hx|].
  split; [vm_compute; reflexivity|].
  split; [vm_compute; reflexivity|].
  assert (Hnd : ¬ (dom (SelectServices rangeSorted scenarioManifests
                          (scenarioCluster ["a/x"; "a/y"]) "/repo" scenarioReadFile
                          (Some ["a/x"; "a/y"]) ∅ {["a/x"]} ∅).1
                   ## ({["a/x"]} ∪ ∅ : gset string))).
  { intros Hdisj. apply (Hdisj "a/x").
    - apply elem_of_dom. rewrite Hx. by eexists.
    - apply elem_of_union_l, elem_of_singleton. reflexivity. }
  split; [exact Hnd|].
  intros Hclaim. apply Hnd.
  eapply (Hclaim rangeSorted scenarioManifests (scenarioCluster ["a/x"; "a/y"]) "/repo"
            scenarioReadFile (Some ["a/x"; "a/y"]) ∅ {["a/x"]} _ _ rangeSorted_ok).
  vm_compute. reflexivity.
Qed.

(** The same release with a/x locked instead, scenario 1 of the
    specification: a/x is a key of the result, skipped as "locked". *)
Example SelectServices_scenario_locked :
  (SelectServices rangeSorted scenarioManifests (scenarioCluster ["a/x"; "a/y"])
     "/repo" scenarioReadFile (Some ["a/x"; "a/y"]) {["a/x"]} ∅ ∅).1 !! "a/x" =
  Some (result ReleaseStatusSkipped "locked").
Proof. vm_compute. reflexivity. Qed.

(** Both manifests are single and readable: one update for each. *)
Lemma FindDefinedServices_one_manifest_per_service_witness :
  let services := (scenarioManifests "/repo").1 in
  ∃ defined,
    FindDefinedServices rangeSorted scenarioManifests "/repo" scenarioReadFile = Ok defined ∧
    defined ≡ₚ definedOf scenarioReadFile <$> map_to_list services ∧
    length defined = size services ∧
    (∀ u, u ∈ defined ↔
       ∃ p, services !! USID u = Some [p] ∧
            u = {| USID := USID u; ManifestPath := p;
                   ManifestBytes := (scenarioReadFile p).1; UService := zeroService |}).
Proof.
  intros services.
  apply (proj2 (FindDefinedServices_one_manifest_per_service rangeSorted scenarioManifests
                  "/repo" scenarioReadFile rangeSorted_ok services eq_refl
                  (λ id p _, eq_refl))).
  intros id paths. unfold services. cbn.
  rewrite !lookup_insert. repeat case_decide.
  - by intros [= <-].
  - by intros [= <-].
  - by rewrite lookup_empty.
Defined.

(** Two files claim a/x: planning fails and the error names a/x. *)
Example FindDefinedServices_two_manifests :
  FindDefinedServices rangeSorted
    (λ _, (<["a/x" := ["a/x.yaml"; "old/x.yaml"]]> (<["a/y" := ["a/y.yaml"]]> ∅), None))
    "/repo" scenarioReadFile =
    Err (errorString
           "multiple resource files found for service a/x: a/x.yaml, old/x.yaml").
Proof. vm_compute. reflexivity. Qed.


(** ** Writing the manifests back *)

(** A file as far as the release engine deals with it: its mode bits and
    its bytes. *)
Record file : Type := mkFile {
  Mode : N;
  Data : string
}.

Section Files.

(** Paths the operating system refuses to open for writing, and the
    process's umask. *)
Variable writeDenied : string → bool.
Variable umask : N.

(** [os.Stat] followed by [fi.Mode()]: the mode of the file, or the error
    for a missing one. *)
Definition Stat (fs : gmap string file) (name : string) : N * option error :=
  match fs !! name with
  | Some f => (Mode f, None)
  | None => (0%N, Some (errorString ("stat " +:+ name +:+ ": no such file or directory")))
  end.

(** [ioutil.WriteFile(filename, data, perm)] as the Go library documents
    it: a missing file is created with permissions [perm] (before umask);
    an existing one is truncated and written, its mode left as it is. *)
Definition WriteFile (fs : gmap string file) (filename data : string) (perm : N)
    : gmap string file * option error :=
  if writeDenied filename then
    (fs, Some (errorString ("open " +:+ filename +:+ ": permission denied")))
  else
    match fs !! filename with
    | Some f => (<[filename := {| Mode := Mode f; Data := data |}]> fs, None)
    | None => (<[filename := {| Mode := N.ldiff perm umask; Data := data |}]> fs, None)
    end.

(** [func writeUpdates(updates []*ServiceUpdate) error], threading the
    file system. *)
Fixpoint writeUpdates (updates : list ServiceUpdate) (fs : gmap string file)
    : gmap string file * option error :=
  match updates with
  | [] => (fs, None)
  | update :: rest =>
      match Stat fs (ManifestPath update) with
      | (_, Some err) => (fs, Some err)
      | (mode, None) =>
          match WriteFile fs (ManifestPath update) (ManifestBytes update) mode with
          | (fs', Some err) => (fs', Some err)
          | (fs', None) => writeUpdates rest fs'
          end
      end
  end.

Lemma writeUpdates_app (l1 l2 : list ServiceUpdate) (fs : gmap string file) :
  writeUpdates (l1 ++ l2) fs =
    match writeUpdates l1 fs with
    | (fs1, None) => writeUpdates l2 fs1
    | failed => failed
    end.
Proof.
  revert fs. induction l1 as [|u l1 IH]; intros fs; cbn; [done|].
  destruct (Stat fs (ManifestPath u)) as [mode [err|]]; [done|].
  destruct (WriteFile fs (ManifestPath u) (ManifestBytes u) mode) as [fs1 [err|]]; [done|].
  apply IH.
Qed.

(** One iteration on an existing, writable file. *)
Lemma writeUpdates_step (u : ServiceUpdate) (fs fs1 : gmap string file) :
  writeUpdates [u] fs = (fs1, None) →
  ∃ f, fs !! ManifestPath u = Some f ∧
       Stat fs (ManifestPath u) = (Mode f, None) ∧
       fs1 = <[ManifestPath u := {| Mode := Mode f; Data := ManifestBytes u |}]> fs.
Proof.
  cbn. unfold Stat, WriteFile.
  destruct (fs !! ManifestPath u) as [f|] eqn:Hf; [|done].
  destruct (writeDenied (ManifestPath u)); [done|].
  intros [= <-]. by exists f.
Qed.

Lemma writeUpdates_modes (updates : list ServiceUpdate) (fs : gmap string file) :
  ∀ p, Mode <$> (writeUpdates updates fs).1 !! p = Mode <$> fs !! p.
Proof.
  revert fs. induction updates as [|u rest IH]; intros fs p; cbn; [done|].
  unfold Stat, WriteFile.
  destruct (fs !! ManifestPath u) as [f|] eqn:Hf; [|done].
  destruct (writeDenied (ManifestPath u)); [done|].
  match goal with
  | |- context [writeUpdates rest ?fs1] =>
      specialize (IH fs1 p); destruct (writeUpdates rest fs1) as [fs2 [err|]]
  end; cbn in *; rewrite IH;
    (destruct (decide (ManifestPath u = p)) as [<-|Hne];
     [by rewrite lookup_insert_eq, Hf | by rewrite lookup_insert_ne]).
Qed.

Lemma writeUpdates_frame (updates : list ServiceUpdate) (fs : gmap string file) (p : string) :
  p ∉ ManifestPath <$> updates →
  (writeUpdates updates fs).1 !! p = fs !! p.
Proof.
  revert fs. induction updates as [|u rest IH]; intros fs Hp; cbn; [done|].
  rewrite fmap_cons, not_elem_of_cons in Hp. destruct Hp as [Hne Hp].
  unfold Stat, WriteFile.
  destruct (fs !! ManifestPath u) as [f|] eqn:Hf; [|done].
  destruct (writeDenied (ManifestPath u)); [done|].
  match goal with
  | |- context [writeUpdates rest ?fs1] =>
      specialize (IH fs1 Hp); destruct (writeUpdates rest fs1) as [fs2 [err|]]
  end; cbn in *; rewrite IH; by rewrite lookup_insert_ne.
Qed.

(** C9: when writeUpdates succeeds, (1) every file keeps the mode it had
    before the release, and no file appears or disappears; (2) for every
    update of the batch, the stat taken immediately before its write
    observes the pre-release mode of ManifestPath, and the write leaves
    at ManifestPath a file with that mode and with exactly the update's
    ManifestBytes, which is what is on disk at the end unless a later
    update of the batch writes the same path; (3) files that are no
    update's ManifestPath are untouched. *)
Theorem writeUpdates_preserves_mode_and_bytes
    (updates : list ServiceUpdate) (fs fs' : gmap string file) :
  writeUpdates updates fs = (fs', None) →
  (∀ p, Mode <$> fs' !! p = Mode <$> fs !! p) ∧
  (∀ pre update post, updates = pre ++ update :: post →
     ∃ fs1 mode,
       writeUpdates pre fs = (fs1, None) ∧
       Stat fs1 (ManifestPath update) = (mode, None) ∧
       Mode <$> fs !! ManifestPath update = Some mode ∧
       writeUpdates (pre ++ [update]) fs =
         (<[ManifestPath update := {| Mode := mode; Data := ManifestBytes update |}]> fs1,
          None) ∧
       (ManifestPath update ∉ ManifestPath <$> post →
        fs' !! ManifestPath update =
          Some {| Mode := mode; Data := ManifestBytes update |})) ∧
  (∀ p, p ∉ ManifestPath <$> updates → fs' !! p = fs !! p).
Proof.
  intros Hrun. split; [|split].
  - intros p. pose proof (writeUpdates_modes updates fs p) as H.
    by rewrite Hrun in H.
  - intros pre update post ->.
    rewrite writeUpdates_app in Hrun.
    destruct (writeUpdates pre fs) as [fs1 [err|]] eqn:Hpre; [done|].
    change (update :: post) with ([update] ++ post) in Hrun.
    rewrite writeUpdates_app in Hrun.
    destruct (writeUpdates [update] fs1) as [fs2 [err|]] eqn:Hone; [done|].
    destruct (writeUpdates_step _ _ _ Hone) as (f & Hf & Hstat & ->).
    exists fs1, (Mode f). split; [done|]. split; [done|]. split; [|split].
    + pose proof (writeUpdates_modes pre fs (ManifestPath update)) as H.
      rewrite Hpre in H. cbn in H. by rewrite <- H, Hf.
    + by rewrite writeUpdates_app, Hpre, Hone.
    + intros Hlast.
      pose proof (writeUpdates_frame post
        (<[ManifestPath update := {| Mode := Mode f; Data := ManifestBytes update |}]> fs1)
        _ Hlast) as H.
      rewrite Hrun in H. cbn in H. by rewrite H, lookup_insert_eq.
  - intros p Hp. pose proof (writeUpdates_frame updates fs p Hp) as H.
    by rewrite Hrun in H.
Qed.


(** ** When writing back fails *)

Lemma writeUpdates_exists (updates : list ServiceUpdate) (fs : gmap string file) (p : string) :
  is_Some ((writeUpdates updates fs).1 !! p) ↔ is_Some (fs !! p).
Proof. by rewrite <- !(fmap_is_Some Mode), writeUpdates_modes. Qed.

(** Every manifest of the batch is there and may be written. *)
Definition writable (fs : gmap string file) (updates : list ServiceUpdate) : Prop :=
  ∀ u, u ∈ updates → is_Some (fs !! ManifestPath u) ∧ writeDenied (ManifestPath u) = false.

Lemma writeUpdates_writable (updates : list ServiceUpdate) (fs : gmap string file) :
  (writeUpdates updates fs).2 = None ↔ writable fs updates.
Proof.
  unfold writable. revert fs. induction updates as [|u rest IH]; intros fs.
  - split; [|done]. intros _ u Hu. by apply elem_of_nil in Hu.
  - cbn [writeUpdates]. unfold Stat, WriteFile.
    destruct (fs !! ManifestPath u) as [f|] eqn:Hf.
    + destruct (writeDenied (ManifestPath u)) eqn:Hd.
      * split; [done|]. intros Hall. destruct (Hall u) as [_ H]; [by left|].
        by rewrite Hd in H.
      * rewrite IH. split.
        -- intros Hall v [->|Hv]%elem_of_cons; [by rewrite Hf; eauto|].
           destruct (Hall v Hv) as [Hsome Hw]. split; [|done].
           apply lookup_insert_is_Some in Hsome as [<-|[_ ?]]; [by rewrite Hf|done].
        -- intros Hall v Hv. destruct (Hall v) as [Hsome Hw]; [by right|].
           split; [|done]. apply lookup_insert_is_Some.
           destruct (decide (ManifestPath u = ManifestPath v)); [by left|by right].
    + split; [done|]. intros Hall. destruct (Hall u) as [H _]; [by left|].
      rewrite Hf in H. by destruct H.
Qed.

(** [writeUpdates] returns nil exactly when every manifest of the batch
    exists before the release and can be opened for writing.  It creates
    no file and removes none, whether it succeeds or not: a path that is
    missing fails the batch even when an earlier update of the batch
    names the same path. *)
Theorem writeUpdates_succeeds_exactly_when
    (updates : list ServiceUpdate) (fs : gmap string file) :
  ((writeUpdates updates fs).2 = None ↔ writable fs updates) ∧
  dom (writeUpdates updates fs).1 = dom fs.
Proof.
  split; [apply writeUpdates_writable|].
  apply set_eq. intros p. rewrite !elem_of_dom. apply writeUpdates_exists.
Qed.

Lemma writeUpdates_first_failure
    (updates : list ServiceUpdate) (fs fs' : gmap string file) (err : error) :
  writeUpdates updates fs = (fs', Some err) →
  ∃ pre update post,
    updates = pre ++ update :: post ∧
    writeUpdates pre fs = (fs', None) ∧
    (fs' !! ManifestPath update = None ∨ writeDenied (ManifestPath update) = true).
Proof.
  revert fs. induction updates as [|u rest IH]; intros fs; cbn [writeUpdates]; [done|].
  unfold Stat, WriteFile.
  destruct (fs !! ManifestPath u) as [f|] eqn:Hf.
  - destruct (writeDenied (ManifestPath u)) eqn:Hd.
    + intros [= <- <-]. exists [], u, rest. split; [done|]. split; [done|by right].
    + intros Hrest. destruct (IH _ Hrest) as (pre & update & post & -> & Hpre & Hwhy).
      exists (u :: pre), update, post. split; [done|]. split; [|done].
      cbn [writeUpdates]. unfold Stat, WriteFile. by rewrite Hf, Hd.
  - intros [= <- <-]. exists [], u, rest. split; [done|]. split; [done|by left].
Qed.

(** [writeUpdates] stops at the first manifest it cannot stat or open and
    returns that error; nothing is rolled back.  The batch splits into
    the updates before the failing one, which have all been written as a
    batch of their own, the failing update, whose manifest is missing or
    may not be written, and the rest, which is not attempted: a file
    that none of the earlier updates names is as it was, and every file
    keeps its mode. *)
Theorem writeUpdates_stops_at_first_failure
    (updates : list ServiceUpdate) (fs fs' : gmap string file) (err : error) :
  writeUpdates updates fs = (fs', Some err) →
  ∃ pre update post,
    updates = pre ++ update :: post ∧
    writeUpdates pre fs = (fs', None) ∧
    writable fs pre ∧
    (fs !! ManifestPath update = None ∨ writeDenied (ManifestPath update) = true) ∧
    (∀ p, p ∉ ManifestPath <$> pre → fs' !! p = fs !! p) ∧
    (∀ p, Mode <$> fs' !! p = Mode <$> fs !! p).
Proof.
  intros Hrun.
  destruct (writeUpdates_first_failure _ _ _ _ Hrun) as (pre & update & post & -> & Hpre & Hwhy).
  exists pre, update, post. split; [done|]. split; [done|].
  split; [|split; [|split]].
  - apply writeUpdates_writable. by rewrite Hpre.
  - destruct Hwhy as [Hnone|Hd]; [left|by right].
    pose proof (writeUpdates_exists pre fs (ManifestPath update)) as Hex.
    rewrite Hpre in Hex. cbn [fst] in Hex.
    destruct (fs !! ManifestPath update) as [f|]; [|done].
    destruct (proj2 Hex) as [? H]; [by eexists|]. by rewrite Hnone in H.
  - intros p Hp. pose proof (writeUpdates_frame pre fs p Hp) as H.
    by rewrite Hpre in H.
  - intros p. pose proof (writeUpdates_modes pre fs p) as H. by rewrite Hpre in H.
Qed.

(** ** Pushing the changes *)

(** [flux.ReleaseSpec] and [commitMessageFromReleaseSpec], declared
    outside the sources; the working directory of the release context
    and [rc.Repo.CommitAndPush]. *)
Variable ReleaseSpec : Type.
Variable commitMessageFromReleaseSpec : ReleaseSpec → string.
Variable WorkingDir : string.
Variable RepoCommitAndPush : string → string → option error.

(** [func (rc *ReleaseContext) CommitAndPush(msg string) error]; the
    calls made to the repository are kept in a log. *)
Definition CommitAndPush (msg : string) (log : list (string * string))
    : list (string * string) * option error :=
  (log ++ [(WorkingDir, msg)], RepoCommitAndPush WorkingDir msg).

(** [func (rc *ReleaseContext) PushChanges(updates, spec) error],
    threading the file system and the log of the repository. *)
Definition PushChanges (updates : list ServiceUpdate) (spec : ReleaseSpec)
    (fs : gmap string file) (log : list (string * string))
    : gmap string file * list (string * string) * option error :=
  match writeUpdates updates fs with
  | (fs', Some err) => (fs', log, Some err)
  | (fs', None) =>
      let commitMsg := commitMessageFromReleaseSpec spec in
      let '(log', err) := CommitAndPush commitMsg log in
      (fs', log', err)
  end.

(** [PushChanges] asks the repository to commit exactly when every
    manifest of the batch exists and may be written, and then once, with
    the message made from the spec, and returns the repository's answer.
    Otherwise it returns the error of the write without committing,
    while the file system is as the interrupted [writeUpdates] left it. *)
Theorem PushChanges_commits_only_a_complete_batch
    (updates : list ServiceUpdate) (spec : ReleaseSpec)
    (fs : gmap string file) (log : list (string * string)) :
  let out := PushChanges updates spec fs log in
  out.1.1 = (writeUpdates updates fs).1 ∧
  (writable fs updates →
     out.1.2 = log ++ [(WorkingDir, commitMessageFromReleaseSpec spec)] ∧
     out.2 = RepoCommitAndPush WorkingDir (commitMessageFromReleaseSpec spec)) ∧
  (¬ writable fs updates →
     out.1.2 = log ∧ out.2 = (writeUpdates updates fs).2 ∧ out.2 ≠ None).
Proof.
  cbn zeta. unfold PushChanges, CommitAndPush.
  pose proof (writeUpdates_writable updates fs) as Hiff.
  destruct (writeUpdates updates fs) as [fs' [err|]]; cbn [fst snd] in *.
  - split; [done|]. split; [|done]. intros Hw. by apply Hiff in Hw.
  - split; [done|]. split; [done|]. intros Hn. destruct Hn. by apply Hiff.
Qed.

End Files.

(** The working copy of the examples: a read-only manifest (mode 0444)
    and an executable one (0755). *)
Definition scenarioFiles : gmap string file :=
  <["a/x.yaml" := {| Mode := 292; Data := "image: r/i:1" |}]>
    (<["a/y.yaml" := {| Mode := 493; Data := "image: r/j:1" |}]> ∅).

(** The read-only manifest is rewritten and keeps its mode. *)
Lemma writeUpdates_preserves_mode_and_bytes_witness :
  Mode <$> (writeUpdates (λ _, false) 18 [scenarioUpdate "a/x" "a/x.yaml"]
              scenarioFiles).1 !! "a/x.yaml" =
  Mode <$> scenarioFiles !! "a/x.yaml".
Proof.
  exact (proj1 (writeUpdates_preserves_mode_and_bytes (λ _, false) 18
                  [scenarioUpdate "a/x" "a/x.yaml"] scenarioFiles
                  (writeUpdates (λ _, false) 18 [scenarioUpdate "a/x" "a/x.yaml"]
                     scenarioFiles).1 eq_refl) "a/x.yaml").
Defined.

Example writeUpdates_on_disk :
  map_to_list (writeUpdates (λ _, false) 18
     [{| USID := "a/x"; ManifestPath := "a/x.yaml"; ManifestBytes := "image: r/i:2";
         UService := zeroService |}]
     (<["a/x.yaml" := {| Mode := 292; Data := "image: r/i:1" |}]> ∅)).1 =
  [("a/x.yaml", {| Mode := 292; Data := "image: r/i:2" |})].
Proof. vm_compute. reflexivity. Qed.


(** ** The release engine on further working copies and clusters *)

(** The working copy of the scenarios is scanned in full. *)
Lemma FindDefinedServices_all_or_nothing_witness :
  ∃ defined,
    FindDefinedServices rangeSorted scenarioManifests "/repo" scenarioReadFile = Ok defined.
Proof.
  apply (proj2 (proj1 (proj2
           (FindDefinedServices_all_or_nothing rangeSorted scenarioManifests "/repo"
              scenarioReadFile rangeSorted_ok)))).
  split; [reflexivity|].
  intros id paths. cbn. rewrite !lookup_insert. repeat case_decide.
  - intros [= <-]. by exists "a/x.yaml".
  - intros [= <-]. by exists "a/y.yaml".
  - by rewrite lookup_empty.
Defined.

(** A service without any manifest fails the scan like one with several. *)
Example FindDefinedServices_no_manifest :
  FindDefinedServices rangeSorted
    (λ _, (<["a/x" := []]> (<["a/y" := ["a/y.yaml"]]> ∅), None))
    "/repo" scenarioReadFile =
    Err (errorString "multiple resource files found for service a/x: ").
Proof. vm_compute. reflexivity. Qed.

(** A cluster that answers with every service it was asked for, twice. *)
Definition stutteringCluster : list ServiceID → list Service * option error :=
  λ ids, ((scenarioCluster ids (ids ++ ids)).1, None).

Lemma SelectServices_panics_on_unexpected_answer_witness :
  (SelectServices rangeSorted scenarioManifests stutteringCluster "/repo" scenarioReadFile
     None ∅ ∅ ∅).2 = Panic.
Proof.
  apply (proj2 (SelectServices_panics_on_unexpected_answer rangeSorted scenarioManifests
                  stutteringCluster "/repo" scenarioReadFile None ∅ ∅ ∅
                  [scenarioUpdate "a/y" "a/y.yaml"; scenarioUpdate "a/x" "a/x.yaml"]
                  (stutteringCluster ["a/y"; "a/x"]).1
                  ltac:(vm_compute; reflexivity) ltac:(vm_compute; reflexivity))).
  intros [Hnd _]. vm_compute in Hnd.
  apply NoDup_cons in Hnd as [Hnew _]. apply Hnew.
  apply elem_of_cons. right. apply elem_of_cons. left. reflexivity.
Defined.

(** The running service of the update handed on in the first scenario. *)
Definition runningService (id : ServiceID) : Service :=
  {| ID := id; IP := "10.0.0.1"; Metadata := ∅; SStatus := "ready";
     SContainers := {| Excuse := ""; Containers := [] |} |}.

Lemma SelectServices_updates_follow_the_answer_witness :
  let updates := [attach (scenarioUpdate "a/x" "a/x.yaml") (runningService "a/x")] in
  ∃ defined,
    FindDefinedServices rangeSorted scenarioManifests "/repo" scenarioReadFile = Ok defined ∧
    scenarioCluster ["a/x"]
      (USID <$> filter (λ s, candidate None ∅ ∅ s = true) defined) =
      (UService <$> updates, None) ∧
    Forall (λ u,
              USID u = ID (UService u) ∧
              (SelectServices rangeSorted scenarioManifests (scenarioCluster ["a/x"]) "/repo"
                 scenarioReadFile None ∅ ∅ ∅).1 !! USID u =
                Some (result ReleaseStatusPending "") ∧
              ∃ d, d ∈ defined ∧ candidate None ∅ ∅ d = true ∧
                   u = attach d (UService u)) updates.
Proof.
  cbn zeta.
  apply (SelectServices_updates_follow_the_answer rangeSorted scenarioManifests
           (scenarioCluster ["a/x"]) "/repo" scenarioReadFile rangeSorted_ok
           None ∅ ∅ ∅).
  vm_compute. reflexivity.
Defined.

(** a/x is both excluded and locked: it is recorded as excluded. *)
Lemma SelectServices_records_exclusion_before_lock_witness :
  (SelectServices rangeSorted scenarioManifests (scenarioCluster ["a/x"; "a/y"]) "/repo"
     scenarioReadFile (Some ["a/x"; "a/y"]) {["a/x"]} {["a/x"]} ∅).1 !! "a/x" =
  Some (result ReleaseStatusSkipped "excluded").
Proof.
  apply (proj1 (proj2
           (SelectServices_records_exclusion_before_lock rangeSorted scenarioManifests
              (scenarioCluster ["a/x"; "a/y"]) "/repo" scenarioReadFile rangeSorted_ok
              (Some ["a/x"; "a/y"]) {["a/x"]} {["a/x"]} ∅
              [scenarioUpdate "a/y" "a/y.yaml"; scenarioUpdate "a/x" "a/x.yaml"] "a/x"
              ltac:(vm_compute; reflexivity)))).
  - vm_compute. reflexivity.
  - apply elem_of_singleton. reflexivity.
Defined.

(** The second manifest of the batch may not be written: the first one
    has been rewritten and stays so. *)
Lemma writeUpdates_stops_at_first_failure_witness :
  let denied := λ p : string, bool_decide (p = "a/y.yaml") in
  let batch := [scenarioUpdate "a/x" "a/x.yaml"; scenarioUpdate "a/y" "a/y.yaml"] in
  ∃ pre update post,
    batch = pre ++ update :: post ∧
    writeUpdates denied 18 pre scenarioFiles =
      ((writeUpdates denied 18 batch scenarioFiles).1, None) ∧
    writable denied scenarioFiles pre ∧
    (scenarioFiles !! ManifestPath update = None ∨ denied (ManifestPath update) = true) ∧
    (∀ p, p ∉ ManifestPath <$> pre →
          (writeUpdates denied 18 batch scenarioFiles).1 !! p = scenarioFiles !! p) ∧
    (∀ p, Mode <$> (writeUpdates denied 18 batch scenarioFiles).1 !! p =
          Mode <$> scenarioFiles !! p).
Proof.
  cbn zeta.
  apply (writeUpdates_stops_at_first_failure (λ p : string, bool_decide (p = "a/y.yaml")) 18
           [scenarioUpdate "a/x" "a/x.yaml"; scenarioUpdate "a/y" "a/y.yaml"] scenarioFiles
           _ (errorString "open a/y.yaml: permission denied")).
  vm_compute. reflexivity.
Defined.

Example writeUpdates_partial_write :
  (writeUpdates (λ p : string, bool_decide (p = "a/y.yaml")) 18
     [scenarioUpdate "a/x" "a/x.yaml"; scenarioUpdate "a/y" "a/y.yaml"] scenarioFiles).1
    !! "a/x.yaml" = Some {| Mode := 292; Data := "manifest a/x.yaml" |}.
Proof. vm_compute. reflexivity. Qed.

(** Nothing is committed when a manifest of the batch is missing. *)
Example PushChanges_missing_manifest :
  (PushChanges (λ _, false) 18 unit (λ _, "Release") "/work" (λ _ _, None)
     [scenarioUpdate "a/z" "a/z.yaml"] tt scenarioFiles []).1.2 = [].
Proof. vm_compute. reflexivity. Qed.

End Release.

(* --------------------------------------------------------------------- *)
(* package kubernetes: the cluster adapter                               *)
(* --------------------------------------------------------------------- *)

Module Kubernetes.

Import Platform.

Definition StatusUnknown : string := "unknown".
Definition StatusReady : string := "ready".
Definition StatusUpdating : string := "updating".

(** ** The Kubernetes API objects, as far as the adapter reads them *)

(** [api.ObjectMeta]. *)
Record ObjectMeta : Type := mkObjectMeta {
  MName : string;
  MNamespace : string;
  MLabels : gmap string string;
  MGeneration : Z;
  MCreationTimestamp : string;
  MResourceVersion : string;
  MUID : string
}.

(** [v1.PodTemplateSpec]: the labels of the template and its containers. *)
Record PodTemplateSpec : Type := mkPodTemplateSpec {
  TLabels : gmap string string;
  TContainers : list Container
}.

(** [v1.Service]. *)
Record K8sService : Type := mkK8sService {
  SvcMeta : ObjectMeta;
  SvcClusterIP : string;
  SvcSelector : gmap string string;
  SvcType : string
}.

(** [extensions/v1beta1.Deployment]; [Spec.Replicas] is a pointer that
    the API server always sets. *)
Record K8sDeployment : Type := mkK8sDeployment {
  DepMeta : ObjectMeta;
  DepReplicas : Z;
  DepTemplate : PodTemplateSpec;
  DepObservedGeneration : Z;
  DepUpdatedReplicas : Z
}.

(** [v1.ReplicationController]. *)
Record K8sReplicationController : Type := mkK8sReplicationController {
  RCMeta : ObjectMeta;
  RCTemplate : PodTemplateSpec;
  RCObservedGeneration : Z;
  RCReadyReplicas : Z;
  RCReplicas : Z
}.

(** [v1.Namespace]. *)
Record K8sNamespace : Type := mkK8sNamespace {
  NsMeta : ObjectMeta
}.

(** What [appendYAML] is handed as [interface{}]. *)
Inductive K8sObject : Type :=
| ObjNamespace (ns : K8sNamespace)
| ObjDeployment (d : K8sDeployment)
| ObjReplicationController (rc : K8sReplicationController)
| ObjService (s : K8sService).

(** A Go map read at a key it may not hold: the zero value. *)
Definition index (m : gmap string string) (k : string) : string :=
  default "" (m !! k).

(** ** Add-ons *)

(** [type namespacedLabeled interface]. *)
Class namespacedLabeled (A : Type) : Type := {
  GetNamespace : A → string;
  GetLabels : A → gmap string string
}.

#[global] Instance K8sService_namespacedLabeled : namespacedLabeled K8sService :=
  {| GetNamespace s := MNamespace (SvcMeta s); GetLabels s := MLabels (SvcMeta s) |}.
#[global] Instance K8sDeployment_namespacedLabeled : namespacedLabeled K8sDeployment :=
  {| GetNamespace d := MNamespace (DepMeta d); GetLabels d := MLabels (DepMeta d) |}.
#[global] Instance K8sReplicationController_namespacedLabeled :
    namespacedLabeled K8sReplicationController :=
  {| GetNamespace rc := MNamespace (RCMeta rc); GetLabels rc := MLabels (RCMeta rc) |}.
#[global] Instance ObjectMeta_namespacedLabeled : namespacedLabeled ObjectMeta :=
  {| GetNamespace m := MNamespace m; GetLabels m := MLabels m |}.

(** [func isAddon(obj namespacedLabeled) bool]. *)
Definition isAddon {A : Type} `{namespacedLabeled A} (obj : A) : bool :=
  if negb (String.eqb (GetNamespace obj) "kube-system") then false
  else
    let labels := GetLabels obj in
    if String.eqb (index labels "kubernetes.io/cluster-service") "true"
       || String.eqb (index labels "addonmanager.kubernetes.io/mode") "EnsureExists"
       || String.eqb (index labels "addonmanager.kubernetes.io/mode") "Reconcile"
    then true
    else false.

(** ** Pod controllers *)

(** [type podController struct]: a replication controller, a deployment,
    or neither (both nil). *)
Record podController : Type := mkPodController {
  ReplicationController : option K8sReplicationController;
  Deployment : option K8sDeployment
}.

(** [func (p podController) templateContainers()]. *)
Definition templateContainers (p : podController) : list Container :=
  let apiContainers :=
    match Deployment p with
    | Some d => TContainers (DepTemplate d)
    | None =>
        match ReplicationController p with
        | Some rc => TContainers (RCTemplate rc)
        | None => []
        end
    end in
  foldl (λ res c, res ++ [ {| Name := Name c; Image := Image c |} ]) [] apiContainers.

(** [func (p podController) templateLabels()]. *)
Definition templateLabels (p : podController) : gmap string string :=
  match Deployment p with
  | Some d => TLabels (DepTemplate d)
  | None =>
      match ReplicationController p with
      | Some rc => TLabels (RCTemplate rc)
      | None => ∅
      end
  end.

(** [func (p podController) matchedBy(selector)]: every pair of the
    selector is among the template's labels. *)
Definition matchedBy (p : podController) (selector : gmap string string) : bool :=
  let labels := templateLabels p in
  forallb (λ kv, String.eqb (index labels kv.1) kv.2) (map_to_list selector).

(** [func (p podController) status()]. *)
Definition status (p : podController) : string :=
  match Deployment p with
  | Some d =>
      if (MGeneration (DepMeta d) <=? DepObservedGeneration d)%Z then
        let updated := DepUpdatedReplicas d in
        let wanted := DepReplicas d in
        if (updated =? wanted)%Z then StatusReady
        else pretty updated +:+ " out of " +:+ pretty wanted +:+ " updated"
      else StatusUpdating
  | None =>
      match ReplicationController p with
      | Some rc =>
          if (MGeneration (RCMeta rc) <=? RCObservedGeneration rc)%Z then
            let ready := RCReadyReplicas rc in
            let total := RCReplicas rc in
            if (ready =? total)%Z then StatusReady
            else pretty ready +:+ " out of " +:+ pretty total +:+ " ready"
          else StatusUpdating
      | None => StatusUnknown
      end
  end.

(** [func metadataForService(s *v1.Service) map[string]string]. *)
Definition metadataForService (s : K8sService) : gmap string string :=
  <["created_at" := MCreationTimestamp (SvcMeta s)]>
    (<["resource_version" := MResourceVersion (SvcMeta s)]>
       (<["uid" := MUID (SvcMeta s)]>
          (<["type" := SvcType s]> ∅))).

(** Modelled from the spec: [flux.MakeServiceID] is declared outside the
    sources; a ServiceID prints as namespace/name. *)
Definition MakeServiceID (namespace name : string) : ServiceID :=
  namespace +:+ "/" +:+ name.

(** ** Sync definitions *)

(** [platform.SyncAction]: what to delete and what to apply for one
    resource. *)
Record SyncAction : Type := mkSyncAction {
  ResourceID : string;
  Delete : string;
  Apply : string
}.

(** [platform.SyncDef]. *)
Record SyncDef : Type := mkSyncDef {
  Actions : list SyncAction
}.

(** [platform.SyncError], a map from resource ID to error; the [error]
    that [Sync] returns is nil or such a map. *)
Abbreviation SyncError := (gmap string error).

(** [type apiObject struct]. *)
Record apiObject : Type := mkApiObject {
  bytes : string;
  Version : string;
  Kind : string;
  MetadataName : string;
  MetadataNamespace : string
}.

(** What a YAML manifest says of its resource: the YAML library parses
    the whole document, whatever the struct it fills keeps of it. *)
Record yamlDocument : Type := mkYamlDocument {
  docApiVersion : string;
  docKind : string;
  docMeta : ObjectMeta
}.

#[global] Instance yamlDocument_namespacedLabeled : namespacedLabeled yamlDocument :=
  {| GetNamespace d := MNamespace (docMeta d); GetLabels d := MLabels (docMeta d) |}.

(** [type Applier interface], acting on a cluster of type [W]. *)
Record Applier (W : Type) : Type := mkApplier {
  ApplierDelete : apiObject → W → W * option error;
  ApplierApply : apiObject → W → W * option error
}.
Arguments ApplierDelete {W} _ _ _.
Arguments ApplierApply {W} _ _ _.

(** The part of [extendedClient] the adapter calls: the [List] and [Get]
    calls of the typed clients, each returning its value and its error. *)
Record extendedClient : Type := mkExtendedClient {
  NamespacesList : list K8sNamespace * option error;
  ServicesList : string → list K8sService * option error;
  ServicesGet : string → string → K8sService * option error;
  DeploymentsList : string → list K8sDeployment * option error;
  ReplicationControllersList : string → list K8sReplicationController * option error
}.


Section Cluster.

(** The order in which the runtime ranges over maps. *)
Variable range : rangeOracle.

(** [c.client]. *)
Variable client : extendedClient.

(** [platform.ErrEmptySelector], [ErrNoMatching], [ErrMultipleMatching],
    declared outside the sources. *)
Variable ErrEmptySelector ErrNoMatching ErrMultipleMatching : error.

(** [ServiceID.Components], declared outside the sources. *)
Variable Components : ServiceID → string * string.

(** [k8syaml.Marshal]. *)
Variable Marshal : K8sObject → string * option error.

(** The YAML parser behind [yaml.Unmarshal]: the document, or the error. *)
Variable yamlParse : string → yamlDocument * option error.

(** The cluster the applier acts on, and [c.applier]. *)
Variable W : Type.
Variable applier : Applier W.

(** [func (c *Cluster) podControllersInNamespace(namespace)]. *)
Definition podControllersInNamespace (namespace : string) : outcome (list podController) :=
  match DeploymentsList client namespace with
  | (_, Some err) => Err (withMessage err "collecting deployments")
  | (deploylist, None) =>
      let res :=
        foldl (λ res d, if negb (isAddon d)
                        then res ++ [ {| ReplicationController := None; Deployment := Some d |} ]
                        else res) [] deploylist in
      match ReplicationControllersList client namespace with
      | (_, Some err) => Err (withMessage err "collecting replication controllers")
      | (rclist, None) =>
          Ok (foldl (λ res rc, if negb (isAddon rc)
                               then res ++ [ {| ReplicationController := Some rc;
                                                Deployment := None |} ]
                               else res) res rclist)
      end
  end.

(** [func matchController(service, controllers) (podController, error)]. *)
Definition matchController (service : K8sService) (controllers : list podController)
    : podController * option error :=
  let selector := SvcSelector service in
  let none := {| ReplicationController := None; Deployment := None |} in
  if bool_decide (size selector = 0) then (none, Some ErrEmptySelector)
  else
    let matching :=
      foldl (λ matching c, if matchedBy c selector then matching ++ [c] else matching)
            [] controllers in
    match matching with
    | [pc] => (pc, None)
    | [] => (none, Some ErrNoMatching)
    | _ => (none, Some ErrMultipleMatching)
    end.

(** [func (c *Cluster) makeService(ns, service, controllers) platform.Service]. *)
Definition makeService (ns : string) (service : K8sService)
    (controllers : list podController) : Service :=
  let id := MakeServiceID ns (MName (SvcMeta service)) in
  match matchController service controllers with
  | (_, Some err) =>
      {| ID := id; IP := SvcClusterIP service; Metadata := metadataForService service;
         SStatus := StatusUnknown;
         SContainers := {| Excuse := Error err; Containers := [] |} |}
  | (pc, None) =>
      {| ID := id; IP := SvcClusterIP service; Metadata := metadataForService service;
         SStatus := status pc;
         SContainers := {| Excuse := ""; Containers := templateContainers pc |} |}
  end.

(** The inner loop of [AllServices]: add-ons are passed over. *)
Definition listedServices (ns : string) (controllers : list podController)
    (items : list K8sService) (res : list Service) : list Service :=
  foldl (λ res service, if isAddon service then res
                        else res ++ [makeService ns service controllers]) res items.

(** The outer loop of [AllServices]. *)
Fixpoint allServicesLoop (namespaces : list string) (res : list Service)
    : outcome (list Service) :=
  match namespaces with
  | [] => Ok res
  | ns :: rest =>
      match podControllersInNamespace ns with
      | Err err => Err (withMessage err ("getting pod controllers for namespace " +:+ ns))
      | Panic => Panic
      | Ok controllers =>
          match ServicesList client ns with
          | (_, Some err) => Err (withMessage err ("getting services for namespace " +:+ ns))
          | (list, None) => allServicesLoop rest (listedServices ns controllers list res)
          end
      end
  end.

(** [func (c *Cluster) AllServices(namespace string) ([]platform.Service, error)]. *)
Definition AllServices (namespace : string) : outcome (list Service) :=
  if String.eqb namespace "" then
    match NamespacesList client with
    | (_, Some err) => Err (withMessage err "getting namespaces")
    | (list, None) =>
        allServicesLoop (foldl (λ namespaces ns, namespaces ++ [MName (NsMeta ns)]) [] list) []
    end
  else allServicesLoop [namespace] [].

(** The first loop of [SomeServices]: the names asked for, by namespace. *)
Definition namespacedServices (ids : list ServiceID) : gmap string (list string) :=
  foldl (λ m id, let '(ns, name) := Components id in
                 <[ns := default [] (m !! ns) ++ [name]]> m) ∅ ids.

(** The loop of [SomeServices] over the names of one namespace: a name
    that cannot be fetched, and an add-on, are passed over. *)
Definition namedServices (ns : string) (controllers : list podController)
    (names : list string) (res : list Service) : list Service :=
  foldl (λ res name,
           match ServicesGet client ns name with
           | (_, Some _) => res
           | (service, None) =>
               if isAddon service then res
               else res ++ [makeService ns service controllers]
           end) res names.

(** The loop of [SomeServices] over the namespaces, in range order. *)
Fixpoint someServicesLoop (entries : list (string * list string)) (res : list Service)
    : outcome (list Service) :=
  match entries with
  | [] => Ok res
  | (ns, names) :: rest =>
      match podControllersInNamespace ns with
      | Err err => Err (withMessage err ("finding pod controllers for namespace " +:+ ns))
      | Panic => Panic
      | Ok controllers => someServicesLoop rest (namedServices ns controllers names res)
      end
  end.

(** [func (c *Cluster) SomeServices(ids []flux.ServiceID) ([]platform.Service, error)]. *)
Definition SomeServices (ids : list ServiceID) : outcome (list Service) :=
  someServicesLoop (range _ (namespacedServices ids)) [].

(** The line feed. *)
Definition LF : string := String (Ascii.ascii_of_nat 10) "".

(** What [appendYAML] writes after the buffer for marshalled bytes. *)
Definition yamlHeader (apiVersion kind yamlBytes : string) : string :=
  "---" +:+ LF +:+ "apiVersion: " +:+ apiVersion +:+ LF +:+ "kind: " +:+ kind +:+ LF
  +:+ yamlBytes.

(** [func appendYAML(buffer, apiVersion, kind, object) error]. *)
Definition appendYAML (buffer : string) (apiVersion kind : string) (object : K8sObject)
    : string * option error :=
  match Marshal object with
  | (_, Some err) => (buffer, Some err)
  | (yamlBytes, None) => (buffer +:+ yamlHeader apiVersion kind yamlBytes, None)
  end.

(** The three inner loops of [Export] have one shape: pass over the
    add-ons, append the others, stop at the first marshalling error. *)
Fixpoint exportItems {A : Type} `{namespacedLabeled A} (apiVersion kind what : string)
    (object : A → K8sObject) (items : list A) (config : string)
    : string * option error :=
  match items with
  | [] => (config, None)
  | item :: rest =>
      if isAddon item then exportItems apiVersion kind what object rest config
      else
        match appendYAML config apiVersion kind (object item) with
        | (config, Some err) => (config, Some (withMessage err what))
        | (config, None) => exportItems apiVersion kind what object rest config
        end
  end.

(** The outer loop of [Export], over the namespaces. *)
Fixpoint exportLoop (namespaces : list K8sNamespace) (config : string)
    : string * option error :=
  match namespaces with
  | [] => (config, None)
  | ns :: rest =>
      match appendYAML config "v1" "Namespace" (ObjNamespace ns) with
      | (config, Some err) => (config, Some (withMessage err "marshalling namespace to YAML"))
      | (config, None) =>
      match DeploymentsList client (MName (NsMeta ns)) with
      | (_, Some err) => (config, Some (withMessage err "getting deployments"))
      | (deployments, None) =>
      match exportItems "extensions/v1beta1" "Deployment" "marshalling deployment to YAML"
              ObjDeployment deployments config with
      | (config, Some err) => (config, Some err)
      | (config, None) =>
      match ReplicationControllersList client (MName (NsMeta ns)) with
      | (_, Some err) => (config, Some (withMessage err "getting replication controllers"))
      | (rcs, None) =>
      match exportItems "v1" "ReplicationController"
              "marshalling replication controller to YAML"
              ObjReplicationController rcs config with
      | (config, Some err) => (config, Some err)
      | (config, None) =>
      match ServicesList client (MName (NsMeta ns)) with
      | (_, Some err) => (config, Some (withMessage err "getting services"))
      | (services, None) =>
      match exportItems "v1" "Service" "marshalling service to YAML"
              ObjService services config with
      | (config, Some err) => (config, Some err)
      | (config, None) => exportLoop rest config
      end end end end end end end
  end.

(** [func (c *Cluster) Export() ([]byte, error)]. *)
Definition Export : outcome string :=
  match NamespacesList client with
  | (_, Some err) => Err (withMessage err "getting namespaces")
  | (list, None) =>
      match exportLoop list "" with
      | (_, Some err) => Err err
      | (config, None) => Ok config
      end
  end.

(** [func definitionObj(bytes []byte)], returning the object and the error: the struct
    keeps the bytes and, of the document, the fields its tags name. *)
Definition definitionObj (bytes : string) : apiObject * option error :=
  match yamlParse bytes with
  | (_, Some err) =>
      ({| bytes := bytes; Version := ""; Kind := "";
          MetadataName := ""; MetadataNamespace := "" |}, Some err)
  | (doc, None) =>
      ({| bytes := bytes; Version := docApiVersion doc; Kind := docKind doc;
          MetadataName := MName (docMeta doc);
          MetadataNamespace := MNamespace (docMeta doc) |}, None)
  end.

(** One half of the loop body of [Sync]: parse the bytes, and hand the
    object to the applier if they parse. *)
Definition attempt (op : apiObject → W → W * option error) (bytes : string) (w : W)
    : W * option error :=
  let '(obj, err) := definitionObj bytes in
  match err with
  | None => op obj w
  | Some _ => (w, err)
  end.

(** The loop body of [Sync] for one action: the error, if any, is the one
    stored under the action's resource ID; a failed delete skips the
    apply of the same action ([continue]). *)
Definition syncAction (action : SyncAction) (w : W) : W * option error :=
  let '(w, err) :=
    if (0 <? String.length (Delete action))%nat
    then attempt (ApplierDelete applier) (Delete action) w
    else (w, None) in
  match err with
  | Some _ => (w, err)
  | None =>
      if (0 <? String.length (Apply action))%nat
      then attempt (ApplierApply applier) (Apply action) w
      else (w, None)
  end.

(** The loop of [Sync] over the actions. *)
Fixpoint syncActions (actions : list SyncAction) (w : W) (errs : SyncError)
    : W * SyncError :=
  match actions with
  | [] => (w, errs)
  | action :: rest =>
      let '(w, err) := syncAction action w in
      syncActions rest w
        (match err with
         | Some e => <[ResourceID action := e]> errs
         | None => errs
         end)
  end.

(** What the closure of [Sync] sends on [errc] once the loop is over, in
    order: [errs] when it is not empty, and then nil in every case. *)
Definition replies (errs : SyncError) : list (option SyncError) :=
  (if (0 <? size errs)%nat then [Some errs] else []) ++ [None].

(** The closure [Sync] puts on the action queue: its effect on the
    cluster and its sends on [errc]. *)
Definition syncClosure (spec : SyncDef) (w : W) : W * list (option SyncError) :=
  let '(w, errs) := syncActions (Actions spec) w ∅ in
  (w, replies errs).

(** [func (c *Cluster) Sync(spec platform.SyncDef) error], for a call
    that the consumer serves: the caller returns what it receives first
    on [errc].  What the closure sends after that is not the caller's any
    more; it stays with the consumer, see [step] below. *)
Definition Sync (spec : SyncDef) (w : W) : W * option SyncError :=
  let '(w, sent) := syncClosure spec w in
  (w, hd None sent).


(** ** The loop of Sync *)

(** The record of a batch: each action with the error it ended with, in
    the cluster left by the actions before it. *)
Fixpoint outcomes (actions : list SyncAction) (w : W) : list (SyncAction * option error) :=
  match actions with
  | [] => []
  | action :: rest =>
      let '(w', err) := syncAction action w in
      (action, err) :: outcomes rest w'
  end.

(** The errors an outcome record stores, last write wins. *)
Definition recorded (log : list (SyncAction * option error)) (errs : SyncError) : SyncError :=
  foldl (λ errs entry,
           match entry.2 with
           | Some e => <[ResourceID entry.1 := e]> errs
           | None => errs
           end) errs log.

Definition failed (entry : SyncAction * option error) : bool :=
  match entry.2 with Some _ => true | None => false end.

Lemma syncActions_recorded (actions : list SyncAction) (w : W) (errs : SyncError) :
  (syncActions actions w errs).2 = recorded (outcomes actions w) errs.
Proof.
  revert w errs. induction actions as [|a rest IH]; intros w errs; cbn; [done|].
  destruct (syncAction a w) as [w' err]. cbn. apply IH.
Qed.

Lemma syncActions_app (pre post : list SyncAction) (w : W) (errs : SyncError) :
  syncActions (pre ++ post) w errs =
    syncActions post (syncActions pre w errs).1 (syncActions pre w errs).2.
Proof.
  revert w errs. induction pre as [|a pre IH]; intros w errs; cbn; [done|].
  destruct (syncAction a w) as [w' err]. apply IH.
Qed.

Lemma syncActions_world (actions : list SyncAction) (w : W) (errs errs' : SyncError) :
  (syncActions actions w errs).1 = (syncActions actions w errs').1.
Proof.
  revert w errs errs'. induction actions as [|a rest IH]; intros w errs errs'; cbn; [done|].
  destruct (syncAction a w) as [w' err]. apply IH.
Qed.

Lemma outcomes_actions (actions : list SyncAction) (w : W) :
  (outcomes actions w).*1 = actions.
Proof.
  revert w. induction actions as [|a rest IH]; intros w; cbn; [done|].
  destruct (syncAction a w) as [w' err]. cbn. by rewrite IH.
Qed.

Lemma outcomes_app (pre post : list SyncAction) (w : W) :
  outcomes (pre ++ post) w =
    outcomes pre w ++ outcomes post (syncActions pre w ∅).1.
Proof.
  revert w. induction pre as [|a pre IH]; intros w; cbn; [done|].
  destruct (syncAction a w) as [w' err]. cbn. rewrite IH.
  by rewrite (syncActions_world pre w' ∅
                (match err with Some e => <[ResourceID a := e]> ∅ | None => ∅ end)).
Qed.

Lemma recorded_dom (log : list (SyncAction * option error)) (errs : SyncError) :
  dom (recorded log errs) =
    dom errs ∪ list_to_set (ResourceID ∘ fst <$> filter (λ entry, failed entry = true) log).
Proof.
  unfold recorded. revert errs.
  induction log as [|[a [e|]] log IH]; intros errs; cbn [foldl].
  - cbn. by rewrite union_empty_r_L.
  - rewrite IH, filter_cons_True by done. cbn. rewrite dom_insert_L.
    by rewrite (comm_L (∪) {[ResourceID a]} (dom errs)), (assoc_L (∪)).
  - rewrite IH, filter_cons_False by done. done.
Qed.

Lemma recorded_lookup (log : list (SyncAction * option error)) (errs : SyncError)
    (rid : string) (e : error) :
  recorded log errs !! rid = Some e →
  errs !! rid = Some e ∨ ∃ a, (a, Some e) ∈ log ∧ ResourceID a = rid.
Proof.
  unfold recorded. revert errs.
  induction log as [|[a [e'|]] log IH]; intros errs; cbn [foldl].
  - by left.
  - intros [Hin|(a' & Hin & Heq)]%IH.
    + cbn in Hin. destruct (decide (ResourceID a = rid)) as [Hrid|Hne].
      * rewrite <- Hrid, lookup_insert_eq in Hin. injection Hin as ->.
        right. exists a. split; [by left|done].
      * rewrite lookup_insert_ne in Hin by done. by left.
    + right. exists a'. split; [by right|done].
  - intros [Hin|(a' & Hin & Heq)]%IH; [by left|].
    right. exists a'. split; [by right|done].
Qed.

Lemma recorded_lookup_fresh (log : list (SyncAction * option error)) (errs : SyncError)
    (rid : string) :
  rid ∉ (ResourceID ∘ fst <$> log) →
  recorded log errs !! rid = errs !! rid.
Proof.
  unfold recorded. revert errs.
  induction log as [|[b [e'|]] log IH]; intros errs Hb; cbn [foldl]; [done| |].
  - rewrite fmap_cons, not_elem_of_cons in Hb. destruct Hb as [Hne Hb].
    rewrite IH by done. cbn. by rewrite lookup_insert_ne.
  - rewrite fmap_cons, not_elem_of_cons in Hb. destruct Hb as [Hne Hb].
    by rewrite IH.
Qed.

Lemma recorded_lookup_NoDup (log : list (SyncAction * option error)) (errs : SyncError)
    (a : SyncAction) (e : error) :
  NoDup (ResourceID ∘ fst <$> log) →
  (a, Some e) ∈ log →
  recorded log errs !! ResourceID a = Some e.
Proof.
  revert errs.
  induction log as [|[a' r] log IH]; intros errs Hnd Hin.
  - by apply elem_of_nil in Hin.
  - rewrite fmap_cons in Hnd. apply NoDup_cons in Hnd as [Hfresh Hnd].
    apply elem_of_cons in Hin as [Heq|Hin].
    + injection Heq as <- <-.
      change (recorded ((a, Some e) :: log) errs)
        with (recorded log (<[ResourceID a := e]> errs)).
      rewrite recorded_lookup_fresh by done. by rewrite lookup_insert_eq.
    + change (recorded ((a', r) :: log) errs)
        with (recorded log (match r with
                            | Some e => <[ResourceID a' := e]> errs
                            | None => errs
                            end)).
      by apply IH.
Qed.

Lemma recorded_size_NoDup (log : list (SyncAction * option error)) :
  NoDup (ResourceID ∘ fst <$> log) →
  size (recorded log ∅) = length (filter (λ entry, failed entry = true) log).
Proof.
  intros Hnd.
  rewrite <- size_dom, recorded_dom, dom_empty_L, union_empty_l_L.
  rewrite size_list_to_set, length_fmap; [done|].
  assert (Hsub : filter (λ entry, failed entry = true) log `sublist_of` log)
    by apply sublist_filter.
  eapply sublist_NoDup; [exact Hnd|]. by apply fmap_sublist.
Qed.


Lemma replies_hd (errs : SyncError) :
  hd None (replies errs) = if decide (errs = ∅) then None else Some errs.
Proof.
  unfold replies. destruct (decide (errs = ∅)) as [->|Hne].
  - by rewrite map_size_empty.
  - assert (size errs ≠ 0) by (by intros ?%map_size_empty_inv).
    destruct (size errs) eqn:Hsz; [done|]. done.
Qed.

(** C7 (amended): in every batch each action is run, in the cluster
    left by the actions before it, whether or not those failed (the
    record of the batch has one entry per action, in order); the
    SyncError map has a
    key exactly for the resource IDs of the failed actions and each of
    its entries is the error of a failed action with that resource ID;
    when the resource IDs of the batch are distinct the map has exactly
    as many entries as there are failed actions, each under its action's
    resource ID; and Sync returns that map, or nil when no action
    failed. *)
Theorem Sync_aggregates_failures (spec : SyncDef) (w : W) :
  let log := outcomes (Actions spec) w in
  let errs := (syncActions (Actions spec) w ∅).2 in
  log.*1 = Actions spec ∧
  (∀ pre action post, Actions spec = pre ++ action :: post →
     log !! length pre =
       Some (action, (syncAction action (syncActions pre w ∅).1).2)) ∧
  (∀ rid, rid ∈ dom errs ↔ ∃ a e, (a, Some e) ∈ log ∧ ResourceID a = rid) ∧
  (∀ rid e, errs !! rid = Some e → ∃ a, (a, Some e) ∈ log ∧ ResourceID a = rid) ∧
  (NoDup (ResourceID <$> Actions spec) →
     size errs = length (filter (λ entry, failed entry = true) log) ∧
     ∀ a e, (a, Some e) ∈ log → errs !! ResourceID a = Some e) ∧
  Sync spec w =
    ((syncActions (Actions spec) w ∅).1, if decide (errs = ∅) then None else Some errs).
Proof.
  intros log errs.
  assert (Herrs : errs = recorded log ∅) by apply syncActions_recorded.
  split; [apply outcomes_actions|].
  split; [|split; [|split; [|split]]].
  - intros pre action post Heq. unfold log. rewrite Heq, outcomes_app.
    assert (Hlen : length (outcomes pre w) = length pre)
      by (rewrite <- (outcomes_actions pre w) at 2; by rewrite length_fmap).
    rewrite lookup_app_r by lia. rewrite Hlen, Nat.sub_diag.
    cbn. by destruct (syncAction action (syncActions pre w ∅).1).
  - intros rid. rewrite Herrs, recorded_dom, dom_empty_L, union_empty_l_L.
    rewrite elem_of_list_to_set, list_elem_of_fmap. split.
    + intros ([a r] & -> & Hin). apply list_elem_of_filter in Hin as [Hf Hin].
      destruct r as [e|]; [|done]. by exists a, e.
    + intros (a & e & Hin & <-). exists (a, Some e). split; [done|].
      by apply list_elem_of_filter.
  - intros rid e. rewrite Herrs. intros [Hin|Hin]%recorded_lookup; [|done].
    by rewrite lookup_empty in Hin.
  - intros Hnd.
    assert (Hnd' : NoDup (ResourceID ∘ fst <$> log)).
    { rewrite list_fmap_compose. unfold log. by rewrite outcomes_actions. }
    rewrite Herrs. split; [by apply recorded_size_NoDup|].
    intros a e Hin. by apply recorded_lookup_NoDup.
  - unfold Sync, syncClosure, errs.
    destruct (syncActions (Actions spec) w ∅) as [w' errs']. cbn [fst snd].
    by rewrite replies_hd.
Qed.

(** ** The action queue *)

(** The consumer goroutine [loop]: waiting for a closure on [actionc],
    or inside the closure of caller [caller], blocked on the first of
    the sends on that caller's [errc] that remain. *)
Inductive consumer : Type :=
| Ranging
| Sending (caller : nat) (pending : list (option SyncError)).

(** A goroutine that called [Sync]: blocked on [c.actionc <- f], blocked
    on [<-errc], or back from the call. *)
Inductive producer : Type :=
| Submitting (spec : SyncDef)
| Receiving
| Returned (ret : option SyncError).

Record system : Type := mkSystem {
  world : W;
  loop : consumer;
  callers : list producer
}.

(** Where the consumer stands with [pending] sends left: the closure
    returns after its last send and the consumer ranges again. *)
Definition proceed (caller : nat) (pending : list (option SyncError)) : consumer :=
  match pending with
  | [] => Ranging
  | _ => Sending caller pending
  end.

(** Both channels are unbuffered: a send and a receive happen together.
    [step_dequeue]: the consumer takes a closure and runs it up to its
    first send.  [step_reply]: the closure's next send on [errc] meets
    the caller's only receive. *)
Inductive step : system → system → Prop :=
| step_dequeue (s : system) (i : nat) (spec : SyncDef) :
    loop s = Ranging →
    callers s !! i = Some (Submitting spec) →
    step s {| world := (syncClosure spec (world s)).1;
              loop := proceed i (syncClosure spec (world s)).2;
              callers := <[i := Receiving]> (callers s) |}
| step_reply (s : system) (i : nat) (r : option SyncError)
    (rest : list (option SyncError)) :
    loop s = Sending i (r :: rest) →
    callers s !! i = Some Receiving →
    step s {| world := world s;
              loop := proceed i rest;
              callers := <[i := Returned r]> (callers s) |}.

(** The consumer is stuck in the closure of a caller that has returned. *)
Definition wedged (s : system) : Prop :=
  ∃ i pending ret, loop s = Sending i pending ∧ callers s !! i = Some (Returned ret).

Lemma wedged_no_step (s s' : system) : wedged s → ¬ step s s'.
Proof.
  intros (i & pending & ret & Hloop & Hret) Hstep.
  destruct Hstep as [s j spec Hr _|s j r rest Hs Hrecv].
  - congruence.
  - rewrite Hloop in Hs. injection Hs as -> ->. congruence.
Qed.

(** A batch without failures: one reply, and the consumer ranges again. *)
Lemma Sync_clean_batch_one_reply (s : system) (i : nat) (spec : SyncDef) :
  loop s = Ranging →
  callers s !! i = Some (Submitting spec) →
  (syncActions (Actions spec) (world s) ∅).2 = ∅ →
  ∃ s1 s2, step s s1 ∧ step s1 s2 ∧
    callers s2 !! i = Some (Returned None) ∧ loop s2 = Ranging.
Proof.
  intros Hloop Hsub Herrs.
  pose proof (step_dequeue s i spec Hloop Hsub) as H1.
  unfold syncClosure in H1.
  destruct (syncActions (Actions spec) (world s) ∅) as [w' errs]. cbn in Herrs. subst errs.
  cbn in H1. eexists. eexists. split; [exact H1|]. split.
  - eapply (step_reply _ i None []); cbn; [done|].
    apply list_lookup_insert_eq. by eapply lookup_lt_Some.
  - cbn. split; [|done].
    rewrite list_insert_insert_eq. apply list_lookup_insert_eq. by eapply lookup_lt_Some.
Qed.

(** A batch with a failure: the caller gets the errors, and the consumer
    is left blocked on the second send, for good. *)
Lemma Sync_failing_batch_wedges (s : system) (i : nat) (spec : SyncDef) :
  loop s = Ranging →
  callers s !! i = Some (Submitting spec) →
  (syncActions (Actions spec) (world s) ∅).2 ≠ ∅ →
  ∃ s1 s2, step s s1 ∧ step s1 s2 ∧
    callers s2 !! i = Some (Returned (Some (syncActions (Actions spec) (world s) ∅).2)) ∧
    loop s2 = Sending i [None] ∧
    (∀ j, j ≠ i → callers s2 !! j = callers s !! j) ∧
    wedged s2 ∧ ∀ s3, ¬ step s2 s3.
Proof.
  intros Hloop Hsub Herrs.
  pose proof (step_dequeue s i spec Hloop Hsub) as H1.
  unfold syncClosure in H1.
  destruct (syncActions (Actions spec) (world s) ∅) as [w' errs]. cbn in Herrs.
  cbn in H1. unfold replies in H1.
  assert (size errs ≠ 0) by (by intros ?%map_size_empty_inv).
  destruct (size errs) eqn:Hsz; [done|]. cbn in H1.
  assert (Hi : i < length (callers s)) by (by eapply lookup_lt_Some).
  eexists. eexists. split; [exact H1|]. split.
  - eapply (step_reply _ i (Some errs) [None]); cbn; [done|].
    by apply list_lookup_insert_eq.
  - cbn.
    assert (Hret : <[i := Returned (Some errs)]> (<[i := Receiving]> (callers s)) !! i =
              Some (Returned (Some errs))).
    { rewrite list_insert_insert_eq. by apply list_lookup_insert_eq. }
    split; [exact Hret|]. split; [done|]. split.
    + intros j Hj. by rewrite !list_lookup_insert_ne.
    + assert (Hw : wedged {| world := w'; loop := Sending i [None];
                             callers := <[i := Returned (Some errs)]>
                                          (<[i := Receiving]> (callers s)) |}).
      { exists i, [None], (Some errs). by split. }
      split; [exact Hw|]. intros s3. by apply wedged_no_step.
Qed.


(** ** What the queries show *)

Lemma append_assoc (a b c : string) : (a +:+ b) +:+ c = a +:+ (b +:+ c).
Proof.
  induction a as [|x a IH]; [done|].
  change (String x ((a +:+ b) +:+ c) = String x (a +:+ (b +:+ c))).
  by rewrite IH.
Qed.

Lemma append_nil_r (a : string) : a +:+ "" = a.
Proof.
  induction a as [|x a IH]; [done|].
  change (String x (a +:+ "") = String x a). by rewrite IH.
Qed.

Lemma foldl_snoc_filter {A B : Type} (keep : A → bool) (f : A → B)
    (l : list A) (acc : list B) :
  foldl (λ res x, if keep x then res ++ [f x] else res) acc l =
    acc ++ (f <$> filter (λ x, keep x = true) l).
Proof.
  revert acc. induction l as [|x l IH]; intros acc; cbn [foldl].
  - by rewrite app_nil_r.
  - rewrite IH, filter_cons. destruct (keep x) eqn:Hk.
    + rewrite decide_True by done. cbn. by rewrite <- app_assoc.
    + by rewrite decide_False by done.
Qed.

(** The services, deployments and replication controllers of a namespace
    that are not add-ons. *)
Definition visibleServices (ns : string) : list K8sService :=
  filter (λ s, isAddon s = false) (ServicesList client ns).1.
Definition visibleDeployments (ns : string) : list K8sDeployment :=
  filter (λ d, isAddon d = false) (DeploymentsList client ns).1.
Definition visibleReplicationControllers (ns : string) : list K8sReplicationController :=
  filter (λ rc, isAddon rc = false) (ReplicationControllersList client ns).1.

(** The pod controllers built from them. *)
Definition visibleControllers (ns : string) : list podController :=
  ((λ d, {| ReplicationController := None; Deployment := Some d |})
     <$> visibleDeployments ns) ++
  ((λ rc, {| ReplicationController := Some rc; Deployment := None |})
     <$> visibleReplicationControllers ns).

(** Enumeration as the specification has it: add-ons are invisible. *)
Definition enumerated (namespaces : list string) : list Service :=
  ns ← namespaces; (λ s, makeService ns s (visibleControllers ns)) <$> visibleServices ns.

Lemma filter_negb_true {A : Type} (p : A → bool) (l : list A) :
  filter (λ x, negb (p x) = true) l = filter (λ x, p x = false) l.
Proof.
  apply list_filter_iff. intros x. by rewrite negb_true_iff.
Qed.

Lemma podControllersInNamespace_visible (ns : string) (controllers : list podController) :
  podControllersInNamespace ns = Ok controllers → controllers = visibleControllers ns.
Proof.
  unfold podControllersInNamespace, visibleControllers, visibleDeployments,
    visibleReplicationControllers.
  destruct (DeploymentsList client ns) as [deploylist [err|]]; [done|].
  destruct (ReplicationControllersList client ns) as [rclist [err|]]; [done|].
  intros [= <-]. cbn [fst].
  rewrite (foldl_snoc_filter (λ rc, negb (isAddon rc))
             (λ rc, {| ReplicationController := Some rc; Deployment := None |})).
  rewrite (foldl_snoc_filter (λ d, negb (isAddon d))
             (λ d, {| ReplicationController := None; Deployment := Some d |})).
  by rewrite !filter_negb_true.
Qed.

Lemma listedServices_visible ns controllers items res :
  listedServices ns controllers items res =
    res ++ ((λ s, makeService ns s controllers) <$> filter (λ s, isAddon s = false) items).
Proof.
  unfold listedServices. revert res.
  induction items as [|s items IH]; intros res; cbn [foldl].
  - by rewrite app_nil_r.
  - rewrite IH, filter_cons. destruct (isAddon s) eqn:Ha.
    + by rewrite decide_False by done.
    + rewrite decide_True by done. cbn. by rewrite <- app_assoc.
Qed.

Lemma allServicesLoop_enumerated namespaces res res' :
  allServicesLoop namespaces res = Ok res' → res' = res ++ enumerated namespaces.
Proof.
  revert res. induction namespaces as [|ns rest IH]; intros res; cbn.
  - intros [= <-]. by rewrite app_nil_r.
  - destruct (podControllersInNamespace ns) as [controllers|e|] eqn:Hpc; [|done..].
    apply podControllersInNamespace_visible in Hpc. subst controllers.
    unfold visibleServices at 1.
    destruct (ServicesList client ns) as [list [err|]]; [done|].
    intros ->%IH. rewrite listedServices_visible. by rewrite <- app_assoc.
Qed.

(** The namespaces [AllServices] goes through. *)
Definition namespacesOf (namespace : string) : list string :=
  if String.eqb namespace "" then MName ∘ NsMeta <$> (NamespacesList client).1
  else [namespace].

Lemma AllServices_enumerated namespace res :
  AllServices namespace = Ok res → res = enumerated (namespacesOf namespace).
Proof.
  unfold AllServices, namespacesOf.
  destruct (String.eqb namespace "").
  - destruct (NamespacesList client) as [list [err|]]; [done|].
    rewrite (foldl_snoc_fmap (λ ns, MName (NsMeta ns))). cbn [fst app].
    by intros ->%allServicesLoop_enumerated.
  - by intros ->%allServicesLoop_enumerated.
Qed.

(** What [SomeServices] shows for a name of a namespace: the service, if
    it can be fetched and is not an add-on. *)
Definition fetched (ns name : string) : option Service :=
  match ServicesGet client ns name with
  | (_, Some _) => None
  | (service, None) =>
      if isAddon service then None
      else Some (makeService ns service (visibleControllers ns))
  end.

Lemma namedServices_fetched ns names res :
  namedServices ns (visibleControllers ns) names res = res ++ omap (fetched ns) names.
Proof.
  unfold namedServices. revert res.
  induction names as [|name names IH]; intros res; cbn [foldl].
  - by rewrite app_nil_r.
  - rewrite IH.
    change (omap (fetched ns) (name :: names))
      with (match fetched ns name with
            | Some s => s :: omap (fetched ns) names
            | None => omap (fetched ns) names
            end).
    unfold fetched at 2.
    destruct (ServicesGet client ns name) as [service [err|]]; [done|].
    destruct (isAddon service); [done|]. by rewrite <- app_assoc.
Qed.

Lemma someServicesLoop_fetched entries res res' :
  someServicesLoop entries res = Ok res' →
  res' = res ++ (entry ← entries; omap (fetched entry.1) entry.2).
Proof.
  revert res. induction entries as [|[ns names] rest IH]; intros res; cbn.
  - intros [= <-]. by rewrite app_nil_r.
  - destruct (podControllersInNamespace ns) as [controllers|e|] eqn:Hpc; [|done..].
    apply podControllersInNamespace_visible in Hpc. subst controllers.
    intros ->%IH. rewrite namedServices_fetched. by rewrite <- app_assoc.
Qed.

Lemma SomeServices_fetched ids res :
  SomeServices ids = Ok res →
  res = (entry ← range _ (namespacedServices ids); omap (fetched entry.1) entry.2).
Proof. unfold SomeServices. by intros ->%someServicesLoop_fetched. Qed.

(** The documents of an export, as the specification has it: per
    namespace, the namespace itself and then the deployments, replication
    controllers and services that are not add-ons. *)
Definition document (apiVersion kind : string) (object : K8sObject) : string :=
  yamlHeader apiVersion kind (Marshal object).1.

Definition exportedDocuments (namespaces : list K8sNamespace) : list string :=
  ns ← namespaces;
  document "v1" "Namespace" (ObjNamespace ns) ::
  (document "extensions/v1beta1" "Deployment" ∘ ObjDeployment
     <$> visibleDeployments (MName (NsMeta ns))) ++
  (document "v1" "ReplicationController" ∘ ObjReplicationController
     <$> visibleReplicationControllers (MName (NsMeta ns))) ++
  (document "v1" "Service" ∘ ObjService <$> visibleServices (MName (NsMeta ns))).

Definition concatenated (docs : list string) : string :=
  foldr String.append "" docs.

Lemma concatenated_app (l1 l2 : list string) :
  concatenated (l1 ++ l2) = concatenated l1 +:+ concatenated l2.
Proof.
  induction l1 as [|d l1 IH]; [done|].
  change (concatenated ((d :: l1) ++ l2)) with (d +:+ concatenated (l1 ++ l2)).
  change (concatenated (d :: l1)) with (d +:+ concatenated l1).
  by rewrite IH, append_assoc.
Qed.

Lemma appendYAML_document config apiVersion kind object config' :
  appendYAML config apiVersion kind object = (config', None) →
  config' = config +:+ document apiVersion kind object.
Proof.
  unfold appendYAML, document.
  destruct (Marshal object) as [yamlBytes [err|]]; [done|]. by intros [= <-].
Qed.

Lemma exportItems_documents {A : Type} `{namespacedLabeled A}
    (apiVersion kind what : string) (object : A → K8sObject)
    (items : list A) (config config' : string) :
  exportItems apiVersion kind what object items config = (config', None) →
  config' = config +:+
    concatenated (document apiVersion kind ∘ object
                    <$> filter (λ item, isAddon item = false) items).
Proof.
  revert config. induction items as [|item rest IH]; intros config; cbn [exportItems].
  - intros [= <-]. cbn. by rewrite append_nil_r.
  - rewrite filter_cons. destruct (isAddon item) eqn:Ha.
    + rewrite decide_False by done. apply IH.
    + rewrite decide_True by done.
      destruct (appendYAML config apiVersion kind (object item)) as [config1 [err|]] eqn:Hy;
        [done|].
      apply appendYAML_document in Hy. subst config1.
      intros ->%IH. cbn. by rewrite append_assoc.
Qed.

Lemma exportLoop_documents namespaces config config' :
  exportLoop namespaces config = (config', None) →
  config' = config +:+ concatenated (exportedDocuments namespaces).
Proof.
  revert config. induction namespaces as [|ns rest IH]; intros config; cbn [exportLoop].
  - intros [= <-]. cbn. by rewrite append_nil_r.
  - destruct (appendYAML config "v1" "Namespace" (ObjNamespace ns))
      as [config1 [err|]] eqn:H1; [done|].
    apply appendYAML_document in H1. subst config1.
    unfold exportedDocuments. cbn [mbind list_bind]. fold (exportedDocuments rest).
    unfold visibleDeployments, visibleReplicationControllers, visibleServices.
    destruct (DeploymentsList client (MName (NsMeta ns))) as [deployments [err|]]; [done|].
    destruct (exportItems _ _ _ ObjDeployment deployments _) as [config2 [err|]] eqn:H2;
      [done|].
    apply exportItems_documents in H2. subst config2.
    destruct (ReplicationControllersList client (MName (NsMeta ns))) as [rcs [err|]]; [done|].
    destruct (exportItems _ _ _ ObjReplicationController rcs _) as [config3 [err|]] eqn:H3;
      [done|].
    apply exportItems_documents in H3. subst config3.
    destruct (ServicesList client (MName (NsMeta ns))) as [services [err|]]; [done|].
    destruct (exportItems _ _ _ ObjService services _) as [config4 [err|]] eqn:H4; [done|].
    apply exportItems_documents in H4. subst config4.
    intros ->%IH. cbn [fst app concatenated foldr].
    rewrite !concatenated_app. cbn [concatenated foldr].
    by rewrite !append_assoc.
Qed.

Lemma Export_documents config :
  Export = Ok config →
  config = concatenated (exportedDocuments (NamespacesList client).1).
Proof.
  unfold Export.
  destruct (NamespacesList client) as [list [err|]]; [done|].
  destruct (exportLoop list "") as [config' [err|]] eqn:Hloop; [done|].
  intros [= <-]. by apply exportLoop_documents in Hloop.
Qed.


Lemma isAddon_true {A : Type} `{namespacedLabeled A} (obj : A) :
  isAddon obj = true ↔
  GetNamespace obj = "kube-system" ∧
  (index (GetLabels obj) "kubernetes.io/cluster-service" = "true" ∨
   index (GetLabels obj) "addonmanager.kubernetes.io/mode" = "EnsureExists" ∨
   index (GetLabels obj) "addonmanager.kubernetes.io/mode" = "Reconcile").
Proof.
  unfold isAddon.
  destruct (String.eqb_spec (GetNamespace obj) "kube-system") as [Hns|Hns]; cbn [negb].
  - destruct (String.eqb_spec (index (GetLabels obj) "kubernetes.io/cluster-service") "true");
    destruct (String.eqb_spec (index (GetLabels obj) "addonmanager.kubernetes.io/mode")
                "EnsureExists");
    destruct (String.eqb_spec (index (GetLabels obj) "addonmanager.kubernetes.io/mode")
                "Reconcile"); cbn [orb];
      first [ by (split; [intros _; split; [done|]; auto | done])
            | (split; [done|]; intros [_ [?|[?|?]]]; done) ].
  - split; [done|]. by intros [? _].
Qed.

(** C2 (amended): every service, deployment and replication controller
    in the kube-system namespace bearing one of the labels
    kubernetes.io/cluster-service=true,
    addonmanager.kubernetes.io/mode=EnsureExists or
    addonmanager.kubernetes.io/mode=Reconcile is an add-on for isAddon,
    and the add-ons are absent from the output of AllServices and of
    SomeServices (which is built from the other services, matched against
    the controllers that are not add-ons) and from the bundle of Export
    (which holds, per namespace, the namespace and then the deployments,
    replication controllers and services that are not add-ons). *)
Theorem addons_invisible_to_queries :
  (∀ (A : Type) (I : namespacedLabeled A) (obj : A),
     isAddon obj = true ↔
     GetNamespace obj = "kube-system" ∧
     (index (GetLabels obj) "kubernetes.io/cluster-service" = "true" ∨
      index (GetLabels obj) "addonmanager.kubernetes.io/mode" = "EnsureExists" ∨
      index (GetLabels obj) "addonmanager.kubernetes.io/mode" = "Reconcile")) ∧
  (∀ ns, Forall (λ s, isAddon s = false) (visibleServices ns) ∧
         Forall (λ d, isAddon d = false) (visibleDeployments ns) ∧
         Forall (λ rc, isAddon rc = false) (visibleReplicationControllers ns)) ∧
  (∀ namespace res, AllServices namespace = Ok res →
     res = enumerated (namespacesOf namespace) ∧
     ∀ s, s ∈ res →
       ∃ ns service, service ∈ (ServicesList client ns).1 ∧ isAddon service = false ∧
         s = makeService ns service (visibleControllers ns)) ∧
  (∀ ids res, SomeServices ids = Ok res →
     ∀ s, s ∈ res →
       ∃ ns name service, ServicesGet client ns name = (service, None) ∧
         isAddon service = false ∧
         s = makeService ns service (visibleControllers ns)) ∧
  (∀ config, Export = Ok config →
     config = concatenated (exportedDocuments (NamespacesList client).1)).
Proof.
  split; [intros A I obj; apply isAddon_true|].
  split; [|split; [|split]].
  - intros ns. unfold visibleServices, visibleDeployments, visibleReplicationControllers.
    repeat split; apply Forall_forall; intros x Hx;
      apply list_elem_of_filter in Hx as [Hx _]; exact Hx.
  - intros namespace res Hres. apply AllServices_enumerated in Hres.
    split; [done|]. subst res. intros s Hs.
    unfold enumerated in Hs. apply list_elem_of_bind in Hs as (ns & Hs & _).
    apply list_elem_of_fmap in Hs as (service & -> & Hin).
    apply list_elem_of_filter in Hin as [Ha Hin].
    by exists ns, service.
  - intros ids res Hres. apply SomeServices_fetched in Hres. subst res.
    intros s Hs. apply list_elem_of_bind in Hs as ([ns names] & Hs & _).
    apply list_elem_of_omap in Hs as (name & _ & Hf). cbn in Hf.
    unfold fetched in Hf.
    destruct (ServicesGet client ns name) as [service [err|]] eqn:Hget; [done|].
    destruct (isAddon service) eqn:Ha; [done|]. injection Hf as <-.
    by exists ns, name, service.
  - apply Export_documents.
Qed.


(** ** Matching services and controllers *)

Lemma forallb_true_iff {A : Type} (f : A → bool) (l : list A) :
  forallb f l = true ↔ ∀ x, x ∈ l → f x = true.
Proof.
  induction l as [|y l IH]; cbn [forallb].
  - split; [by intros _ x ?%elem_of_nil|done].
  - rewrite andb_true_iff, IH. split.
    + intros [Hy Hl] x [->|Hx]%elem_of_cons; [done|by apply Hl].
    + intros Hall. split; [apply Hall; by left|]. intros x Hx. apply Hall. by right.
Qed.

Lemma index_Some (m : gmap string string) (k v : string) :
  m !! k = Some v → index m k = v.
Proof. unfold index. by intros ->. Qed.

(** A controller is matched by a selector exactly when each pair of the
    selector is read back from the labels of the controller's pod
    template, an absent label reading as the empty string.  So a
    selector that is part of the labels matches, the empty selector
    matches every controller, and for selectors without empty values
    matching is the same as being part of the labels. *)
Theorem matchedBy_selector_within_labels (p : podController)
    (selector : gmap string string) :
  (matchedBy p selector = true ↔
     ∀ k v, selector !! k = Some v → index (templateLabels p) k = v) ∧
  (selector ⊆ templateLabels p → matchedBy p selector = true) ∧
  matchedBy p ∅ = true ∧
  ((∀ k, selector !! k ≠ Some "") →
     (matchedBy p selector = true ↔ selector ⊆ templateLabels p)).
Proof.
  assert (Hiff : ∀ sel, matchedBy p sel = true ↔
            ∀ k v, sel !! k = Some v → index (templateLabels p) k = v).
  { intros sel. unfold matchedBy. rewrite forallb_true_iff. split.
    - intros Hall k v Hkv. apply String.eqb_eq.
      apply (Hall (k, v)). by apply elem_of_map_to_list.
    - intros Hall [k v] Hkv. apply String.eqb_eq.
      apply Hall. by apply elem_of_map_to_list. }
  assert (Hsub : ∀ sel, sel ⊆ templateLabels p → matchedBy p sel = true).
  { intros sel Hs. apply Hiff. intros k v Hkv. apply index_Some.
    by eapply lookup_weaken. }
  split; [apply Hiff|]. split; [apply Hsub|]. split.
  - apply Hiff. intros k v. by rewrite lookup_empty.
  - intros Hne. split; [|apply Hsub].
    intros Hm. apply map_subseteq_spec. intros k v Hkv.
    pose proof (proj1 (Hiff selector) Hm k v Hkv) as Hidx. unfold index in Hidx.
    destruct (templateLabels p !! k) as [v'|]; cbn in Hidx; [by subst|].
    subst v. by destruct (Hne k).
Qed.

Lemma matching_filter (selector : gmap string string) (controllers acc : list podController) :
  foldl (λ matching c, if matchedBy c selector then matching ++ [c] else matching)
        acc controllers =
  acc ++ filter (λ c, matchedBy c selector = true) controllers.
Proof.
  rewrite (foldl_snoc_filter (λ c, matchedBy c selector) id). by rewrite list_fmap_id.
Qed.

(** [matchController] gives a controller and no error exactly when the
    selector is not empty and one single controller of the list is
    matched by it, and then it gives that controller.  An empty selector
    is refused with ErrEmptySelector although it would match every
    controller; no match gives ErrNoMatching, several give
    ErrMultipleMatching; with an error the controller returned is the
    empty one. *)
Theorem matchController_unique_match (service : K8sService)
    (controllers : list podController) :
  let selector := SvcSelector service in
  let matching := filter (λ c, matchedBy c selector = true) controllers in
  let none := {| ReplicationController := None; Deployment := None |} in
  ((matchController service controllers).2 = None ↔
     selector ≠ ∅ ∧ length matching = 1) ∧
  (∀ pc, matchController service controllers = (pc, None) →
     matching = [pc] ∧ pc ∈ controllers ∧ matchedBy pc selector = true) ∧
  (selector = ∅ →
     matchController service controllers = (none, Some ErrEmptySelector)) ∧
  (selector ≠ ∅ → matching = [] →
     matchController service controllers = (none, Some ErrNoMatching)) ∧
  (selector ≠ ∅ → 1 < length matching →
     matchController service controllers = (none, Some ErrMultipleMatching)).
Proof.
  intros selector matching none.
  assert (Hform : matchController service controllers =
            if bool_decide (size selector = 0) then (none, Some ErrEmptySelector)
            else match matching with
                 | [pc] => (pc, None)
                 | [] => (none, Some ErrNoMatching)
                 | _ => (none, Some ErrMultipleMatching)
                 end).
  { unfold matchController. fold selector. case_bool_decide; [done|].
    by rewrite matching_filter. }
  assert (Hsize : size selector = 0 ↔ selector = ∅) by apply map_size_empty_iff.
  rewrite Hform. split; [|split; [|split; [|split]]].
  - split.
    + case_bool_decide as Hs; [done|]. intros Hnone.
      split; [by rewrite <- Hsize|]. by destruct matching as [|pc [|pc' l]].
    + intros [Hne Hlen]. rewrite bool_decide_eq_false_2 by (by rewrite Hsize).
      by destruct matching as [|pc [|pc' l]].
  - intros pc Heq.
    assert (Hone : matching = [pc]).
    { case_bool_decide; [done|].
      destruct matching as [|pc' [|pc'' l]]; [done| |done]. by injection Heq as ->. }
    split; [done|].
    assert (Hin : pc ∈ matching) by (rewrite Hone; by left).
    unfold matching in Hin. by apply list_elem_of_filter in Hin as [? ?].
  - intros Hs. by rewrite bool_decide_eq_true_2 by (by rewrite Hsize).
  - intros Hne ->. by rewrite bool_decide_eq_false_2 by (by rewrite Hsize).
  - intros Hne Hlen. rewrite bool_decide_eq_false_2 by (by rewrite Hsize).
    destruct matching as [|pc [|pc' l]]; cbn in Hlen; [lia|lia|done].
Qed.


(** ** When the queries succeed, and what they list *)

(** The controllers of a namespace can be listed. *)
Definition controllersListable (ns : string) : Prop :=
  (DeploymentsList client ns).2 = None ∧
  (ReplicationControllersList client ns).2 = None.

Lemma podControllersInNamespace_Ok (ns : string) :
  (∃ controllers, podControllersInNamespace ns = Ok controllers) ↔ controllersListable ns.
Proof.
  unfold podControllersInNamespace, controllersListable.
  destruct (DeploymentsList client ns) as [deploylist [err|]]; cbn [snd].
  - split; [by intros [? ?]|by intros [? ?]].
  - destruct (ReplicationControllersList client ns) as [rclist [err|]]; cbn [snd].
    + split; [by intros [? ?]|by intros [? ?]].
    + split; [done|]. intros _. by eexists.
Qed.

Lemma podControllersInNamespace_no_panic (ns : string) :
  podControllersInNamespace ns ≠ Panic.
Proof.
  unfold podControllersInNamespace.
  destruct (DeploymentsList client ns) as [deploylist [err|]]; [done|].
  by destruct (ReplicationControllersList client ns) as [rclist [err|]].
Qed.

Lemma allServicesLoop_Ok (namespaces : list string) (res : list Service) :
  (∃ res', allServicesLoop namespaces res = Ok res') ↔
  ∀ ns, ns ∈ namespaces → controllersListable ns ∧ (ServicesList client ns).2 = None.
Proof.
  revert res. induction namespaces as [|ns rest IH]; intros res; cbn [allServicesLoop].
  - split; [by intros _ ns ?%elem_of_nil|]. intros _. by eexists.
  - pose proof (podControllersInNamespace_Ok ns) as Hpc.
    destruct (podControllersInNamespace ns) as [controllers|e|].
    + destruct (ServicesList client ns) as [list [err|]] eqn:Hsl.
      * split; [by intros [? ?]|]. intros Hall.
        destruct (Hall ns) as [_ Hs]; [by left|]. by rewrite Hsl in Hs.
      * rewrite IH. split.
        -- intros Hall ns' [->|Hin]%elem_of_cons; [|by apply Hall].
           split; [apply Hpc; by eexists|by rewrite Hsl].
        -- intros Hall ns' Hin. apply Hall. by right.
    + split; [by intros [? ?]|]. intros Hall.
      destruct (Hall ns) as [Hc _]; [by left|]. apply Hpc in Hc as [? ?]. done.
    + split; [by intros [? ?]|]. intros Hall.
      destruct (Hall ns) as [Hc _]; [by left|]. apply Hpc in Hc as [? ?]. done.
Qed.

Lemma allServicesLoop_no_panic (namespaces : list string) (res : list Service) :
  allServicesLoop namespaces res ≠ Panic.
Proof.
  revert res. induction namespaces as [|ns rest IH]; intros res; cbn [allServicesLoop]; [done|].
  pose proof (podControllersInNamespace_no_panic ns) as Hpc.
  destruct (podControllersInNamespace ns) as [controllers|e|]; [|done|done].
  destruct (ServicesList client ns) as [list [err|]]; [done|]. apply IH.
Qed.

Lemma makeService_ID (ns : string) (service : K8sService) (controllers : list podController) :
  ID (makeService ns service controllers) = MakeServiceID ns (MName (SvcMeta service)).
Proof.
  unfold makeService. by destruct (matchController service controllers) as [pc [err|]].
Qed.

(** [AllServices] succeeds exactly when the listings it needs succeed
    (the namespaces when no namespace is given, and the deployments,
    replication controllers and services of each namespace it goes
    through); it does not panic.  When it succeeds it has one entry for
    each service that is not an add-on, namespace by namespace in listing
    order, under the ID namespace/name: a service whose selector is
    empty or matched by no or by several controllers is listed all the
    same. *)
Theorem AllServices_lists_each_visible_service (namespace : string) :
  ((∃ res, AllServices namespace = Ok res) ↔
     (namespace = "" → (NamespacesList client).2 = None) ∧
     ∀ ns, ns ∈ namespacesOf namespace →
       controllersListable ns ∧ (ServicesList client ns).2 = None) ∧
  AllServices namespace ≠ Panic ∧
  (∀ res, AllServices namespace = Ok res →
     ID <$> res =
       (ns ← namespacesOf namespace;
        (λ s, MakeServiceID ns (MName (SvcMeta s))) <$> visibleServices ns)).
Proof.
  split; [|split].
  - unfold AllServices, namespacesOf.
    destruct (String.eqb_spec namespace "") as [->|Hne].
    + destruct (NamespacesList client) as [list [err|]]; cbn [fst snd].
      * split; [by intros [? ?]|]. intros [Hns _]. by specialize (Hns eq_refl).
      * rewrite (foldl_snoc_fmap (λ ns, MName (NsMeta ns))). cbn [app].
        rewrite allServicesLoop_Ok. split; [by intros ?|by intros [_ ?]].
    + rewrite allServicesLoop_Ok. split; [by intros ?|by intros [_ ?]].
  - unfold AllServices. destruct (String.eqb namespace "").
    + destruct (NamespacesList client) as [list [err|]]; [done|].
      apply allServicesLoop_no_panic.
    + apply allServicesLoop_no_panic.
  - intros res ->%AllServices_enumerated. unfold enumerated.
    induction (namespacesOf namespace) as [|ns rest IH]; [done|].
    rewrite !bind_cons, fmap_app, IH. f_equal.
    rewrite <- list_fmap_compose. apply list_fmap_ext. intros _ s _. cbn.
    apply makeService_ID.
Qed.

(** ** SomeServices *)

Hypothesis range_ok : rangeOracle_ok range.

Lemma ranged_lookup {V : Type} (m : gmap string V) (k : string) (v : V) :
  (k, v) ∈ range V m ↔ m !! k = Some v.
Proof. rewrite (range_ok V m). apply elem_of_map_to_list. Qed.

(** The names asked for in a namespace, in the order of the request. *)
Definition namesFor (ns : string) (ids : list ServiceID) : list string :=
  snd <$> filter (λ c, c.1 = ns) (Components <$> ids).

Lemma namesFor_snoc (ns : string) (ids : list ServiceID) (id : ServiceID) :
  namesFor ns (ids ++ [id]) =
    namesFor ns ids ++ (if decide ((Components id).1 = ns) then [(Components id).2] else []).
Proof.
  unfold namesFor. rewrite fmap_app, filter_app, fmap_app. f_equal.
  change (Components <$> [id]) with [Components id].
  rewrite filter_cons, filter_nil. by case_decide.
Qed.

Lemma namespacedServices_lookup (ids : list ServiceID) (ns : string) :
  namespacedServices ids !! ns =
    if decide (namesFor ns ids = []) then None else Some (namesFor ns ids).
Proof.
  unfold namespacedServices.
  induction ids as [|id ids IH] using rev_ind.
  - cbn. by rewrite lookup_empty.
  - rewrite foldl_app. cbn [foldl]. rewrite namesFor_snoc.
    destruct (Components id) as [ns0 name0] eqn:Hc. cbn [fst snd].
    destruct (decide (ns0 = ns)) as [->|Hne].
    + rewrite lookup_insert_eq, IH.
      destruct (decide (namesFor ns ids = [])) as [->|Hn]; cbn.
      * by rewrite decide_False.
      * rewrite decide_False; [done|]. by intros [? _]%app_eq_nil.
    + rewrite lookup_insert_ne by done. by rewrite IH, app_nil_r.
Qed.

Lemma someServicesLoop_Ok (entries : list (string * list string)) (res : list Service) :
  (∃ res', someServicesLoop entries res = Ok res') ↔
  ∀ entry, entry ∈ entries → controllersListable entry.1.
Proof.
  revert res. induction entries as [|[ns names] rest IH]; intros res; cbn [someServicesLoop].
  - split; [by intros _ ? ?%elem_of_nil|]. intros _. by eexists.
  - pose proof (podControllersInNamespace_Ok ns) as Hpc.
    destruct (podControllersInNamespace ns) as [controllers|e|].
    + rewrite IH. split.
      * intros Hall entry [->|Hin]%elem_of_cons; [|by apply Hall].
        apply Hpc. by eexists.
      * intros Hall entry Hin. apply Hall. by right.
    + split; [by intros [? ?]|]. intros Hall.
      destruct (proj2 Hpc (Hall (ns, names) (list_elem_of_here _ _))) as [? ?]. done.
    + split; [by intros [? ?]|]. intros Hall.
      destruct (proj2 Hpc (Hall (ns, names) (list_elem_of_here _ _))) as [? ?]. done.
Qed.

(** [SomeServices] succeeds exactly when the controllers of every
    namespace named in the request can be listed; a service that cannot
    be fetched does not make it fail.  When it succeeds, the services it
    returns are exactly those of the requested ids that can be fetched
    and are not add-ons: nothing that was not asked for, and nothing that
    was asked for and exists is left out.  This holds for every order in
    which the runtime ranges over the namespaces. *)
Theorem SomeServices_exactly_the_requested (ids : list ServiceID) :
  ((∃ res, SomeServices ids = Ok res) ↔
     ∀ id, id ∈ ids → controllersListable (Components id).1) ∧
  (∀ res, SomeServices ids = Ok res →
     ∀ s, s ∈ res ↔
       ∃ id, id ∈ ids ∧ fetched (Components id).1 (Components id).2 = Some s).
Proof.
  assert (Hentry : ∀ ns names, (ns, names) ∈ range _ (namespacedServices ids) ↔
            names = namesFor ns ids ∧ names ≠ []).
  { intros ns names. rewrite ranged_lookup, namespacedServices_lookup.
    case_decide as Hn.
    - split; [done|]. intros [-> ?]. done.
    - split; [by intros [= <-]|]. by intros [-> _]. }
  assert (Hname : ∀ ns name, name ∈ namesFor ns ids ↔
            ∃ id, id ∈ ids ∧ Components id = (ns, name)).
  { intros ns name. unfold namesFor. rewrite list_elem_of_fmap. split.
    - intros ([ns' name'] & -> & Hin). apply list_elem_of_filter in Hin as [Hns Hin].
      cbn in Hns. subst ns'. apply list_elem_of_fmap in Hin as (id & Hc & Hin).
      by exists id.
    - intros (id & Hin & Hc). exists (ns, name). split; [done|].
      apply list_elem_of_filter. split; [done|].
      apply list_elem_of_fmap. by exists id. }
  split.
  - unfold SomeServices. rewrite someServicesLoop_Ok. split.
    + intros Hall id Hin. destruct (Components id) as [ns name] eqn:Hc.
      apply (Hall (ns, namesFor ns ids)). apply Hentry. split; [done|].
      intros Hnil. assert (Hmem : name ∈ namesFor ns ids) by (apply Hname; by exists id).
      rewrite Hnil in Hmem. by apply elem_of_nil in Hmem.
    + intros Hall [ns names] [-> Hne]%Hentry. cbn.
      destruct (namesFor ns ids) as [|name l] eqn:Hn; [done|].
      assert (Hmem : name ∈ namesFor ns ids) by (rewrite Hn; by left).
      apply Hname in Hmem as (id & Hin & Hc).
      specialize (Hall id Hin). by rewrite Hc in Hall.
  - intros res ->%SomeServices_fetched s.
    rewrite list_elem_of_bind. split.
    + intros ([ns names] & Hs & [-> Hne]%Hentry). cbn in Hs.
      apply list_elem_of_omap in Hs as (name & Hin & Hf).
      apply Hname in Hin as (id & Hin & Hc). exists id. by rewrite Hc.
    + intros (id & Hin & Hf). destruct (Components id) as [ns name] eqn:Hc.
      cbn in Hf. exists (ns, namesFor ns ids).
      assert (Hmem : name ∈ namesFor ns ids) by (apply Hname; by exists id).
      split.
      * cbn. apply list_elem_of_omap. by exists name.
      * apply Hentry. split; [done|]. intros Hnil. rewrite Hnil in Hmem.
        by apply elem_of_nil in Hmem.
Qed.


(** ** More on Sync *)

Lemma recorded_union (log : list (SyncAction * option error)) (errs : SyncError) :
  recorded log errs = recorded log ∅ ∪ errs.
Proof.
  unfold recorded. revert errs.
  induction log as [|[a [e|]] log IH]; intros errs; cbn [foldl fst snd].
  - by rewrite (left_id_L ∅ (∪)).
  - rewrite (IH (<[ResourceID a := e]> errs)), (IH (<[ResourceID a := e]> ∅)).
    rewrite <- (assoc_L (∪)). f_equal.
    by rewrite insert_union_singleton_l, insert_empty.
  - apply IH.
Qed.

Lemma syncActions_union (actions : list SyncAction) (w : W) (errs : SyncError) :
  syncActions actions w errs =
    ((syncActions actions w ∅).1, (syncActions actions w ∅).2 ∪ errs).
Proof.
  rewrite (surjective_pairing (syncActions actions w errs)). f_equal.
  - apply syncActions_world.
  - by rewrite !syncActions_recorded, recorded_union.
Qed.

(** The errors a call of [Sync] returned, as a map: none for nil. *)
Definition errorsOf (ret : option SyncError) : SyncError := default ∅ ret.

Lemma Sync_errorsOf (spec : SyncDef) (w : W) :
  Sync spec w =
    ((syncActions (Actions spec) w ∅).1,
     if decide ((syncActions (Actions spec) w ∅).2 = ∅) then None
     else Some (syncActions (Actions spec) w ∅).2) ∧
  errorsOf (Sync spec w).2 = (syncActions (Actions spec) w ∅).2.
Proof.
  assert (Hs : Sync spec w =
            ((syncActions (Actions spec) w ∅).1,
             if decide ((syncActions (Actions spec) w ∅).2 = ∅) then None
             else Some (syncActions (Actions spec) w ∅).2)).
  { unfold Sync, syncClosure.
    destruct (syncActions (Actions spec) w ∅) as [w' errs']. cbn [fst snd].
    by rewrite replies_hd. }
  split; [exact Hs|]. rewrite Hs. cbn [snd]. unfold errorsOf.
  by case_decide as He; [rewrite He|].
Qed.

Lemma Sync_nil_iff (spec : SyncDef) (w : W) :
  (Sync spec w).2 = None ↔ (syncActions (Actions spec) w ∅).2 = ∅.
Proof.
  destruct (Sync_errorsOf spec w) as [-> _]. cbn [snd].
  destruct (decide ((syncActions (Actions spec) w ∅).2 = ∅)) as [He|He].
  - split; intros _; [exact He|reflexivity].
  - split; [intros ?; discriminate|intros ?; contradiction].
Qed.

(** One batch made of two parts: its loop does to the cluster what the
    loop does on the first part and then on the second, and its errors
    are those of the two parts, an error of the second replacing one of
    the first under the same resource ID; [Sync] returns nil for it
    exactly when neither part has an error.  Two calls are the same as
    one call with the appended batch when the first call returns nil,
    which is when the queue serves a second call at all.  The empty batch
    leaves the cluster as it is and returns nil. *)
Theorem Sync_of_appended_batches (pre post : list SyncAction) (w : W) :
  let first := syncActions pre w ∅ in
  let second := syncActions post first.1 ∅ in
  let both := Sync {| Actions := pre ++ post |} w in
  both.1 = second.1 ∧
  errorsOf both.2 = second.2 ∪ first.2 ∧
  (both.2 = None ↔ first.2 = ∅ ∧ second.2 = ∅) ∧
  ((Sync {| Actions := pre |} w).2 = None →
     Sync {| Actions := post |} (Sync {| Actions := pre |} w).1 = both) ∧
  Sync {| Actions := [] |} w = (w, None).
Proof.
  intros first second both.
  destruct (Sync_errorsOf {| Actions := pre ++ post |} w) as [Hb Hbe].
  fold both in Hb, Hbe. cbn [Actions] in *.
  assert (Happ : syncActions (pre ++ post) w ∅ = (second.1, second.2 ∪ first.2)).
  { rewrite syncActions_app, syncActions_union. done. }
  assert (Hnil : both.2 = None ↔ first.2 = ∅ ∧ second.2 = ∅).
  { unfold both. rewrite Sync_nil_iff. cbn [Actions]. rewrite Happ. cbn [snd]. split.
    - intros Hu. split.
      + apply map_eq. intros k. rewrite lookup_empty.
        apply (f_equal (λ m : SyncError, m !! k)) in Hu.
        rewrite lookup_union, lookup_empty in Hu.
        destruct (first.2 !! k) as [e|]; [|done].
        by destruct (second.2 !! k).
      + by apply map_positive_l in Hu.
    - intros [-> ->]. by rewrite (left_id_L ∅ (∪)). }
  split; [|split; [|split; [|split]]].
  - by rewrite Hb, Happ.
  - by rewrite Hbe, Happ.
  - exact Hnil.
  - intros Hclean.
    destruct (Sync_errorsOf {| Actions := pre |} w) as [Hf _].
    apply Sync_nil_iff in Hclean. cbn [Actions] in Hf, Hclean. fold first in Hf, Hclean.
    rewrite Hf. cbn [fst].
    destruct (Sync_errorsOf {| Actions := post |} first.1) as [Hs _].
    cbn [Actions] in Hs. fold second in Hs.
    rewrite Hs, Hb, Happ. cbn [fst snd]. by rewrite Hclean, (right_id_L ∅ (∪)).
  - done.
Qed.

(** What one action of a batch can and cannot do.  If the bytes to
    delete do not parse, or the applier refuses the delete, the action
    ends with that error and its apply is not attempted: the outcome is
    that of the action without its apply part.  Bytes that do not parse
    leave the cluster as it is.  An action with nothing to delete and
    nothing to apply does nothing and has no error. *)
Theorem syncAction_failed_delete_skips_apply (action : SyncAction) (w : W) :
  let deleteOnly := {| ResourceID := ResourceID action; Delete := Delete action;
                       Apply := "" |} in
  (∀ e, (syncAction deleteOnly w).2 = Some e →
     syncAction action w = syncAction deleteOnly w) ∧
  (∀ e, Delete action ≠ "" → (yamlParse (Delete action)).2 = Some e →
     syncAction action w = (w, Some e)) ∧
  (∀ e, Delete action = "" → Apply action ≠ "" → (yamlParse (Apply action)).2 = Some e →
     syncAction action w = (w, Some e)) ∧
  (Delete action = "" → Apply action = "" → syncAction action w = (w, None)).
Proof.
  intros deleteOnly.
  assert (Hlen : ∀ s : string, s ≠ "" → (0 <? String.length s)%nat = true).
  { intros [|c s] Hs; [done|]. done. }
  assert (Hparse : ∀ op bytes e, (yamlParse bytes).2 = Some e →
            attempt op bytes w = (w, Some e)).
  { intros op bytes e He. unfold attempt, definitionObj.
    destruct (yamlParse bytes) as [doc [e'|]]; cbn in He; [|done]. by injection He as ->. }
  split; [|split; [|split]].
  - intros e. unfold syncAction, deleteOnly. cbn [Delete Apply ResourceID].
    destruct (0 <? String.length (Delete action))%nat.
    + destruct (attempt (ApplierDelete applier) (Delete action) w) as [w' [e'|]]; [done|].
      cbn. done.
    + cbn. done.
  - intros e Hne He. unfold syncAction. rewrite (Hlen _ Hne).
    by rewrite (Hparse _ _ _ He).
  - intros e Hd Hne He. unfold syncAction. rewrite Hd, (Hlen _ Hne).
    cbn [String.length Nat.ltb Nat.leb]. by rewrite (Hparse _ _ _ He).
  - intros Hd Ha. unfold syncAction. rewrite Hd, Ha. by cbn.
Qed.


(** ** Runs of the action queue *)

(** Every caller is back from its call. *)
Definition settled (s : system) : Prop :=
  ∀ j p, callers s !! j = Some p → ∃ ret, p = Returned ret.

(** No batch still to be handed over has a failing action, whatever the
    cluster it is run in. *)
Definition cleanSubmissions (s : system) : Prop :=
  ∀ j spec w, callers s !! j = Some (Submitting spec) →
    (syncActions (Actions spec) w ∅).2 = ∅.

(** The consumer waits for a closure and no caller waits for a reply. *)
Definition idle (s : system) : Prop :=
  loop s = Ranging ∧ ∀ j, callers s !! j ≠ Some Receiving.

(** With batches that do not fail, the consumer is either waiting for a
    closure, or about to send the one nil to the one caller that is
    waiting for it. *)
Definition oneReplyPending (s : system) : Prop :=
  match loop s with
  | Ranging => ∀ j, callers s !! j ≠ Some Receiving
  | Sending i pending =>
      pending = [None] ∧ callers s !! i = Some Receiving ∧
      ∀ j, j ≠ i → callers s !! j ≠ Some Receiving
  end.

(** How many hand-overs a caller still has before it: its closure and
    its reply. *)
Definition pendingOf (p : producer) : nat :=
  match p with
  | Submitting _ => 2
  | Receiving => 1
  | Returned _ => 0
  end.

Definition pending (s : system) : nat := sum_list_with pendingOf (callers s).

Lemma sum_list_insert (l : list producer) (i : nat) (p q : producer) :
  l !! i = Some p →
  sum_list_with pendingOf (<[i := q]> l) + pendingOf p =
    sum_list_with pendingOf l + pendingOf q.
Proof.
  revert i. induction l as [|x l IH]; intros [|i] Hi; try done.
  - injection Hi as ->. cbn [list_insert insert sum_list_with]. lia.
  - change (<[S i := q]> (x :: l)) with (x :: <[i := q]> l).
    cbn [sum_list_with]. specialize (IH i Hi). lia.
Qed.

Lemma step_pending (s s' : system) : step s s' → pending s' < pending s.
Proof.
  intros [s0 i spec _ Hsub|s0 i r rest _ Hrecv]; unfold pending; cbn [callers].
  - pose proof (sum_list_insert _ i _ Receiving Hsub) as H. cbn in H. lia.
  - pose proof (sum_list_insert _ i _ (Returned r) Hrecv) as H. cbn in H. lia.
Qed.

Lemma step_returned (s s' : system) (j : nat) (ret : option SyncError) :
  step s s' → callers s !! j = Some (Returned ret) →
  callers s' !! j = Some (Returned ret).
Proof.
  intros [s0 i spec _ Hsub|s0 i r rest _ Hrecv] Hret; cbn [callers].
  - rewrite list_lookup_insert_ne; [done|]. intros ->. congruence.
  - rewrite list_lookup_insert_ne; [done|]. intros ->. congruence.
Qed.

(** A caller gets one reply: once it is back from [Sync] with a value,
    nothing that happens on the queue afterwards changes that value; and
    a run of the queue takes at most two steps for each caller. *)
Theorem Sync_reply_is_final (s s' : system) (j : nat) (ret : option SyncError) :
  rtc step s s' →
  callers s !! j = Some (Returned ret) →
  callers s' !! j = Some (Returned ret) ∧ (pending s' ≤ pending s)%nat.
Proof.
  intros Hrun. induction Hrun as [s|s s1 s' Hstep _ IH]; intros Hret; [done|].
  destruct (IH (step_returned _ _ _ _ Hstep Hret)) as [Hfinal Hle].
  split; [done|]. pose proof (step_pending _ _ Hstep). lia.
Qed.

Lemma step_cleanSubmissions (s s' : system) :
  step s s' → cleanSubmissions s → cleanSubmissions s'.
Proof.
  intros [s0 i spec _ Hsub|s0 i r rest _ Hrecv] Hclean j spec' w; cbn [callers].
  - destruct (decide (j = i)) as [->|Hne].
    + rewrite list_lookup_insert_eq by (by eapply lookup_lt_Some). done.
    + rewrite list_lookup_insert_ne by done. apply Hclean.
  - destruct (decide (j = i)) as [->|Hne].
    + rewrite list_lookup_insert_eq by (by eapply lookup_lt_Some). done.
    + rewrite list_lookup_insert_ne by done. apply Hclean.
Qed.

Lemma step_oneReplyPending (s s' : system) :
  step s s' → cleanSubmissions s → oneReplyPending s →
  oneReplyPending s' ∧
  ∀ j ret, callers s' !! j = Some (Returned ret) →
    ret = None ∨ callers s !! j = Some (Returned ret).
Proof.
  intros [s0 i spec Hloop Hsub|s0 i r rest Hloop Hrecv] Hclean Hinv;
    unfold oneReplyPending in *; rewrite Hloop in Hinv; cbn [loop callers].
  - assert (Hi : i < length (callers s0)) by (by eapply lookup_lt_Some).
    unfold syncClosure.
    pose proof (Hclean i spec (world s0) Hsub) as Hnone.
    destruct (syncActions (Actions spec) (world s0) ∅) as [w' errs]. cbn in Hnone.
    subst errs. cbn. split.
    + split; [done|]. split; [by apply list_lookup_insert_eq|].
      intros j Hne. rewrite list_lookup_insert_ne by done. apply Hinv.
    + intros j ret. destruct (decide (j = i)) as [->|Hne].
      * by rewrite list_lookup_insert_eq.
      * rewrite list_lookup_insert_ne by done. by right.
  - assert (Hi : i < length (callers s0)) by (by eapply lookup_lt_Some).
    destruct Hinv as (Hpending & _ & Hothers). injection Hpending as -> ->. cbn. split.
    + intros j. destruct (decide (j = i)) as [->|Hne].
      * by rewrite list_lookup_insert_eq.
      * rewrite list_lookup_insert_ne by done. by apply Hothers.
    + intros j ret. destruct (decide (j = i)) as [->|Hne].
      * rewrite list_lookup_insert_eq by done. intros [= <-]. by left.
      * rewrite list_lookup_insert_ne by done. by right.
Qed.

Lemma oneReplyPending_progress (s : system) :
  oneReplyPending s → settled s ∨ ∃ s', step s s'.
Proof.
  unfold oneReplyPending. destruct (loop s) as [|i pending0] eqn:Hloop.
  - intros Hinv.
    destruct (decide (Forall (λ p, pendingOf p = 0) (callers s))) as [Hall|Hex].
    + left. intros j p Hj. rewrite Forall_forall in Hall.
      assert (Hp : pendingOf p = 0) by (apply Hall; by eapply list_elem_of_lookup_2).
      destruct p; try done. by eexists.
    + right. apply not_Forall_Exists in Hex; [|apply _].
      apply Exists_exists in Hex as (p & Hin & Hp).
      apply list_elem_of_lookup in Hin as [j Hj].
      destruct p as [spec| |ret].
      * eexists. by apply (step_dequeue s j spec).
      * by destruct (Hinv j).
      * by destruct Hp.
  - intros (-> & Hrecv & _). right. eexists. by apply (step_reply s i None []).
Qed.

(** Batches that do not fail never block the queue.  From a queue at
    rest, whatever the order in which the callers are served: every
    state that is reached is either one in which all callers are back or
    one from which a step is possible; each step brings a caller nearer
    to its return, so that a run has at most two steps for each caller;
    and every caller that comes back during the run comes back with
    nil. *)
Theorem clean_batches_never_block (s s' : system) :
  idle s → cleanSubmissions s → rtc step s s' →
  (settled s' ∨ ∃ s'', step s' s'') ∧
  (pending s' ≤ pending s)%nat ∧
  (∀ s'', step s' s'' → pending s'' < pending s') ∧
  (∀ j ret, callers s' !! j = Some (Returned ret) →
     ret = None ∨ callers s !! j = Some (Returned ret)).
Proof.
  intros [Hloop Hnone] Hclean Hrun.
  assert (Hinv : oneReplyPending s) by (unfold oneReplyPending; by rewrite Hloop).
  clear Hloop Hnone.
  induction Hrun as [s|s s1 s' Hstep _ IH].
  - split; [by apply oneReplyPending_progress|]. split; [done|].
    split; [intros s''; apply step_pending|]. intros j ret Hj. by right.
  - destruct (step_oneReplyPending _ _ Hstep Hclean Hinv) as [Hinv1 Hret1].
    destruct (IH (step_cleanSubmissions _ _ Hstep Hclean) Hinv1)
      as (Hprog & Hle & Hdec & Hret).
    split; [done|]. split; [pose proof (step_pending _ _ Hstep); lia|].
    split; [done|]. intros j ret Hj.
    destruct (Hret j ret Hj) as [?|Hj1]; [by left|]. by apply Hret1.
Qed.


(** ** When the export succeeds *)

(** The object can be marshalled. *)
Definition marshals (object : K8sObject) : Prop := (Marshal object).2 = None.

(** Everything [Export] needs of one namespace: the namespace marshals,
    its deployments, replication controllers and services can be listed,
    and those of them that are no add-ons marshal. *)
Definition exportable (ns : K8sNamespace) : Prop :=
  let name := MName (NsMeta ns) in
  marshals (ObjNamespace ns) ∧
  ((DeploymentsList client name).2 = None ∧
   Forall (marshals ∘ ObjDeployment) (visibleDeployments name)) ∧
  ((ReplicationControllersList client name).2 = None ∧
   Forall (marshals ∘ ObjReplicationController) (visibleReplicationControllers name)) ∧
  ((ServicesList client name).2 = None ∧
   Forall (marshals ∘ ObjService) (visibleServices name)).

Lemma appendYAML_Ok config apiVersion kind object :
  (appendYAML config apiVersion kind object).2 = None ↔ marshals object.
Proof.
  unfold appendYAML, marshals. by destruct (Marshal object) as [yamlBytes [err|]].
Qed.

Lemma exportItems_Ok {A : Type} `{namespacedLabeled A}
    (apiVersion kind what : string) (object : A → K8sObject)
    (items : list A) (config : string) :
  (exportItems apiVersion kind what object items config).2 = None ↔
  Forall (marshals ∘ object) (filter (λ item, isAddon item = false) items).
Proof.
  revert config. induction items as [|item rest IH]; intros config; cbn [exportItems].
  - split; [constructor|done].
  - rewrite filter_cons. destruct (isAddon item) eqn:Ha.
    + rewrite decide_False by done. apply IH.
    + rewrite decide_True by done. rewrite Forall_cons.
      pose proof (appendYAML_Ok config apiVersion kind (object item)) as Hy.
      destruct (appendYAML config apiVersion kind (object item)) as [config1 [err|]];
        cbn [snd] in *.
      * split; [done|]. intros [Hm _]. by apply Hy in Hm.
      * rewrite IH. split; [|by intros [_ ?]]. intros Hrest. split; [by apply Hy|done].
Qed.

Lemma exportLoop_Ok (namespaces : list K8sNamespace) (config : string) :
  (exportLoop namespaces config).2 = None ↔ Forall exportable namespaces.
Proof.
  revert config. induction namespaces as [|ns rest IH]; intros config; cbn [exportLoop].
  - split; [constructor|done].
  - rewrite Forall_cons. unfold exportable at 1. cbn zeta.
    unfold visibleDeployments, visibleReplicationControllers, visibleServices.
    pose proof (appendYAML_Ok config "v1" "Namespace" (ObjNamespace ns)) as Hns.
    destruct (appendYAML config "v1" "Namespace" (ObjNamespace ns)) as [config1 [err|]];
      cbn [snd] in Hns.
    { split; [done|]. intros [[Hm _] _]. by apply Hns in Hm. }
    destruct (DeploymentsList client (MName (NsMeta ns))) as [deployments [err|]];
      cbn [fst snd].
    { split; [done|]. by intros [(_ & [? _] & _) _]. }
    pose proof (exportItems_Ok "extensions/v1beta1" "Deployment"
                  "marshalling deployment to YAML" ObjDeployment deployments config1) as Hd.
    destruct (exportItems _ _ _ ObjDeployment deployments config1) as [config2 [err|]];
      cbn [snd] in Hd.
    { split; [done|]. intros [(_ & [_ Hm] & _) _]. by apply Hd in Hm. }
    destruct (ReplicationControllersList client (MName (NsMeta ns))) as [rcs [err|]];
      cbn [fst snd].
    { split; [done|]. by intros [(_ & _ & [? _] & _) _]. }
    pose proof (exportItems_Ok "v1" "ReplicationController"
                  "marshalling replication controller to YAML"
                  ObjReplicationController rcs config2) as Hrc.
    destruct (exportItems _ _ _ ObjReplicationController rcs config2) as [config3 [err|]];
      cbn [snd] in Hrc.
    { split; [done|]. intros [(_ & _ & [_ Hm] & _) _]. by apply Hrc in Hm. }
    destruct (ServicesList client (MName (NsMeta ns))) as [services [err|]];
      cbn [fst snd].
    { split; [done|]. by intros [(_ & _ & _ & [? _]) _]. }
    pose proof (exportItems_Ok "v1" "Service" "marshalling service to YAML"
                  ObjService services config3) as Hs.
    destruct (exportItems _ _ _ ObjService services config3) as [config4 [err|]];
      cbn [snd] in Hs.
    { split; [done|]. intros [(_ & _ & _ & [_ Hm]) _]. by apply Hs in Hm. }
    rewrite IH. split; [|by intros [_ ?]].
    intros Hrest. split; [|done].
    split; [by apply Hns|]. split; [split; [done|by apply Hd]|].
    split; [split; [done|by apply Hrc]|]. split; [done|by apply Hs].
Qed.

(** [Export] is all or nothing and never panics.  It returns a
    configuration exactly when the namespaces can be listed and, in each
    of them, the namespace marshals, the deployments, replication
    controllers and services can be listed, and those that are no add-ons
    marshal; an add-on that cannot be marshalled does no harm, since it is
    passed over before marshalling.  The configuration then is the
    documents of all these objects, one after the other. *)
Theorem Export_all_or_nothing :
  Export ≠ Panic ∧
  ((∃ config, Export = Ok config) ↔
     (NamespacesList client).2 = None ∧ Forall exportable (NamespacesList client).1) ∧
  (∀ config, Export = Ok config →
     config = concatenated (exportedDocuments (NamespacesList client).1)).
Proof.
  split; [|split].
  - unfold Export. destruct (NamespacesList client) as [list [err|]]; [done|].
    by destruct (exportLoop list "") as [config [err|]].
  - unfold Export. destruct (NamespacesList client) as [list [err|]]; cbn [fst snd].
    { split; [by intros [? ?]|by intros [? _]]. }
    pose proof (exportLoop_Ok list "") as Hloop.
    destruct (exportLoop list "") as [config [err|]]; cbn [snd] in Hloop.
    + split; [by intros [? ?]|]. intros [_ Hall]. by apply Hloop in Hall.
    + split; [|by eauto]. intros _. split; [done|]. by apply Hloop.
  - apply Export_documents.
Qed.

End Cluster.


Arguments Sync yamlParse {W} applier spec w.
Arguments syncClosure yamlParse {W} applier spec w.
Arguments syncActions yamlParse {W} applier actions w errs.
Arguments syncAction yamlParse {W} applier action w.
Arguments outcomes yamlParse {W} applier actions w.
Arguments step yamlParse {W} applier _ _.
Arguments mkSystem {W} _ _ _.
Arguments world {W} _.
Arguments loop {W} _.
Arguments callers {W} _.

(** ** A cluster and an applier to run the adapter on *)

Definition meta (namespace name : string) (labels : gmap string string) : ObjectMeta :=
  {| MName := name; MNamespace := namespace; MLabels := labels; MGeneration := 1;
     MCreationTimestamp := "2017-03-01 12:00:00 +0000 UTC"; MResourceVersion := "7";
     MUID := namespace +:+ "/" +:+ name |}.

(** kube-dns is an add-on of kube-system; web is an ordinary service. *)
Definition kubeDns : K8sService :=
  {| SvcMeta := meta "kube-system" "kube-dns" {["kubernetes.io/cluster-service" := "true"]};
     SvcClusterIP := "10.0.0.10"; SvcSelector := {["k8s-app" := "kube-dns"]};
     SvcType := "ClusterIP" |}.

Definition web : K8sService :=
  {| SvcMeta := meta "default" "web" {["app" := "web"]};
     SvcClusterIP := "10.0.0.20"; SvcSelector := {["app" := "web"]};
     SvcType := "ClusterIP" |}.

Definition webDeployment : K8sDeployment :=
  {| DepMeta := meta "default" "web" {["app" := "web"]};
     DepReplicas := 2;
     DepTemplate := {| TLabels := {["app" := "web"]};
                       TContainers := [ {| Name := "web"; Image := "r/i:1" |} ] |};
     DepObservedGeneration := 1; DepUpdatedReplicas := 2 |}.

Definition exampleClient : extendedClient :=
  {| NamespacesList :=
       ([ {| NsMeta := meta "" "default" ∅ |}; {| NsMeta := meta "" "kube-system" ∅ |} ], None);
     ServicesList ns :=
       (if String.eqb ns "default" then [web]
        else if String.eqb ns "kube-system" then [kubeDns] else [], None);
     ServicesGet ns name :=
       if String.eqb ns "default" && String.eqb name "web" then (web, None)
       else if String.eqb ns "kube-system" && String.eqb name "kube-dns" then (kubeDns, None)
       else (web, Some (New "not found"));
     DeploymentsList ns := (if String.eqb ns "default" then [webDeployment] else [], None);
     ReplicationControllersList ns := ([], None) |}.

Example isAddon_kubeDns : isAddon kubeDns = true ∧ isAddon web = false.
Proof. split; vm_compute; reflexivity. Qed.

Example AllServices_skips_kubeDns :
  AllServices exampleClient (New "empty selector") (New "no matching")
    (New "multiple matching") "" =
  Ok [ {| ID := "default/web"; IP := "10.0.0.20"; Metadata := metadataForService web;
          SStatus := "ready";
          SContainers := {| Excuse := "";
                            Containers := [ {| Name := "web"; Image := "r/i:1" |} ] |} |} ].
Proof. vm_compute. reflexivity. Qed.

(** An applier that keeps the list of what it was asked to do, and
    refuses the objects named by [rejected]. *)
Definition recordingApplier (rejected : list string)
    : Applier (list (string * apiObject)) :=
  {| ApplierDelete obj w :=
       if bool_decide (MetadataName obj ∈ rejected)
       then (w, Some (New ("cannot delete " +:+ MetadataName obj)))
       else (w ++ [("delete", obj)], None);
     ApplierApply obj w :=
       if bool_decide (MetadataName obj ∈ rejected)
       then (w, Some (New ("cannot apply " +:+ MetadataName obj)))
       else (w ++ [("apply", obj)], None) |}.

(** A YAML parser for the manifests of the examples: a manifest is found
    in a table, anything else does not parse. *)
Definition tableParse (table : list (string * yamlDocument))
    : string → yamlDocument * option error :=
  λ manifest,
    match list_find (λ entry, entry.1 = manifest) table with
    | Some (_, (_, doc)) => (doc, None)
    | None => ({| docApiVersion := ""; docKind := ""; docMeta := meta "" "" ∅ |},
               Some (New "yaml: did not find expected node content"))
    end.

Definition manifestOf (namespace name : string) : string :=
  "{apiVersion: v1, kind: Service, metadata: {name: " +:+ name +:+ ", namespace: "
  +:+ namespace +:+ "}}".

Definition kubeDnsManifest : string :=
  "{apiVersion: v1, kind: Service, metadata: {name: kube-dns, namespace: kube-system, "
  +:+ "labels: {kubernetes.io/cluster-service: 'true'}}}".

Definition exampleManifests : list (string * yamlDocument) :=
  [ (manifestOf "default" "a",
     {| docApiVersion := "v1"; docKind := "Service"; docMeta := meta "default" "a" ∅ |});
    (manifestOf "default" "b",
     {| docApiVersion := "v1"; docKind := "Service"; docMeta := meta "default" "b" ∅ |});
    (manifestOf "default" "c",
     {| docApiVersion := "v1"; docKind := "Service"; docMeta := meta "default" "c" ∅ |});
    (kubeDnsManifest,
     {| docApiVersion := "v1"; docKind := "Service"; docMeta := SvcMeta kubeDns |}) ].

Definition applyOf (namespace name : string) : SyncAction :=
  {| ResourceID := namespace +:+ "/" +:+ name; Delete := "";
     Apply := manifestOf namespace name |}.

(** Scenario 5 of the specification: three resources, the middle one
    rejected.  The first and the third are applied and the SyncError has
    the one entry default/b. *)
Example Sync_partial_failure :
  let run := Sync (tableParse exampleManifests) (recordingApplier ["b"])
               {| Actions := [applyOf "default" "a"; applyOf "default" "b";
                              applyOf "default" "c"] |} [] in
  (MetadataName ∘ snd <$> run.1) = ["a"; "c"] ∧
  (map_to_list <$> run.2) = Some [("default/b", errorString "cannot apply b")].
Proof. split; vm_compute; reflexivity. Qed.

(** The same batch through the theorem: the record of the batch has its
    three actions, in order. *)
Lemma Sync_aggregates_failures_witness :
  (outcomes (tableParse exampleManifests) (recordingApplier ["b"])
     [applyOf "default" "a"; applyOf "default" "b"; applyOf "default" "c"] []).*1 =
  [applyOf "default" "a"; applyOf "default" "b"; applyOf "default" "c"].
Proof.
  exact (proj1 (Sync_aggregates_failures (tableParse exampleManifests)
                  (list (string * apiObject)) (recordingApplier ["b"])
                  {| Actions := [applyOf "default" "a"; applyOf "default" "b";
                                 applyOf "default" "c"] |} [])).
Defined.

(** C7 as the specification words it: the SyncError has exactly one entry
    for each failed action of the batch. *)
Definition one_entry_for_each_failed_action : Prop :=
  ∀ (yamlParse : string → yamlDocument * option error)
    (applier : Applier (list (string * apiObject))) (spec : SyncDef)
    (w : list (string * apiObject)),
    size (errorsOf (Sync yamlParse applier spec w).2) =
    length (filter (λ entry, failed entry = true)
              (outcomes yamlParse applier (Actions spec) w)).

(** C7 (counterexample): a batch that first deletes and then applies the
    resource default/b, in two actions, on a cluster that refuses both.
    Both actions are run and both fail, but they are stored under the one
    resource ID: the SyncError has a single entry, the error of the
    apply, and the error of the delete is lost. *)
Lemma Sync_merges_failures_of_one_resource :
  let spec := {| Actions := [ {| ResourceID := "default/b";
                                 Delete := manifestOf "default" "b"; Apply := "" |};
                              {| ResourceID := "default/b"; Delete := "";
                                 Apply := manifestOf "default" "b" |} ] |} in
  let run := Sync (tableParse exampleManifests) (recordingApplier ["b"]) spec [] in
  (snd <$> outcomes (tableParse exampleManifests) (recordingApplier ["b"]) (Actions spec) []) =
    [Some (errorString "cannot delete b"); Some (errorString "cannot apply b")] ∧
  (map_to_list <$> run.2) = Some [("default/b", errorString "cannot apply b")] ∧
  ¬ one_entry_for_each_failed_action.
Proof.
  cbn zeta. split; [vm_compute; reflexivity|]. split; [vm_compute; reflexivity|].
  intros Hclaim.
  specialize (Hclaim (tableParse exampleManifests) (recordingApplier ["b"])
                {| Actions := [ {| ResourceID := "default/b";
                                   Delete := manifestOf "default" "b"; Apply := "" |};
                                {| ResourceID := "default/b"; Delete := "";
                                   Apply := manifestOf "default" "b" |} ] |} []).
  vm_compute in Hclaim. discriminate Hclaim.
Qed.

(** C2 as the specification words it, for Sync: no call Sync makes on the
    applier carries the manifest of an add-on. *)
Definition Sync_passes_over_addons : Prop :=
  ∀ (yamlParse : string → yamlDocument * option error) (spec : SyncDef)
    (call : string * apiObject),
    call ∈ (Sync yamlParse (recordingApplier []) spec []).1 →
    isAddon (yamlParse (bytes call.2)).1 = false.

(** C2 (counterexample): a batch that applies the manifest of kube-dns, a
    service of kube-system labelled kubernetes.io/cluster-service=true.
    Sync hands it to the applier like any other manifest. *)
Lemma Sync_applies_addon_manifest :
  let spec := {| Actions := [ {| ResourceID := "kube-system/kube-dns"; Delete := "";
                                 Apply := kubeDnsManifest |} ] |} in
  let applied := {| bytes := kubeDnsManifest; Version := "v1"; Kind := "Service";
                    MetadataName := "kube-dns"; MetadataNamespace := "kube-system" |} in
  isAddon (tableParse exampleManifests kubeDnsManifest).1 = true ∧
  Sync (tableParse exampleManifests) (recordingApplier []) spec [] =
    ([("apply", applied)], None) ∧
  ¬ Sync_passes_over_addons.
Proof.
  cbn zeta.
  assert (Hrun : Sync (tableParse exampleManifests) (recordingApplier [])
                   {| Actions := [ {| ResourceID := "kube-system/kube-dns"; Delete := "";
                                      Apply := kubeDnsManifest |} ] |} [] =
                 ([("apply", {| bytes := kubeDnsManifest; Version := "v1"; Kind := "Service";
                                MetadataName := "kube-dns";
                                MetadataNamespace := "kube-system" |})], None))
    by (vm_compute; reflexivity).
  split; [vm_compute; reflexivity|]. split; [exact Hrun|].
  intros Hclaim.
  specialize (Hclaim (tableParse exampleManifests) _ _
                (eq_ind_r (λ r, _ ∈ r.1) (list_elem_of_here _ _) Hrun)).
  vm_compute in Hclaim. discriminate Hclaim.
Qed.

(** C3: a batch with one rejected manifest, and a second caller waiting
    behind it.  The closure has two sends for the one receive of its
    caller: the caller returns with the SyncError, the consumer stays
    blocked on the second send, no step is possible any more, and the
    second caller is still waiting to hand over its closure. *)
Theorem Sync_failing_batch_blocks_the_queue :
  let parse := tableParse exampleManifests in
  let failing := {| Actions := [applyOf "default" "b"] |} in
  let next := {| Actions := [applyOf "default" "c"] |} in
  let s := {| world := []; loop := Ranging;
              callers := [Submitting failing; Submitting next] |} in
  (syncClosure parse (recordingApplier ["b"]) failing []).2 =
    [Some {["default/b" := errorString "cannot apply b"]}; None] ∧
  ∃ s1 s2,
    step parse (recordingApplier ["b"]) s s1 ∧
    step parse (recordingApplier ["b"]) s1 s2 ∧
    callers s2 !! 0 = Some (Returned (Some {["default/b" := errorString "cannot apply b"]})) ∧
    loop s2 = Sending 0 [None] ∧
    callers s2 !! 1 = Some (Submitting next) ∧
    ∀ s3, ¬ step parse (recordingApplier ["b"]) s2 s3.
Proof.
  cbn zeta. split; [vm_compute; reflexivity|].
  assert (Hne : (syncActions (tableParse exampleManifests) (recordingApplier ["b"])
                   [applyOf "default" "b"] [] ∅).2 ≠ ∅)
    by (vm_compute; discriminate).
  destruct (Sync_failing_batch_wedges (tableParse exampleManifests) _ (recordingApplier ["b"])
              {| world := []; loop := Ranging;
                 callers := [Submitting {| Actions := [applyOf "default" "b"] |};
                             Submitting {| Actions := [applyOf "default" "c"] |}] |}
              0 {| Actions := [applyOf "default" "b"] |} eq_refl eq_refl Hne)
    as (s1 & s2 & H1 & H2 & Hret & Hloop & Hothers & _ & Hstuck).
  exists s1, s2. split; [exact H1|]. split; [exact H2|].
  split; [|split; [exact Hloop|split; [|exact Hstuck]]].
  - rewrite Hret. vm_compute. reflexivity.
  - rewrite (Hothers 1) by done. reflexivity.
Qed.


(** ** The further properties on the example cluster *)

Arguments pending {W} _.
Arguments settled {W} _.
Arguments idle {W} _.
Arguments cleanSubmissions yamlParse {W} applier _.

(** An ID of the examples is split at its first slash. *)
Fixpoint exampleComponents (id : ServiceID) : string * string :=
  match id with
  | "" => ("", "")
  | String c rest =>
      if Ascii.eqb c (Ascii.ascii_of_nat 47) then ("", rest)
      else let '(ns, name) := exampleComponents rest in (String c ns, name)
  end.

(** web exists, gone does not, kube-dns is an add-on: only web is
    returned, and the call succeeds. *)
Example SomeServices_omits_missing_and_addons :
  ID <$> match SomeServices rangeSorted exampleClient (New "empty selector")
                 (New "no matching") (New "multiple matching") exampleComponents
                 ["default/web"; "default/gone"; "kube-system/kube-dns"] with
         | Ok res => res
         | _ => []
         end = ["default/web"].
Proof. vm_compute. reflexivity. Qed.

Lemma SomeServices_exactly_the_requested_witness :
  ∃ res, SomeServices rangeSorted exampleClient (New "empty selector")
           (New "no matching") (New "multiple matching") exampleComponents
           ["default/web"; "default/gone"; "kube-system/kube-dns"] = Ok res.
Proof.
  apply (proj2 (proj1 (SomeServices_exactly_the_requested rangeSorted exampleClient
                         (New "empty selector") (New "no matching")
                         (New "multiple matching") exampleComponents
                         Release.rangeSorted_ok
                         ["default/web"; "default/gone"; "kube-system/kube-dns"]))).
  intros id _. split; reflexivity.
Defined.

(** Two deployments with the labels of web: the service is listed with
    the excuse, not dropped. *)
Example matchController_two_matches :
  matchController (New "empty selector") (New "no matching") (New "multiple matching") web
    [ {| ReplicationController := None; Deployment := Some webDeployment |};
      {| ReplicationController := None; Deployment := Some webDeployment |} ] =
  ({| ReplicationController := None; Deployment := None |},
   Some (errorString "multiple matching")).
Proof. vm_compute. reflexivity. Qed.

(** A selector pair with an empty value is satisfied by a controller
    that has no such label. *)
Example matchedBy_empty_value :
  matchedBy {| ReplicationController := None; Deployment := Some webDeployment |}
    {["tier" := ""]} = true.
Proof. vm_compute. reflexivity. Qed.

(** A queue on which one caller is back and another is served next. *)
Definition servedQueue : system (list (string * apiObject)) :=
  {| world := []; loop := Ranging;
     callers := [Returned None; Submitting {| Actions := [applyOf "default" "a"] |}] |}.

Lemma Sync_reply_is_final_witness :
  callers {| world := (syncClosure (tableParse exampleManifests) (recordingApplier [])
                         {| Actions := [applyOf "default" "a"] |} (world servedQueue)).1;
             loop := proceed 1 (syncClosure (tableParse exampleManifests)
                                  (recordingApplier [])
                                  {| Actions := [applyOf "default" "a"] |}
                                  (world servedQueue)).2;
             callers := <[1 := Receiving]> (callers servedQueue) |} !! 0 =
    Some (Returned None).
Proof.
  exact (proj1 (Sync_reply_is_final (tableParse exampleManifests) _ (recordingApplier [])
                  servedQueue _ 0 None
                  (rtc_once _ _
                     (step_dequeue (tableParse exampleManifests) _ (recordingApplier [])
                        servedQueue 1 {| Actions := [applyOf "default" "a"] |}
                        eq_refl eq_refl))
                  eq_refl)).
Defined.

Lemma clean_batches_never_block_witness :
  settled servedQueue ∨
  ∃ s'', step (tableParse exampleManifests) (recordingApplier []) servedQueue s''.
Proof.
  apply (clean_batches_never_block (tableParse exampleManifests) _ (recordingApplier [])
           servedQueue servedQueue).
  - split; [reflexivity|]. intros [|[|j]]; discriminate.
  - intros [|[|j]] spec w Hj; try discriminate Hj.
    injection Hj as <-. reflexivity.
  - apply rtc_refl.
Defined.

End Kubernetes.

(* --------------------------------------------------------------------- *)
(* package nats: the RPC bus                                             *)
(* --------------------------------------------------------------------- *)

Module Nats.

Import Platform.

Definition methodKick : string := ".Platform.Kick".
Definition methodPing : string := ".Platform.Ping".
Definition methodVersion : string := ".Platform.Version".
Definition methodExport : string := ".Platform.Export".
Definition methodListServices : string := ".Platform.ListServices".
Definition methodListImages : string := ".Platform.ListImages".
Definition methodUpdateImages : string := ".Platform.UpdateImages".
Definition methodSyncCluster : string := ".Platform.SyncCluster".
Definition methodSyncStatus : string := ".Platform.SyncStatus".

(** [nats.Msg]. *)
Record Msg : Type := mkMsg {
  Subject : string;
  Reply : string;
  Data : string
}.

(** [type ErrorResponse struct]. *)
Record ErrorResponse : Type := mkErrorResponse {
  RError : string;
  RFatal : bool
}.

(** [func makeErrorResponse(err error) (resp ErrorResponse)]. *)
Definition makeErrorResponse (err : option error) : ErrorResponse :=
  match err with
  | None => {| RError := ""; RFatal := false |}
  | Some e => {| RError := Error e; RFatal := isFatalError err |}
  end.

Section Bus.

(** Types of package flux that the bus only passes on. *)
Variable ImageStatus ServiceSpec ReleaseSpec : Type.

(** The response envelopes. *)
Inductive Response : Type :=
| PingResponse (e : ErrorResponse)
| VersionResponse (version : string) (e : ErrorResponse)
| ExportResponse (config : string) (e : ErrorResponse)
| ListServicesResponse (res : list ServiceStatus) (e : ErrorResponse)
| ListImagesResponse (res : list ImageStatus) (e : ErrorResponse)
| UpdateImagesResponse (res : ReleaseResult) (e : ErrorResponse)
| SyncClusterResponse (e : ErrorResponse)
| SyncStatusResponse (res : list string) (e : ErrorResponse).

(** [platform.Platform], the daemon behind the subscription; the
    handler reads only the error of [SyncStatus]. *)
Record Remote : Type := mkRemote {
  RemotePing : option error;
  RemoteVersion : string * option error;
  RemoteExport : string * option error;
  RemoteListServices : string → list ServiceStatus * option error;
  RemoteListImages : ServiceSpec → list ImageStatus * option error;
  RemoteUpdateImages : ReleaseSpec → ReleaseResult * option error;
  RemoteSyncCluster : option error;
  RemoteSyncStatus : option error
}.

(** [encoder.Decode(subject, data, &v)]: what is left in [v], and the
    error.  The first argument is the value [v] holds before the call. *)
Variable Decode : ∀ T : Type, T → string → string → T * option error.

(** The zero values of the request types decoded below. *)
Variable zeroServiceSpec : ServiceSpec.
Variable zeroReleaseSpec : ReleaseSpec.

(** [methodSyncUpdate], which the source names without declaring it. *)
Variable methodSyncUpdate : string.

Variable remote : Remote.

(** [myID := guid.New()]. *)
Variable myID : string.

(** What one run of [processRequest] does before it reports: the error
    it ends with, what it published (reply subject and envelope) and how
    often it counted a kick. *)
Record handled : Type := mkHandled {
  herr : option error;
  published : list (string * Response);
  kicked : nat
}.

(** The [switch] of [processRequest]. *)
Definition processRequest (request : Msg) : handled :=
  let subject := Subject request in
  if HasSuffix subject methodKick then
    let id := Data request in
    if bool_decide (id ≠ myID) then
      {| herr := Some (FatalError (New ("Kicked by new subscriber " +:+ id)));
         published := []; kicked := 1 |}
    else {| herr := None; published := []; kicked := 0 |}
  else if HasSuffix subject methodPing then
    let '(_, err) := Decode unit tt subject (Data request) in
    let err := match err with None => RemotePing remote | Some _ => err end in
    {| herr := err; published := [(Reply request, PingResponse (makeErrorResponse err))];
       kicked := 0 |}
  else if HasSuffix subject methodVersion then
    let '(vsn, err) := RemoteVersion remote in
    {| herr := err;
       published := [(Reply request, VersionResponse vsn (makeErrorResponse err))];
       kicked := 0 |}
  else if HasSuffix subject methodExport then
    let '(_, err) := Decode unit tt subject (Data request) in
    let '(bytes, err) :=
      match err with None => RemoteExport remote | Some _ => ("", err) end in
    {| herr := err;
       published := [(Reply request, ExportResponse bytes (makeErrorResponse err))];
       kicked := 0 |}
  else if HasSuffix subject methodListServices then
    let '(namespace, err) := Decode string "" subject (Data request) in
    let '(res, err) :=
      match err with None => RemoteListServices remote namespace | Some _ => ([], err) end in
    {| herr := err;
       published := [(Reply request, ListServicesResponse res (makeErrorResponse err))];
       kicked := 0 |}
  else if HasSuffix subject methodListImages then
    let '(req, err) := Decode ServiceSpec zeroServiceSpec subject (Data request) in
    let '(res, err) :=
      match err with None => RemoteListImages remote req | Some _ => ([], err) end in
    {| herr := err;
       published := [(Reply request, ListImagesResponse res (makeErrorResponse err))];
       kicked := 0 |}
  else if HasSuffix subject methodUpdateImages then
    let '(req, err) := Decode ReleaseSpec zeroReleaseSpec subject (Data request) in
    let '(res, err) :=
      match err with None => RemoteUpdateImages remote req | Some _ => (∅, err) end in
    {| herr := err;
       published := [(Reply request, UpdateImagesResponse res (makeErrorResponse err))];
       kicked := 0 |}
  else if HasSuffix subject methodSyncCluster then
    let '(_, err) := Decode unit tt subject (Data request) in
    let err := match err with None => RemoteSyncCluster remote | Some _ => err end in
    {| herr := err;
       published := [(Reply request, SyncClusterResponse (makeErrorResponse err))];
       kicked := 0 |}
  else if HasSuffix subject methodSyncUpdate then
    let '(_, err) := Decode string "" subject (Data request) in
    let err := match err with None => RemoteSyncStatus remote | Some _ => err end in
    {| herr := err;
       published := [(Reply request, SyncStatusResponse [] (makeErrorResponse err))];
       kicked := 0 |}
  else
    {| herr := Some (New ("unknown message: " +:+ subject)); published := []; kicked := 0 |}.

(** A subscription as [Subscribe] sets it up.  [running] says that the
    goroutine with the [select] is alive, [parked] that it is blocked in
    that [select], where alone it receives from [errc], [requests] and
    the timer: after it has taken a request it is away from the [select]
    until it has started the handler and come round the loop again.
    [delivered] is what has been put on [done]; [inflight] are the
    requests handed to goroutines that have not finished. *)
Record session : Type := mkSession {
  subscribed : bool;
  requestsOpen : bool;
  running : bool;
  parked : bool;
  delivered : list (option error);
  inflight : list Msg;
  outbox : list (string * Response);
  kicks : nat
}.

(** [sub.Unsubscribe(); close(requests); done <- err; return]. *)
Definition teardown (err : option error) (s : session) : session :=
  {| subscribed := false; requestsOpen := false; running := false; parked := false;
     delivered := delivered s ++ [err]; inflight := inflight s;
     outbox := outbox s; kicks := kicks s |}.

(** [case request := <-requests: go processRequest(request)]: the
    goroutine leaves its [select] with the request and starts the
    handler. *)
Definition dispatch (request : Msg) (s : session) : session :=
  if running s && parked s then
    {| subscribed := subscribed s; requestsOpen := requestsOpen s; running := true;
       parked := false;
       delivered := delivered s; inflight := inflight s ++ [request];
       outbox := outbox s; kicks := kicks s |}
  else s.

(** The goroutine comes round the [for] loop and blocks in its [select]
    again. *)
Definition park (s : session) : session :=
  if running s then
    {| subscribed := subscribed s; requestsOpen := requestsOpen s; running := true;
       parked := true;
       delivered := delivered s; inflight := inflight s;
       outbox := outbox s; kicks := kicks s |}
  else s.

(** The handler goroutine of the [i]-th request in flight runs
    [processRequest] to its end.  A fatal error is offered on the
    unbuffered [errc] without blocking ([select] with [default]): the
    send goes through only if the goroutine of the subscription is
    blocked in its [select] at that moment; if it is away from the
    [select], or has returned, the [default] branch is taken and the
    error is dropped. *)
Definition finish (i : nat) (s : session) : session :=
  match inflight s !! i with
  | None => s
  | Some request =>
      let h := processRequest request in
      let s := {| subscribed := subscribed s; requestsOpen := requestsOpen s;
                  running := running s; parked := parked s; delivered := delivered s;
                  inflight := delete i (inflight s);
                  outbox := outbox s ++ published h; kicks := kicks s + kicked h |} in
      if isFatalError (herr h) then
        if running s && parked s then teardown (herr h) s else s
      else s
  end.

(** [case <-forceReconnect.C]. *)
Definition expire (s : session) : session :=
  if running s && parked s then teardown None s else s.


(** ** Kicks *)

Lemma dispatch_inflight (request : Msg) (s : session) :
  running s = true → parked s = true →
  inflight (dispatch request s) !! length (inflight s) = Some request ∧
  running (dispatch request s) = true ∧
  parked (dispatch request s) = false ∧
  subscribed (dispatch request s) = subscribed s ∧
  delivered (dispatch request s) = delivered s.
Proof.
  intros Hrun Hpark. unfold dispatch. rewrite Hrun, Hpark. cbn.
  split; [|done]. rewrite lookup_app_r by done. by rewrite Nat.sub_diag.
Qed.

Lemma processRequest_kick (request : Msg) :
  HasSuffix (Subject request) methodKick = true →
  processRequest request =
    if bool_decide (Data request ≠ myID)
    then {| herr := Some (FatalError (New ("Kicked by new subscriber " +:+ Data request)));
            published := []; kicked := 1 |}
    else {| herr := None; published := []; kicked := 0 |}.
Proof. intros Hkick. unfold processRequest. by rewrite Hkick. Qed.

(** What a kick does, by where the goroutine of the subscription is when
    the handler of the kick reports.  A kick with another subscriber's ID
    ends in the fatal error "Kicked by new subscriber <id>".  If the
    goroutine is blocked in its [select], it takes the error,
    unsubscribes, closes the request channel, puts that very error on
    done and returns.  If it is away from the [select] the error is
    dropped and the subscription stays as it is.  A kick with the
    session's own ID ends with no error, publishes nothing, counts no
    kick and changes nothing. *)
Lemma kick_at_or_away_from_select (s : session) (i : nat) (request : Msg) :
  HasSuffix (Subject request) methodKick = true →
  inflight s !! i = Some request →
  let id := Data request in
  let fatal := FatalError (errorString ("Kicked by new subscriber " +:+ id)) in
  (id ≠ myID →
     herr (processRequest request) = Some fatal ∧
     Error fatal = "Kicked by new subscriber " +:+ id ∧
     isFatalError (Some fatal) = true ∧
     kicks (finish i s) = kicks s + 1 ∧
     (running s = true → parked s = true →
        subscribed (finish i s) = false ∧
        requestsOpen (finish i s) = false ∧
        running (finish i s) = false ∧
        delivered (finish i s) = delivered s ++ [Some fatal]) ∧
     (parked s = false →
        subscribed (finish i s) = subscribed s ∧
        requestsOpen (finish i s) = requestsOpen s ∧
        running (finish i s) = running s ∧
        delivered (finish i s) = delivered s)) ∧
  (id = myID →
     herr (processRequest request) = None ∧
     published (processRequest request) = [] ∧
     kicks (finish i s) = kicks s ∧
     subscribed (finish i s) = subscribed s ∧
     requestsOpen (finish i s) = requestsOpen s ∧
     running (finish i s) = running s ∧
     delivered (finish i s) = delivered s).
Proof.
  intros Hkick Hin id fatal.
  pose proof (processRequest_kick request Hkick) as Hpr.
  unfold finish. rewrite Hin. split.
  - intros Hne. rewrite bool_decide_eq_true_2 in Hpr by done.
    rewrite Hpr. cbn [herr isFatalError New kicked published running parked].
    split; [done|]. split; [done|]. split; [done|]. split.
    { by destruct (running s && parked s). }
    split.
    + intros Hrun Hpark. rewrite Hrun, Hpark. done.
    + intros Hpark. rewrite Hpark, andb_false_r. done.
  - intros Heq. rewrite bool_decide_eq_false_2 in Hpr by (by intros ?).
    rewrite Hpr. cbn. by rewrite Nat.add_0_r.
Qed.


(** ** Replies and fatal errors, for every method *)

(** The [ErrorResponse] embedded in a response envelope. *)
Definition trailer (resp : Response) : ErrorResponse :=
  match resp with
  | PingResponse e | VersionResponse _ e | ExportResponse _ e
  | ListServicesResponse _ e | ListImagesResponse _ e | UpdateImagesResponse _ e
  | SyncClusterResponse e | SyncStatusResponse _ e => e
  end.

(** The subject ends in the name of a method that is answered. *)
Definition answered (subject : string) : bool :=
  HasSuffix subject methodPing || HasSuffix subject methodVersion
  || HasSuffix subject methodExport || HasSuffix subject methodListServices
  || HasSuffix subject methodListImages || HasSuffix subject methodUpdateImages
  || HasSuffix subject methodSyncCluster || HasSuffix subject methodSyncUpdate.

Lemma makeErrorResponse_fatal (err : option error) :
  RFatal (makeErrorResponse err) = isFatalError err.
Proof. by destruct err. Qed.

Local Ltac one_reply :=
  cbn [published herr kicked]; split; [reflexivity|]; eexists; split; [reflexivity|];
  cbn [trailer]; split; [reflexivity|apply makeErrorResponse_fatal].

(** What [processRequest] publishes.  A kick is never answered.  Any
    other request whose subject ends in the name of an answered method
    gets exactly one reply, on its reply subject, and the trailer of that
    reply is made from the error the handler ended with: its Fatal flag
    is set exactly when that error is a platform.FatalError.  A request
    for anything else gets no reply at all and ends with the error
    "unknown message: <subject>", which is not fatal. *)
Theorem processRequest_replies_once (request : Msg) :
  let h := processRequest request in
  (HasSuffix (Subject request) methodKick = true →
     published h = [] ∧ (herr h = None ∨ isFatalError (herr h) = true)) ∧
  (HasSuffix (Subject request) methodKick = false →
   answered (Subject request) = true →
     kicked h = 0 ∧
     ∃ resp, published h = [(Reply request, resp)] ∧
       trailer resp = makeErrorResponse (herr h) ∧
       RFatal (trailer resp) = isFatalError (herr h)) ∧
  (HasSuffix (Subject request) methodKick = false →
   answered (Subject request) = false →
     published h = [] ∧ kicked h = 0 ∧
     herr h = Some (New ("unknown message: " +:+ Subject request)) ∧
     isFatalError (herr h) = false).
Proof.
  cbn zeta. unfold processRequest, answered. split; [|split].
  - intros ->. case_bool_decide; cbn; by auto.
  - intros -> Hans.
    destruct (HasSuffix (Subject request) methodPing).
    { destruct (Decode unit tt _ _) as [? [e|]]; one_reply. }
    destruct (HasSuffix (Subject request) methodVersion).
    { destruct (RemoteVersion remote) as [vsn err]; one_reply. }
    destruct (HasSuffix (Subject request) methodExport).
    { destruct (Decode unit tt _ _) as [? [e|]]; [|destruct (RemoteExport remote)]; one_reply. }
    destruct (HasSuffix (Subject request) methodListServices).
    { destruct (Decode string "" _ _) as [ns [e|]];
        [|destruct (RemoteListServices remote ns)]; one_reply. }
    destruct (HasSuffix (Subject request) methodListImages).
    { destruct (Decode ServiceSpec _ _ _) as [req [e|]];
        [|destruct (RemoteListImages remote req)]; one_reply. }
    destruct (HasSuffix (Subject request) methodUpdateImages).
    { destruct (Decode ReleaseSpec _ _ _) as [req [e|]];
        [|destruct (RemoteUpdateImages remote req)]; one_reply. }
    destruct (HasSuffix (Subject request) methodSyncCluster).
    { destruct (Decode unit tt _ _) as [? [e|]]; one_reply. }
    destruct (HasSuffix (Subject request) methodSyncUpdate); [|done].
    destruct (Decode string "" _ _) as [? [e|]]; one_reply.
  - intros -> Hans.
    repeat (apply orb_false_elim in Hans as [Hans ?]).
    by repeat match goal with H : HasSuffix _ _ = false |- _ => rewrite H; clear H end.
Qed.

(** What the end of a handler does to the subscription, whatever the
    method.  The replies of the handler are out in every case.  The
    subscription is taken down, with the handler's error put on done,
    only if that error is a platform.FatalError and the goroutine of the
    subscription is blocked in its [select] to take it.  Otherwise (no
    error, an error that is not fatal, a goroutine that is away from its
    [select], or a subscription that is already down) nothing is put on
    done and the subscription stays as it was: a fatal error that is not
    taken is dropped. *)
Theorem finish_takes_down_on_fatal_only (s : session) (i : nat) (request : Msg) :
  inflight s !! i = Some request →
  let h := processRequest request in
  let s' := finish i s in
  outbox s' = outbox s ++ published h ∧
  kicks s' = kicks s + kicked h ∧
  inflight s' = delete i (inflight s) ∧
  (isFatalError (herr h) = true → running s = true → parked s = true →
     s' = teardown (herr h)
            {| subscribed := subscribed s; requestsOpen := requestsOpen s;
               running := true; parked := true; delivered := delivered s;
               inflight := delete i (inflight s);
               outbox := outbox s ++ published h; kicks := kicks s + kicked h |} ∧
     running s' = false ∧ subscribed s' = false ∧
     delivered s' = delivered s ++ [herr h]) ∧
  (isFatalError (herr h) = false ∨ running s = false ∨ parked s = false →
     running s' = running s ∧ parked s' = parked s ∧ subscribed s' = subscribed s ∧
     requestsOpen s' = requestsOpen s ∧ delivered s' = delivered s).
Proof.
  intros Hin h s'. unfold s', finish. rewrite Hin. fold h.
  split; [|split; [|split; [|split]]].
  - by destruct (isFatalError (herr h)), (running s), (parked s).
  - by destruct (isFatalError (herr h)), (running s), (parked s).
  - by destruct (isFatalError (herr h)), (running s), (parked s).
  - intros -> Hr Hp. cbn [running parked]. by rewrite Hr, Hp.
  - intros [->|[Hr|Hp]]; [done| |]; cbn [running parked].
    + rewrite Hr. by destruct (isFatalError (herr h)).
    + rewrite Hp, andb_false_r. by destruct (isFatalError (herr h)).
Qed.


(** ** The life of a subscription *)

(** What can happen to a subscription: a request arrives, the goroutine
    of the subscription comes back to its [select], the handler of the
    [i]-th request in flight comes to its end, the age limit is
    reached. *)
Inductive event : Type :=
| Arrives (request : Msg)
| Parks
| Finishes (i : nat)
| MaxAge.

Definition react (s : session) (ev : event) : session :=
  match ev with
  | Arrives request => dispatch request s
  | Parks => park s
  | Finishes i => finish i s
  | MaxAge => expire s
  end.

Definition run (events : list event) (s : session) : session := foldl react s events.

(** A subscription is either up, with nothing on done, or down, with
    exactly one value on done: nil (the age limit) or a fatal error. *)
Definition upOrDown (s : session) : Prop :=
  subscribed s = running s ∧ requestsOpen s = running s ∧
  length (delivered s) = (if running s then 0 else 1) ∧
  Forall (λ d, d = None ∨ isFatalError d = true) (delivered s).

Lemma teardown_upOrDown (s : session) (err : option error) :
  upOrDown s → running s = true → err = None ∨ isFatalError err = true →
  upOrDown (teardown err s).
Proof.
  unfold upOrDown, teardown. intros (Hsub & Hopen & Hlen & Hall) Hr Herr. cbn.
  rewrite Hr in Hlen. split; [done|]. split; [done|]. split.
  - rewrite length_app, Hlen. done.
  - apply Forall_app. split; [done|]. by apply Forall_singleton.
Qed.

Lemma react_upOrDown (s : session) (ev : event) : upOrDown s → upOrDown (react s ev).
Proof.
  intros Hs. destruct ev as [request| |i|]; cbn [react].
  - unfold dispatch. destruct (running s) eqn:Hr; [|done].
    destruct (parked s); [|done].
    unfold upOrDown in *. cbn. by rewrite Hr in Hs.
  - unfold park. destruct (running s) eqn:Hr; [|done].
    unfold upOrDown in *. cbn. by rewrite Hr in Hs.
  - unfold finish. destruct (inflight s !! i) as [request|]; [|done].
    set (s1 := {| subscribed := subscribed s; requestsOpen := requestsOpen s;
                  running := running s; parked := parked s; delivered := delivered s;
                  inflight := delete i (inflight s);
                  outbox := outbox s ++ published (processRequest request);
                  kicks := kicks s + kicked (processRequest request) |}).
    assert (Hs1 : upOrDown s1) by exact Hs.
    destruct (isFatalError (herr (processRequest request))) eqn:Hf; [|done].
    destruct (running s1) eqn:Hr; [|done].
    destruct (parked s1); [|done].
    apply teardown_upOrDown; [done|done|by right].
  - unfold expire. destruct (running s) eqn:Hr; [|done].
    destruct (parked s); [|done].
    apply teardown_upOrDown; [done|done|by left].
Qed.

Lemma react_down (s : session) (ev : event) :
  running s = false →
  running (react s ev) = false ∧ delivered (react s ev) = delivered s ∧
  subscribed (react s ev) = subscribed s ∧
  (length (inflight (react s ev)) ≤ length (inflight s))%nat.
Proof.
  intros Hr. destruct ev as [request| |i|]; cbn [react].
  - unfold dispatch. by rewrite Hr.
  - unfold park. by rewrite Hr.
  - unfold finish. destruct (inflight s !! i) as [request|] eqn:Hi; [|done].
    assert (Hlen : (length (delete i (inflight s)) ≤ length (inflight s))%nat).
    { rewrite length_delete by (by eexists). lia. }
    destruct (isFatalError (herr (processRequest request))); cbn [running];
      rewrite ?Hr; done.
  - unfold expire. by rewrite Hr.
Qed.

(** Whatever arrives, in whatever order the handlers come to their end
    and whenever the age limit is reached: a subscription that is up with
    nothing on done is afterwards either still up with nothing on done,
    or down with exactly one value on done, which is nil or a fatal
    error; it is unsubscribed exactly when it is down.  Once it is down
    nothing more is put on done, it does not come up again and it takes
    no more requests: only the first fatal error is delivered. *)
Theorem subscription_ends_once (events : list event) (s : session) :
  upOrDown s →
  upOrDown (run events s) ∧
  (length (delivered (run events s)) ≤ 1)%nat ∧
  (running s = false →
     running (run events s) = false ∧ delivered (run events s) = delivered s ∧
     (length (inflight (run events s)) ≤ length (inflight s))%nat).
Proof.
  revert s. unfold run. induction events as [|ev events IH]; intros s Hs; cbn [foldl].
  - split; [done|]. split; [|done].
    destruct Hs as (_ & _ & Hlen & _). rewrite Hlen. destruct (running s); lia.
  - destruct (IH (react s ev) (react_upOrDown s ev Hs)) as (Hinv & Hone & Hdown).
    split; [done|]. split; [done|]. intros Hr.
    destruct (react_down s ev Hr) as (Hr' & Hd' & _ & Hin').
    destruct (Hdown Hr') as (Hr'' & Hd'' & Hin'').
    split; [done|]. split; [by rewrite Hd''|]. lia.
Qed.

(** ** The error of a reply, on the client *)

(** The errors the client half of the bus returns: an error value of the
    daemon's kind, rebuilt from a reply ([platform.FatalError]); an
    [rpc.ServerError]; [nats.ErrTimeout]; another error of the
    connection; and [platform.UnavailableError] around one of these. *)
Inductive clientError : Type :=
| rebuilt (e : error)
| ServerError (msg : string)
| ErrTimeout
| connError (msg : string)
| UnavailableError (cause : clientError).

(** [func extractError(resp ErrorResponse) error]. *)
Definition extractError (resp : ErrorResponse) : option clientError :=
  if bool_decide (RError resp ≠ "") then
    if RFatal resp then Some (rebuilt (FatalError (New (RError resp))))
    else Some (ServerError (RError resp))
  else None.

(** What the daemon meant by an error of a reply: whether it was fatal,
    and its message. *)
Definition fatalReply (err : option clientError) : bool :=
  match err with
  | Some (rebuilt e) => isFatalError (Some e)
  | _ => false
  end.

Definition replyMessage (err : option clientError) : string :=
  match err with
  | Some (rebuilt e) => Error e
  | Some (ServerError msg) => msg
  | _ => ""
  end.

(** An error crosses the bus as its message and its fatal flag.  Nil
    arrives as nil.  An error with a non-empty message arrives as an
    error with the same message, fatal exactly when the daemon's error
    was a platform.FatalError itself; a fatal error wrapped in another
    error arrives as an ordinary server error.  An error whose message is
    empty arrives as nil. *)
Theorem error_across_the_bus (err : option error) :
  let arrived := extractError (makeErrorResponse err) in
  replyMessage arrived = from_option Error "" err ∧
  (arrived = None ↔ from_option Error "" err = "") ∧
  (from_option Error "" err ≠ "" → fatalReply arrived = isFatalError err) ∧
  (∀ e msg, err = Wrap (Some (FatalError e)) msg → fatalReply arrived = false).
Proof.
  cbn zeta. unfold extractError.
  destruct err as [e|]; cbn [makeErrorResponse from_option RError RFatal].
  - case_bool_decide as Hm.
    + assert (Hfatal : ∀ b : bool,
                fatalReply (if b then Some (rebuilt (FatalError (New (Error e))))
                            else Some (ServerError (Error e))) = b)
        by (by intros []).
      split; [by destruct (isFatalError (Some e))|].
      split; [by destruct (isFatalError (Some e))|].
      split; [by rewrite Hfatal|].
      intros e' msg [= ->]. by rewrite Hfatal.
    + assert (Hempty : Error e = "").
      { destruct (decide (Error e = "")); [done|]. by destruct Hm. }
      split; [done|]. split; [done|]. split; [done|]. done.
  - rewrite bool_decide_eq_false_2 by (by intros ?). done.
Qed.


(** ** Routing by suffix *)

Lemma append_cons (c : Ascii.ascii) (s t : string) : String c s +:+ t = String c (s +:+ t).
Proof. reflexivity. Qed.

Lemma substring_all (s : string) : String.substring 0 (String.length s) s = s.
Proof. induction s as [|c s IH]; [done|]. cbn. by rewrite IH. Qed.

Lemma substring_append_suffix (s m : string) (k : nat) :
  (k ≤ String.length m)%nat →
  (k ≤ String.length (s +:+ m))%nat ∧
  String.substring (String.length (s +:+ m) - k) k (s +:+ m) =
    String.substring (String.length m - k) k m.
Proof.
  intros Hk. induction s as [|c s [Hle IH]]; [done|].
  rewrite append_cons. cbn [String.length]. split; [lia|].
  replace (S (String.length (s +:+ m)) - k) with (S (String.length (s +:+ m) - k)) by lia.
  exact IH.
Qed.

Lemma substring_split (s : string) (i : nat) :
  (i ≤ String.length s)%nat →
  s = String.substring 0 i s +:+ String.substring i (String.length s - i) s.
Proof.
  revert i. induction s as [|c s IH]; intros i Hi.
  - by destruct i.
  - destruct i as [|i].
    + cbn [String.substring String.length Nat.sub]. rewrite substring_all. done.
    + cbn [String.length] in *. cbn [String.substring Nat.sub].
      rewrite append_cons. f_equal. apply IH. lia.
Qed.

Lemma HasSuffix_appended (s suffix : string) : HasSuffix (s +:+ suffix) suffix = true.
Proof.
  unfold HasSuffix.
  destruct (substring_append_suffix s suffix (String.length suffix)) as [Hle Hsub]; [done|].
  rewrite Hsub, Nat.sub_diag, substring_all, String.eqb_refl.
  by rewrite (proj2 (Nat.leb_le _ _) Hle).
Qed.

Lemma HasSuffix_split (s suffix : string) :
  HasSuffix s suffix = true → ∃ p, s = p +:+ suffix.
Proof.
  unfold HasSuffix. intros [Hle Heq]%andb_prop.
  apply Nat.leb_le in Hle. apply String.eqb_eq in Heq.
  exists (String.substring 0 (String.length s - String.length suffix) s).
  pose proof (substring_split s (String.length s - String.length suffix)) as Hsplit.
  replace (String.length s - (String.length s - String.length suffix))%nat
    with (String.length suffix) in Hsplit by lia.
  rewrite Heq in Hsplit. apply Hsplit. lia.
Qed.

Lemma append_eq_append (a m p suffix : string) :
  a +:+ m = p +:+ suffix →
  (∃ q, m = q +:+ suffix) ∨ (∃ q, suffix = q +:+ m).
Proof.
  revert p. induction a as [|c a IH]; intros p.
  - intros Heq. left. by exists p.
  - destruct p as [|c' p].
    + intros Heq. right. exists (String c a). done.
    + rewrite !append_cons. intros [= _ Heq]. by apply IH in Heq.
Qed.

(** A subject made of an instance and a method ends in another name only
    if one of the two names ends in the other. *)
Lemma HasSuffix_unrelated (instance method suffix : string) :
  HasSuffix method suffix = false → HasSuffix suffix method = false →
  HasSuffix (instance +:+ method) suffix = false.
Proof.
  intros Hms Hsm. destruct (HasSuffix (instance +:+ method) suffix) eqn:Hs; [|done].
  apply HasSuffix_split in Hs as [p Hp].
  destruct (append_eq_append _ _ _ _ Hp) as [[q ->]|[q ->]].
  - by rewrite HasSuffix_appended in Hms.
  - by rewrite HasSuffix_appended in Hsm.
Qed.

(** The method an envelope answers. *)
Definition methodOf (resp : Response) : string :=
  match resp with
  | PingResponse _ => methodPing
  | VersionResponse _ _ => methodVersion
  | ExportResponse _ _ => methodExport
  | ListServicesResponse _ _ => methodListServices
  | ListImagesResponse _ _ => methodListImages
  | UpdateImagesResponse _ _ => methodUpdateImages
  | SyncClusterResponse _ => methodSyncCluster
  | SyncStatusResponse _ _ => methodSyncStatus
  end.

(** The methods whose subject the client and the handler name by the
    same constant. *)
Definition routedMethods : list string :=
  [methodPing; methodVersion; methodExport; methodListServices; methodListImages;
   methodUpdateImages; methodSyncCluster].

Local Ltac route :=
  repeat match goal with
         | |- context [HasSuffix (?i +:+ ?m) ?m] => rewrite (HasSuffix_appended i m)
         | |- context [HasSuffix (?i +:+ ?m) ?m'] =>
             rewrite (HasSuffix_unrelated i m m') by reflexivity
         end;
  cbv beta iota.

(** The switch of the handler tests the suffixes in a fixed order, and no
    method name ends in another: whatever the name of the instance, a
    request on the subject instance + method is handled by the case of
    that very method.  It gets one reply, on its reply subject, in the
    envelope of the method; a kick gets none. *)
Theorem requests_reach_their_method (instance method reply data : string) :
  let h := processRequest {| Subject := instance +:+ method; Reply := reply; Data := data |} in
  (method ∈ routedMethods →
     kicked h = 0 ∧
     ∃ resp, published h = [(reply, resp)] ∧ methodOf resp = method ∧
             trailer resp = makeErrorResponse (herr h)) ∧
  (method = methodKick → published h = []).
Proof.
  cbn zeta. split.
  - unfold routedMethods. rewrite !elem_of_cons, elem_of_nil.
    unfold processRequest. cbn [Subject Reply Data].
    intros [->|[->|[->|[->|[->|[->|[->|[]]]]]]]]; route.
    + destruct (Decode unit tt _ _) as [? [e|]]; cbn; eauto.
    + destruct (RemoteVersion remote) as [vsn err]; cbn; eauto.
    + destruct (Decode unit tt _ _) as [? [e|]]; [cbn; eauto|].
      destruct (RemoteExport remote); cbn; eauto.
    + destruct (Decode string "" _ _) as [? [e|]]; [cbn; eauto|].
      destruct (RemoteListServices remote _); cbn; eauto.
    + destruct (Decode ServiceSpec _ _ _) as [? [e|]]; [cbn; eauto|].
      destruct (RemoteListImages remote _); cbn; eauto.
    + destruct (Decode ReleaseSpec _ _ _) as [? [e|]]; [cbn; eauto|].
      destruct (RemoteUpdateImages remote _); cbn; eauto.
    + destruct (Decode unit tt _ _) as [? [e|]]; cbn; eauto.
  - intros ->. unfold processRequest. cbn [Subject Reply Data]. route.
    by case_bool_decide.
Qed.

(** ** The client half *)

#[local] Instance clientError_eq_dec : EqDecision clientError.
Proof. solve_decision. Defined.

(** [r.conn.Request(subject, v, &response, timeout)]: the reply the
    connection brings back for a request on [subject], or its error.  The
    reply is the envelope a subscriber published, as it travels; decoding
    it into the response struct of the call fills the fields that struct
    has.  The requests of the methods below are empty structs. *)
Definition connection : Type := string → Response + clientError.

(** [r.instance]. *)
Variable instance : string.

(** [if err == nats.ErrTimeout { err = platform.UnavailableError(err) }]. *)
Definition unavailable (err : clientError) : clientError :=
  if decide (err = ErrTimeout) then UnavailableError err else err.

(** The fields a reply has for the response structs of the client: the
    embedded [ErrorResponse] is [trailer]; [Version] and [Config] are
    left at their zero value by a reply that does not have them. *)
Definition versionOf (resp : Response) : string :=
  match resp with VersionResponse version _ => version | _ => "" end.

Definition configOf (resp : Response) : string :=
  match resp with ExportResponse config _ => config | _ => "" end.

(** [func (r *natsPlatform) Ping() error]. *)
Definition Ping (conn : connection) : option clientError :=
  match conn (instance +:+ methodPing) with
  | inr err => Some (unavailable err)
  | inl response => extractError (trailer response)
  end.

(** [func (r *natsPlatform) Version() (string, error)]. *)
Definition Version (conn : connection) : string * option clientError :=
  match conn (instance +:+ methodVersion) with
  | inr err => ("", Some (unavailable err))
  | inl response => (versionOf response, extractError (trailer response))
  end.

(** [func (r *natsPlatform) Export() ([]byte, error)]. *)
Definition Export (conn : connection) : string * option clientError :=
  match conn (instance +:+ methodExport) with
  | inr err => ("", Some (unavailable err))
  | inl response => (configOf response, extractError (trailer response))
  end.

(** [func (r *natsPlatform) SyncCluster() error]. *)
Definition SyncCluster (conn : connection) : option clientError :=
  match conn (instance +:+ methodSyncCluster) with
  | inr err => Some (unavailable err)
  | inl response => extractError (trailer response)
  end.

(** A connection on which the subscription of this section answers: the
    request goes to the handler with the reply subject [inbox] and the
    body [body], and what the handler publishes comes back; a request
    that gets no reply times out. *)
Definition loopback (inbox body : string) : connection :=
  λ subject,
    match published (processRequest {| Subject := subject; Reply := inbox; Data := body |}) with
    | [(_, reply)] => inl reply
    | _ => inr ErrTimeout
    end.

(** The connection carries the call on [subject] to the subscription and
    its reply back: the request arrives with a body that decodes, and
    the reply the client gets is the envelope the handler published. *)
Definition carried (conn : connection) (subject : string) : Prop :=
  ∃ reply data resp,
    (Decode unit tt subject data).2 = None ∧
    published (processRequest {| Subject := subject; Reply := reply; Data := data |}) =
      [(reply, resp)] ∧
    conn subject = inl resp.

Lemma loopback_carried (inbox body subject : string) (resp : Response) :
  (Decode unit tt subject body).2 = None →
  published (processRequest {| Subject := subject; Reply := inbox; Data := body |}) =
    [(inbox, resp)] →
  carried (loopback inbox body) subject.
Proof.
  intros Hd Hp. exists inbox, body, resp. split; [done|]. split; [done|].
  unfold loopback. by rewrite Hp.
Qed.

(** A call that the connection carries to the subscription and back
    returns what the daemon returned, with the error as the trailer
    transports it; [Version] and [Export] hand on the daemon's value also
    next to an error. *)
Theorem client_calls_return_the_daemons_answer (conn : connection) :
  (carried conn (instance +:+ methodPing) →
     Ping conn = extractError (makeErrorResponse (RemotePing remote))) ∧
  (carried conn (instance +:+ methodVersion) →
     Version conn = ((RemoteVersion remote).1,
                     extractError (makeErrorResponse (RemoteVersion remote).2))) ∧
  (carried conn (instance +:+ methodExport) →
     Export conn = ((RemoteExport remote).1,
                    extractError (makeErrorResponse (RemoteExport remote).2))) ∧
  (carried conn (instance +:+ methodSyncCluster) →
     SyncCluster conn = extractError (makeErrorResponse (RemoteSyncCluster remote))).
Proof.
  unfold carried, processRequest. cbn [Subject Reply Data].
  split; [|split; [|split]].
  - intros (reply & data & resp & Hdec & Hpub & Hconn). revert Hpub. route.
    destruct (Decode unit tt _ _) as [? [e|]]; [done|].
    intros [= <-]. unfold Ping. by rewrite Hconn.
  - intros (reply & data & resp & Hdec & Hpub & Hconn). revert Hpub. route.
    destruct (RemoteVersion remote) as [vsn err].
    intros [= <-]. unfold Version. by rewrite Hconn.
  - intros (reply & data & resp & Hdec & Hpub & Hconn). revert Hpub. route.
    destruct (Decode unit tt _ _) as [? [e|]]; [done|].
    destruct (RemoteExport remote) as [bytes err].
    intros [= <-]. unfold Export. by rewrite Hconn.
  - intros (reply & data & resp & Hdec & Hpub & Hconn). revert Hpub. route.
    destruct (Decode unit tt _ _) as [? [e|]]; [done|].
    intros [= <-]. unfold SyncCluster. by rewrite Hconn.
Qed.

End Bus.

(** A subscription that has just been set up, for the examples: the
    subscriber S1 of the instance instance-1, its goroutine blocked in
    the [select]. *)
Definition exampleRemote : Remote unit unit unit :=
  {| RemotePing := None; RemoteVersion := ("master-952c028", None);
     RemoteExport := ("", None); RemoteListServices := λ _, ([], None);
     RemoteListImages := λ _, ([], None); RemoteUpdateImages := λ _, (∅, None);
     RemoteSyncCluster := Some (New "FIXME"); RemoteSyncStatus := Some (New "FIXME") |}.

Definition exampleDecode : ∀ T : Type, T → string → string → T * option error :=
  λ T zero _ _, (zero, None).

Definition fresh : session unit :=
  {| subscribed := true; requestsOpen := true; running := true; parked := true;
     delivered := []; inflight := []; outbox := []; kicks := 0 |}.

Definition kickFrom (instance id : string) : Msg :=
  {| Subject := instance +:+ methodKick; Reply := ""; Data := id |}.

Definition exampleProcess : Msg → handled unit :=
  processRequest unit unit unit exampleDecode tt tt ".Platform.SyncUpdate" exampleRemote "S1".

Definition exampleFinish : nat → session unit → session unit :=
  finish unit unit unit exampleDecode tt tt ".Platform.SyncUpdate" exampleRemote "S1".

Definition exampleRun : list event → session unit → session unit :=
  run unit unit unit exampleDecode tt tt ".Platform.SyncUpdate" exampleRemote "S1".

(** Scenario 3 of the specification, when the goroutine of S1 is back in
    its [select] before the handler of the kick reports: S1 goes down
    with the error naming S2. *)
Example kick_at_select_is_fatal :
  let s := exampleRun [Arrives (kickFrom "instance-1" "S2"); Parks; Finishes 0] fresh in
  subscribed unit s = false ∧ running unit s = false ∧
  delivered unit s = [Some (FatalError (errorString "Kicked by new subscriber S2"))].
Proof. vm_compute. done. Qed.

(** C8: the subscriber S1 receives the kick of S2, and the handler of the
    kick reports before the goroutine of S1 is back in its [select].  The
    handler ends with the fatal error "Kicked by new subscriber S2" and
    counts the kick, but nobody receives on the unbuffered [errc], the
    non-blocking send takes its [default], and the error is gone: S1
    stays subscribed and running, nothing is put on done, and no later
    event brings the error back, although the kick has been consumed.
    Had the goroutine been in its [select], S1 would have gone down with
    that error. *)
Theorem kick_reported_away_from_select_is_lost :
  let kick := kickFrom "instance-1" "S2" in
  let fatal := FatalError (errorString "Kicked by new subscriber S2") in
  let lost := exampleRun [Arrives kick; Finishes 0; Parks] fresh in
  let taken := exampleRun [Arrives kick; Parks; Finishes 0] fresh in
  herr unit (exampleProcess kick) = Some fatal ∧
  lost = {| subscribed := true; requestsOpen := true; running := true; parked := true;
            delivered := []; inflight := []; outbox := []; kicks := 1 |} ∧
  (∀ events, Forall (λ ev, ev = Parks ∨ ∃ i, ev = Finishes i) events →
     exampleRun events lost = lost) ∧
  subscribed unit taken = false ∧ delivered unit taken = [Some fatal].
Proof.
  cbn zeta.
  destruct (kick_at_or_away_from_select unit unit unit exampleDecode tt tt
              ".Platform.SyncUpdate" exampleRemote "S1"
              (dispatch unit (kickFrom "instance-1" "S2") fresh) 0
              (kickFrom "instance-1" "S2") eq_refl eq_refl) as [Hother _].
  destruct Hother as (Herr & _ & _ & _ & _ & _); [discriminate|].
  split; [exact Herr|].
  assert (Hlost : exampleRun [Arrives (kickFrom "instance-1" "S2"); Finishes 0; Parks] fresh =
                  {| subscribed := true; requestsOpen := true; running := true;
                     parked := true; delivered := []; inflight := []; outbox := [];
                     kicks := 1 |}) by (vm_compute; reflexivity).
  split; [exact Hlost|]. split.
  - rewrite Hlost. intros events Hall.
    induction Hall as [|ev events [->|[i ->]] _ IH]; [reflexivity| |].
    + exact IH.
    + unfold exampleRun, run in *. cbn [foldl react].
      unfold finish at 1. cbn [inflight]. rewrite lookup_nil. exact IH.
  - vm_compute. done.
Qed.

(** The session's own kick leaves it running. *)
Example own_kick_is_ignored :
  exampleRun [Arrives (kickFrom "instance-1" "S1"); Parks; Finishes 0] fresh = fresh.
Proof. vm_compute. reflexivity. Qed.

(** A kick that is reported after the subscription went down is dropped:
    nothing more is put on done. *)
Example late_kick_is_dropped :
  delivered unit
    (exampleRun [Arrives (kickFrom "instance-1" "S2"); Parks;
                 Arrives (kickFrom "instance-1" "S3"); Parks;
                 Finishes 0; Finishes 0] fresh) =
  [Some (FatalError (errorString "Kicked by new subscriber S2"))].
Proof. vm_compute. reflexivity. Qed.

Definition syncClusterRequest : Msg :=
  {| Subject := "instance-1" +:+ methodSyncCluster; Reply := "_INBOX.1"; Data := "" |}.

(** The three ways a handler can end.  The kick of S2, reported to a
    goroutine in its [select], takes S1 down with the error on done.  The
    same kick, reported while the goroutine is away from its [select], is
    dropped.  A handler that ends with an ordinary error (the FIXME of
    SyncCluster) leaves the subscription up, and its reply is out. *)
Lemma finish_takes_down_on_fatal_only_witness :
  let kick := kickFrom "instance-1" "S2" in
  let taken := exampleFinish 0 (park unit (dispatch unit kick fresh)) in
  let dropped := exampleFinish 0 (dispatch unit kick fresh) in
  let ordinary := exampleFinish 0 (park unit (dispatch unit syncClusterRequest fresh)) in
  (running unit taken = false ∧
   delivered unit taken = [Some (FatalError (errorString "Kicked by new subscriber S2"))]) ∧
  (running unit dropped = true ∧ delivered unit dropped = []) ∧
  (running unit ordinary = true ∧ delivered unit ordinary = [] ∧
   length (outbox unit ordinary) = 1).
Proof.
  cbn zeta. split; [|split].
  - destruct (finish_takes_down_on_fatal_only unit unit unit exampleDecode tt tt
                ".Platform.SyncUpdate" exampleRemote "S1"
                (park unit (dispatch unit (kickFrom "instance-1" "S2") fresh)) 0
                (kickFrom "instance-1" "S2") eq_refl)
      as (_ & _ & _ & Hdown & _).
    destruct (Hdown eq_refl eq_refl eq_refl) as (_ & Hr & _ & Hd).
    split; [exact Hr|exact Hd].
  - destruct (finish_takes_down_on_fatal_only unit unit unit exampleDecode tt tt
                ".Platform.SyncUpdate" exampleRemote "S1"
                (dispatch unit (kickFrom "instance-1" "S2") fresh) 0
                (kickFrom "instance-1" "S2") eq_refl)
      as (_ & _ & _ & _ & Hup).
    destruct (Hup (or_intror (or_intror eq_refl))) as (Hr & _ & _ & _ & Hd).
    split; [exact Hr|exact Hd].
  - destruct (finish_takes_down_on_fatal_only unit unit unit exampleDecode tt tt
                ".Platform.SyncUpdate" exampleRemote "S1"
                (park unit (dispatch unit syncClusterRequest fresh)) 0
                syncClusterRequest eq_refl)
      as (Hout & _ & _ & _ & Hup).
    destruct (Hup (or_introl eq_refl)) as (Hr & _ & _ & _ & Hd).
    split; [exact Hr|]. split; [exact Hd|].
    unfold exampleFinish. rewrite Hout. vm_compute. reflexivity.
Defined.

(** Two kicks, the age limit and a late request: one value on done. *)
Lemma subscription_ends_once_witness :
  let s := exampleRun
             [Arrives (kickFrom "instance-1" "S2"); Parks;
              Arrives (kickFrom "instance-1" "S3"); Parks;
              Finishes 0; MaxAge; Finishes 0; Arrives syncClusterRequest; Parks]
             fresh in
  upOrDown unit fresh ∧ upOrDown unit s ∧ (length (delivered unit s) ≤ 1)%nat.
Proof.
  cbn zeta.
  assert (Hfresh : upOrDown unit fresh).
  { unfold upOrDown. cbn. split; [reflexivity|]. split; [reflexivity|].
    split; [reflexivity|]. constructor. }
  destruct (subscription_ends_once unit unit unit exampleDecode tt tt
              ".Platform.SyncUpdate" exampleRemote "S1"
              [Arrives (kickFrom "instance-1" "S2"); Parks;
               Arrives (kickFrom "instance-1" "S3"); Parks;
               Finishes 0; MaxAge; Finishes 0; Arrives syncClusterRequest; Parks]
              fresh Hfresh) as (Hinv & Hone & _).
  split; [exact Hfresh|]. split; [exact Hinv|exact Hone].
Defined.

(** The subscription of the witness went down with the kick of S2. *)
Example subscription_down_after_first_kick :
  delivered unit
    (exampleRun
       [Arrives (kickFrom "instance-1" "S2"); Parks;
        Arrives (kickFrom "instance-1" "S3"); Parks;
        Finishes 0; MaxAge; Finishes 0; Arrives syncClusterRequest; Parks]
       fresh) =
  [Some (FatalError (errorString "Kicked by new subscriber S2"))].
Proof. vm_compute. reflexivity. Qed.

(** A fatal error wrapped with a message crosses the bus as an ordinary
    server error. *)
Example wrapped_fatal_error_arrives_ordinary :
  extractError (makeErrorResponse (Wrap (Some (FatalError (New "gone"))) "pinging")) =
  Some (ServerError "pinging: gone").
Proof. vm_compute. reflexivity. Qed.

(** A daemon that is going down: its Ping fails fatally, it still tells
    its version, and its export comes with an error. *)
Definition leavingRemote : Remote unit unit unit :=
  {| RemotePing := Some (FatalError (New "daemon is shutting down"));
     RemoteVersion := ("master-952c028", None);
     RemoteExport := ("kind: Namespace", Some (New "getting deployments"));
     RemoteListServices := λ _, ([], None);
     RemoteListImages := λ _, ([], None); RemoteUpdateImages := λ _, (∅, None);
     RemoteSyncCluster := Some (New "FIXME"); RemoteSyncStatus := Some (New "FIXME") |}.

(** The connection of the examples: the calls for instance-1 reach the
    subscription of that daemon. *)
Definition exampleConnection : connection unit :=
  loopback unit unit unit exampleDecode tt tt ".Platform.SyncUpdate" leavingRemote "S1"
    "_INBOX.1" "".

(** The client's calls over that connection: the fatal error of Ping
    arrives as a fatal error with the same message, the version arrives,
    and the export arrives together with its error. *)
Lemma client_calls_return_the_daemons_answer_witness :
  Ping unit "instance-1" exampleConnection =
    Some (rebuilt (FatalError (errorString "daemon is shutting down"))) ∧
  Version unit "instance-1" exampleConnection = ("master-952c028", None) ∧
  Export unit "instance-1" exampleConnection =
    ("kind: Namespace", Some (ServerError "getting deployments")) ∧
  SyncCluster unit "instance-1" exampleConnection = Some (ServerError "FIXME").
Proof.
  destruct (client_calls_return_the_daemons_answer unit unit unit exampleDecode tt tt
              ".Platform.SyncUpdate" leavingRemote "S1" "instance-1" exampleConnection)
    as (Hping & Hversion & Hexport & Hsync).
  assert (Hcarried : ∀ method resp,
    published unit
      (processRequest unit unit unit exampleDecode tt tt ".Platform.SyncUpdate"
         leavingRemote "S1"
         {| Subject := "instance-1" +:+ method; Reply := "_INBOX.1"; Data := "" |}) =
      [("_INBOX.1", resp)] →
    carried unit unit unit exampleDecode tt tt ".Platform.SyncUpdate" leavingRemote "S1"
      exampleConnection ("instance-1" +:+ method)).
  { intros method resp Hp. by eapply loopback_carried. }
  split; [|split; [|split]].
  - rewrite Hping; [reflexivity|]. eapply Hcarried. vm_compute. reflexivity.
  - rewrite Hversion; [reflexivity|]. eapply Hcarried. vm_compute. reflexivity.
  - rewrite Hexport; [reflexivity|]. eapply Hcarried. vm_compute. reflexivity.
  - rewrite Hsync; [reflexivity|]. eapply Hcarried. vm_compute. reflexivity.
Defined.

(** A call on a connection that nobody answers comes back unavailable. *)
Example Ping_times_out :
  Ping unit "instance-1" (λ _, inr ErrTimeout) = Some (UnavailableError ErrTimeout).
Proof. reflexivity. Qed.

End Nats.
